(** * LDAP to PostgreSQL migration: a shallow embedding of the orchestration
    engine (migration.service.ts, database.service.ts, ldap.service.ts,
    password.utils.ts, configuration.ts, the two entities) and the properties
    of its specification.

    Conventions of the embedding.
    - A JavaScript string is a [string]: a sequence of code units, each of them
      an [ascii]; the line terminators a regular expression's [.] refuses are
      then LF and CR.
    - A value of type [string | null | undefined] is an [option string];
      [None] stands for both [null] and [undefined].
    - A JavaScript number used as an index or a batch size is a [jsnum]:
      an integer, or [None] for [NaN].
    - An asynchronous method that is awaited where it is called is a
      computation of the monad [M]: it threads the state of the process and
      of the two external stores, and ends in a value, in a thrown [Error]
      (carrying its message), or out of fuel.
    - The methods that run side by side under [Promise.allSettled] are
      [Promise]s: what is left of them at each [await]. The order in which
      pending promises take their turns is chosen by the environment.
    - What the directory server, the database server and its clock,
      [Math.random], [bcrypt] and the scheduler answer is read from an
      environment [Env]. *)

From Stdlib Require Import ZArith Lia Bool Ascii String.
From stdpp Require Import base gmap strings list fin_maps.

Local Open Scope string_scope.
Local Open Scope Z_scope.
Local Open Scope nat_scope.

(** ** JavaScript values *)

Module Js.

(** Truthiness of a string: only the empty string is falsy. *)
Definition nonempty (s : string) : bool :=
  match s with
  | EmptyString => false
  | String _ _ => true
  end.

(** Truthiness of [string | null | undefined]. *)
Definition truthy (v : option string) : bool :=
  match v with
  | Some s => nonempty s
  | None => false
  end.

(** [a || b] on [string | null | undefined]. *)
Definition or (a b : option string) : option string :=
  if truthy a then a else b.

(** [n || 0] on [number | undefined]. *)
Definition or_zero (n : option nat) : nat :=
  match n with
  | Some k => k
  | None => 0
  end.

(** [b || false] on [boolean | undefined]. *)
Definition or_false (b : option bool) : bool :=
  match b with
  | Some x => x
  | None => false
  end.

(** [(values as string[])?.[0] || ''] on an attribute that may be missing. *)
Definition first_or_empty (values : option (list string)) : string :=
  match values with
  | Some (v :: _) => v
  | _ => ""
  end.

(** Numbers that take part in the batch loop: an integer or [NaN]. *)
Definition jsnum := option Z.

Definition NaN : jsnum := None.

Definition add (a b : jsnum) : jsnum :=
  match a, b with
  | Some x, Some y => Some (x + y)%Z
  | _, _ => None
  end.

(** [a < b]: false as soon as one side is [NaN]. *)
Definition lt (a b : jsnum) : bool :=
  match a, b with
  | Some x, Some y => (x <? y)%Z
  | _, _ => false
  end.

(** The relative index of [Array.prototype.slice]: [NaN] counts as [0], a
    negative index counts from the end, and the result is clamped to
    [0 .. len]. *)
Definition relative_index (len : Z) (k : jsnum) : Z :=
  match k with
  | None => 0%Z
  | Some k => if (k <? 0)%Z then Z.max (len + k) 0 else Z.min k len
  end.

(** [l.slice(start, end)]. *)
Definition slice {A : Type} (l : list A) (start finish : jsnum) : list A :=
  let len := Z.of_nat (length l) in
  let k := relative_index len start in
  let final := relative_index len finish in
  take (Z.to_nat (final - k)) (drop (Z.to_nat k) l).

(** [s.charAt(i)]: the empty string out of range. *)
Definition charAt (s : string) (i : nat) : string :=
  match String.get i s with
  | Some c => String c EmptyString
  | None => ""
  end.

End Js.

(** ** Regular expressions of the shape [/^TAG(.+)$/] *)

Module Regex.

(** The characters that [.] does not match. *)
Definition is_line_terminator (c : ascii) : bool :=
  orb (Ascii.eqb c "010"%char) (Ascii.eqb c "013"%char).

Fixpoint no_line_terminator (s : string) : bool :=
  match s with
  | EmptyString => true
  | String c rest => andb (negb (is_line_terminator c)) (no_line_terminator rest)
  end.

(** [strip_prefix p s] is the rest of [s] after the literal [p], if [s]
    starts with [p]. *)
Fixpoint strip_prefix (p s : string) : option string :=
  match p with
  | EmptyString => Some s
  | String a p' =>
      match s with
      | EmptyString => None
      | String b s' => if Ascii.eqb a b then strip_prefix p' s' else None
      end
  end.

(** [s.match(/^TAG(.+)$/)]: the captured group, when the whole input is the
    tag followed by one or more characters, none of them a line
    terminator. *)
Definition match_tagged (tag s : string) : option string :=
  match strip_prefix tag s with
  | Some rest =>
      if andb (Js.nonempty rest) (no_line_terminator rest) then Some rest else None
  | None => None
  end.

(** [/^TAG/.test(s)]. *)
Definition test_prefix (tag s : string) : bool :=
  match strip_prefix tag s with
  | Some _ => true
  | None => false
  end.

End Regex.

(** ** Data model *)

(** The [Client] entity (client.entity.ts). In the [clients] table a row is
    stored under its unique key [client_id]; [columns] are the other columns
    of the row. A timestamp is a number of the database clock. *)
Module Client.
Record t := mk {
  id : nat;                  (* generated primary key *)
  client_id : string;        (* unique client OU name *)
  name : option string;
  created_at : nat;          (* @CreateDateColumn *)
  updated_at : nat           (* @UpdateDateColumn *)
}.

Record columns := cols {
  col_id : nat;
  col_name : option string;
  col_created_at : nat;
  col_updated_at : nat
}.

Definition read (key : string) (r : columns) : t :=
  mk (col_id r) key (col_name r) (col_created_at r) (col_updated_at r).

Definition write (c : t) : columns :=
  cols (id c) (name c) (created_at c) (updated_at c).
End Client.

(** The [User] entity (user.entity.ts). In the [users] table a row is stored
    under its unique key [(client_id, username)]; [columns] are the other
    columns of the row. *)
Module User.
Record t := mk {
  id : nat;                  (* generated primary key *)
  client_id : nat;           (* foreign key to clients *)
  username : string;
  first_name : option string;
  last_name : option string;
  email : option string;
  password_hash : option string;
  ldap_dn : string;
  created_at : nat;          (* @CreateDateColumn *)
  updated_at : nat           (* @UpdateDateColumn *)
}.

Record columns := cols {
  col_id : nat;
  col_first_name : option string;
  col_last_name : option string;
  col_email : option string;
  col_password_hash : option string;
  col_ldap_dn : string;
  col_created_at : nat;
  col_updated_at : nat
}.

Definition read (key : nat * string) (r : columns) : t :=
  mk (col_id r) (fst key) (snd key) (col_first_name r) (col_last_name r)
    (col_email r) (col_password_hash r) (col_ldap_dn r)
    (col_created_at r) (col_updated_at r).

Definition write (u : t) : columns :=
  cols (id u) (first_name u) (last_name u) (email u) (password_hash u) (ldap_dn u)
    (created_at u) (updated_at u).
End User.

(** A row of the [migration_log] table, without its generated columns. *)
Record LogRow := {
  total_clients : nat;
  total_users : nat;
  successful_clients : nat;
  successful_users : nat;
  failed_clients : nat;
  failed_users : nat;
  error_log : option string;
  dry_run : bool
}.

(** [interface UserData] of ldap.service.ts. *)
Record UserData := {
  uid : string;
  givenName : string;
  sn : string;
  mail : string;
  userPassword : string;
  dn : string
}.

(** What [upsertUser(userData: any, ...)] reads of its argument; the four
    optional attributes may be missing or null. *)
Module Incoming.
Record t := mk {
  uid : string;
  givenName : option string;
  sn : option string;
  mail : option string;
  password_hash : option string;
  dn : string
}.
End Incoming.

(** An element of the array [searchClients] returns. *)
Record ClientOU := {
  ou : string;
  ou_dn : string
}.

(** An entry of a directory search result. *)
Record SearchEntry := {
  entry_dn : string;
  attributes : gmap string (list string)
}.

(** [interface MigrationStats]. *)
Record MigrationStats := {
  totalClients : nat;
  totalUsers : nat;
  successfulClients : nat;
  successfulUsers : nat;
  failedClients : nat;
  failedUsers : nat;
  errors : list string
}.

(** [interface MigrationResult]; the wall-clock [duration] is left out. *)
Record MigrationResult := {
  success : bool;
  result_stats : MigrationStats;
  result_dryRun : bool
}.

(** What [logMigrationRun(stats: any)] reads of its argument. *)
Record LoggedStats := {
  ls_totalClients : option nat;
  ls_totalUsers : option nat;
  ls_successfulClients : option nat;
  ls_successfulUsers : option nat;
  ls_failedClients : option nat;
  ls_failedUsers : option nat;
  ls_errorLog : option string;
  ls_dryRun : option bool
}.

(** A [MigrationStats] object seen through [any]: it has the six counters and
    [errors]; it has neither an [errorLog] nor a [dryRun] property. *)
Definition stats_as_any (s : MigrationStats) : LoggedStats :=
  {| ls_totalClients := Some (totalClients s);
     ls_totalUsers := Some (totalUsers s);
     ls_successfulClients := Some (successfulClients s);
     ls_successfulUsers := Some (successfulUsers s);
     ls_failedClients := Some (failedClients s);
     ls_failedUsers := Some (failedUsers s);
     ls_errorLog := None;
     ls_dryRun := None |}.

(** ** Environment and state *)

Inductive reply (A : Type) : Type :=
| Done (a : A)
| Fails (msg : string).
Arguments Done {A} a.
Arguments Fails {A} msg.

(** Calls that reach the directory or the database, in the order in which
    they reach it. *)
Inductive Event : Type :=
| EvBind
| EvUnbind
| EvSearchClients
| EvSearchUsers (clientOU : string)
| EvInitializeTables
| EvUpsertClient (clientId : string)
| EvUpsertUser (clientId : nat) (username : string)
| EvLogMigrationRun
| EvDestroy.

(** The configuration and the answers of the outside world during a run. An
    [_error] field is the message of the error the operation raises, if it
    raises one. *)
Record Env := {
  (* configuration.ts *)
  dryRun : bool;
  batchSize : Js.jsnum;
  ldapBaseDn : string;
  (* the directory server *)
  bind_error : option string;
  unbind_error : option string;
  search_units : string -> reply (list SearchEntry);
  search_persons : string -> reply (list SearchEntry);
  (* the database server *)
  create_tables_error : option string;
  find_client_error : string -> option string;
  save_client_error : string -> option string;
  find_user_error : nat -> string -> option string;
  save_user_error : nat -> string -> option string;
  insert_log_error : option string;
  (* CURRENT_TIMESTAMP at the k-th save *)
  now : nat -> nat;
  (* Math.floor(Math.random() * chars.length) at the k-th draw *)
  random_index : nat -> nat;
  (* bcrypt.hash(password, rounds) at the k-th call *)
  bcrypt_hash : nat -> string -> nat -> reply string;
  (* the order in which the pending promises of a batch get their turns,
     as indices into the batch, after the calls made so far *)
  completion_order : list Event -> list nat
}.

(** The state a run reads and writes. The two entity tables are finite maps
    from their unique key (the client OU name; the pair of client key and
    username) to the other columns of the row. *)
Record World := {
  stats : MigrationStats;                 (* the [stats] object of migrate() *)
  isConnected : bool;                     (* LdapService.isConnected *)
  isInitialized : bool;                   (* dataSource.isInitialized *)
  clients : gmap string Client.columns;
  users : gmap (nat * string) User.columns;
  migration_log : list LogRow;
  next_client_id : nat;
  next_user_id : nat;
  clock_reads : nat;                      (* saves that read the database clock *)
  random_draws : nat;
  bcrypt_calls : nat;
  trace : list Event
}.

Definition set_stats (s : MigrationStats) (w : World) : World :=
  {| stats := s; isConnected := isConnected w; isInitialized := isInitialized w;
     clients := clients w; users := users w; migration_log := migration_log w;
     next_client_id := next_client_id w; next_user_id := next_user_id w;
     clock_reads := clock_reads w;
     random_draws := random_draws w; bcrypt_calls := bcrypt_calls w;
     trace := trace w |}.

Definition set_isConnected (b : bool) (w : World) : World :=
  {| stats := stats w; isConnected := b; isInitialized := isInitialized w;
     clients := clients w; users := users w; migration_log := migration_log w;
     next_client_id := next_client_id w; next_user_id := next_user_id w;
     clock_reads := clock_reads w;
     random_draws := random_draws w; bcrypt_calls := bcrypt_calls w;
     trace := trace w |}.

Definition set_isInitialized (b : bool) (w : World) : World :=
  {| stats := stats w; isConnected := isConnected w; isInitialized := b;
     clients := clients w; users := users w; migration_log := migration_log w;
     next_client_id := next_client_id w; next_user_id := next_user_id w;
     clock_reads := clock_reads w;
     random_draws := random_draws w; bcrypt_calls := bcrypt_calls w;
     trace := trace w |}.

Definition set_clients (m : gmap string Client.columns) (next : nat) (w : World) : World :=
  {| stats := stats w; isConnected := isConnected w; isInitialized := isInitialized w;
     clients := m; users := users w; migration_log := migration_log w;
     next_client_id := next; next_user_id := next_user_id w;
     clock_reads := clock_reads w;
     random_draws := random_draws w; bcrypt_calls := bcrypt_calls w;
     trace := trace w |}.

Definition set_users (m : gmap (nat * string) User.columns) (next : nat) (w : World) : World :=
  {| stats := stats w; isConnected := isConnected w; isInitialized := isInitialized w;
     clients := clients w; users := m; migration_log := migration_log w;
     next_client_id := next_client_id w; next_user_id := next;
     clock_reads := clock_reads w;
     random_draws := random_draws w; bcrypt_calls := bcrypt_calls w;
     trace := trace w |}.

Definition set_migration_log (l : list LogRow) (w : World) : World :=
  {| stats := stats w; isConnected := isConnected w; isInitialized := isInitialized w;
     clients := clients w; users := users w; migration_log := l;
     next_client_id := next_client_id w; next_user_id := next_user_id w;
     clock_reads := clock_reads w;
     random_draws := random_draws w; bcrypt_calls := bcrypt_calls w;
     trace := trace w |}.

Definition set_clock_reads (n : nat) (w : World) : World :=
  {| stats := stats w; isConnected := isConnected w; isInitialized := isInitialized w;
     clients := clients w; users := users w; migration_log := migration_log w;
     next_client_id := next_client_id w; next_user_id := next_user_id w;
     clock_reads := n;
     random_draws := random_draws w; bcrypt_calls := bcrypt_calls w;
     trace := trace w |}.

Definition set_random_draws (n : nat) (w : World) : World :=
  {| stats := stats w; isConnected := isConnected w; isInitialized := isInitialized w;
     clients := clients w; users := users w; migration_log := migration_log w;
     next_client_id := next_client_id w; next_user_id := next_user_id w;
     clock_reads := clock_reads w;
     random_draws := n; bcrypt_calls := bcrypt_calls w;
     trace := trace w |}.

Definition set_bcrypt_calls (n : nat) (w : World) : World :=
  {| stats := stats w; isConnected := isConnected w; isInitialized := isInitialized w;
     clients := clients w; users := users w; migration_log := migration_log w;
     next_client_id := next_client_id w; next_user_id := next_user_id w;
     clock_reads := clock_reads w;
     random_draws := random_draws w; bcrypt_calls := n;
     trace := trace w |}.

Definition set_trace (t : list Event) (w : World) : World :=
  {| stats := stats w; isConnected := isConnected w; isInitialized := isInitialized w;
     clients := clients w; users := users w; migration_log := migration_log w;
     next_client_id := next_client_id w; next_user_id := next_user_id w;
     clock_reads := clock_reads w;
     random_draws := random_draws w; bcrypt_calls := bcrypt_calls w;
     trace := t |}.

(** ** The monad of asynchronous methods *)

Inductive outcome (A : Type) : Type :=
| Ok (a : A)              (* the promise is fulfilled with [a] *)
| Throw (msg : string)    (* it is rejected with [new Error(msg)] *)
| OutOfFuel.              (* the loop budget ran out before it settled *)
Arguments Ok {A} a.
Arguments Throw {A} msg.
Arguments OutOfFuel {A}.

Definition M (A : Type) : Type := World -> outcome A * World.

Definition ret {A : Type} (a : A) : M A := fun w => (Ok a, w).

Definition bind {A B : Type} (m : M A) (k : A -> M B) : M B :=
  fun w =>
    match m w with
    | (Ok a, w') => k a w'
    | (Throw msg, w') => (Throw msg, w')
    | (OutOfFuel, w') => (OutOfFuel, w')
    end.

Definition throw {A : Type} (msg : string) : M A := fun w => (Throw msg, w).

Definition out_of_fuel {A : Type} : M A := fun w => (OutOfFuel, w).

(** [try { body } catch (error) { handler(error.message) }]. *)
Definition try_catch {A : Type} (body : M A) (handler : string -> M A) : M A :=
  fun w =>
    match body w with
    | (Throw msg, w') => handler msg w'
    | r => r
    end.

(** [try { body } finally { finalizer }]: the finalizer runs whether the body
    returned or threw; what it throws replaces the body's outcome. *)
Definition try_finally {A : Type} (body : M A) (finalizer : M unit) : M A :=
  fun w =>
    match body w with
    | (OutOfFuel, w') => (OutOfFuel, w')
    | (r, w') =>
        match finalizer w' with
        | (Ok _, w'') => (r, w'')
        | (Throw msg, w'') => (Throw msg, w'')
        | (OutOfFuel, w'') => (OutOfFuel, w'')
        end
    end.

Definition get {A : Type} (f : World -> A) : M A := fun w => (Ok (f w), w).

Definition modify (f : World -> World) : M unit := fun w => (Ok tt, f w).

Definition emit (e : Event) : M unit :=
  modify (fun w => set_trace (trace w ++ [e]) w).

(** An operation of the outside world that either raises or goes through. *)
Definition raise_if (error : option string) : M unit :=
  match error with
  | Some msg => throw msg
  | None => ret tt
  end.

Declare Scope js_scope.
Delimit Scope js_scope with js.
Notation "'let*' x ':=' c 'in' k" := (bind c (fun x => k))
  (at level 10, x name, c at level 100, k at level 200) : js_scope.
Notation "c '>>' k" := (bind c (fun _ => k))
  (at level 90, right associativity) : js_scope.
Local Open Scope js_scope.

(** ** Promises

    A call of an asynchronous method runs to its first [await] and hands back
    a promise. A promise is settled, or pending: then it holds what is left
    of the method, in pieces that each run without interruption, from one
    [await] to the next. When a pending promise gets its turn in the state
    [w], the state becomes [effect w] and the promise becomes [rest w].
    Between two turns of one promise the other pending promises may take
    theirs. *)
Inductive Promise (A : Type) : Type :=
| Settled (r : outcome A)
| Pending (rest : World -> Promise A) (effect : World -> World).
Arguments Settled {A} r.
Arguments Pending {A} rest effect.

(** The promise of an operation handed to the outside world: the operation
    is carried out in one piece when its turn comes. *)
Definition async {A : Type} (m : M A) : Promise A :=
  Pending (fun w => Settled (fst (m w))) (fun w => snd (m w)).

(** What is left of a method that awaits [p] and goes on with [k]. *)
Fixpoint then_ {A B : Type} (p : Promise A) (k : outcome A -> Promise B) : Promise B :=
  match p with
  | Settled r => k r
  | Pending rest effect => Pending (fun w => then_ (rest w) k) effect
  end.

(** [const a = await p; k(a)]. *)
Definition after {A B : Type} (p : Promise A) (k : A -> Promise B) : Promise B :=
  then_ p (fun r =>
    match r with
    | Ok a => k a
    | Throw msg => Settled (Throw msg)
    | OutOfFuel => Settled OutOfFuel
    end).

(** [try { await p } catch (error) { handler(error.message) }]. *)
Definition rescue {A : Type} (p : Promise A) (handler : string -> Promise A) : Promise A :=
  then_ p (fun r =>
    match r with
    | Throw msg => handler msg
    | _ => Settled r
    end).

(** [await p] while no other promise is pending: [p] takes its turns one
    after the other. *)
Fixpoint alone {A : Type} (p : Promise A) : M A :=
  fun w =>
    match p with
    | Settled r => (r, w)
    | Pending rest effect => alone (rest w) (effect w)
    end.

(** One turn of the promise at index [i]; nothing happens when it is settled
    already, or when there is no such promise. *)
Definition turn {A : Type} (i : nat) (promises : list (Promise A)) (w : World)
  : list (Promise A) * World :=
  match promises !! i with
  | Some (Pending rest effect) => (<[i := rest w]> promises, effect w)
  | _ => (promises, w)
  end.

Fixpoint turns {A : Type} (order : list nat) (promises : list (Promise A)) (w : World)
  : list (Promise A) * World :=
  match order with
  | [] => (promises, w)
  | i :: later => let (promises', w') := turn i promises w in turns later promises' w'
  end.

(** [array.map(call)]: the calls are made in array order, and each runs to
    its first [await]. *)
Fixpoint call_all {A : Type} (calls : list (M A)) : M (list A) :=
  match calls with
  | [] => ret []
  | call :: rest =>
      let* p := call in
      let* ps := call_all rest in
      ret (p :: ps)
  end.

Fixpoint settle_all {A : Type} (promises : list (Promise A)) : M (list (outcome A)) :=
  match promises with
  | [] => ret []
  | p :: rest =>
      fun w =>
        let (r, w') := alone p w in
        match settle_all rest w' with
        | (Ok rs, w'') => (Ok (r :: rs), w'')
        | other => other
        end
  end.

(** [await Promise.allSettled(promises)]. The pending promises take their
    turns in the given [order]; those that are still pending when the order
    is used up are then taken to their end, in array order. Every promise is
    settled at the end, and a rejected promise rejects nothing but itself.
    Every interleaving of the promises is the run of some [order]. *)
Definition allSettled {A : Type} (promises : list (Promise A)) (order : list nat)
  : M (list (outcome A)) :=
  fun w => let (promises', w') := turns order promises w in settle_all promises' w'.

(** ** password.utils.ts *)

Module PasswordUtils.

Definition SALT_ROUNDS : nat := 12.

(** The tags of the five patterns, in the order of the [patterns] array. *)
Definition tags : list string :=
  ["{SSHA}"; "{SHA}"; "{MD5}"; "{CRYPT}"; "{CLEARTEXT}"].

(** [for (const pattern of patterns) { const match = ...; if (match) return match[1]; }] *)
Fixpoint first_match (patterns : list string) (ldapPassword : string) : option string :=
  match patterns with
  | [] => None
  | tag :: rest =>
      match Regex.match_tagged tag ldapPassword with
      | Some group => Some group
      | None => first_match rest ldapPassword
      end
  end.

(** [extractHashFromLdap]: the captured group of the first pattern that
    matches; the input itself when none does. The declared result type is
    [string | null]. *)
Definition extractHashFromLdap (ldapPassword : string) : option string :=
  match first_match tags ldapPassword with
  | Some group => Some group
  | None => Some ldapPassword
  end.

Definition chars : string :=
  "ABCDEFGHIJKLMNOPQRSTUVWXYZabcdefghijklmnopqrstuvwxyz0123456789!@#$%^&*".

(** One turn of the loop of [generateRandomPassword]:
    [password += chars.charAt(Math.floor(Math.random() * chars.length))]. *)
Definition random_char (env : Env) : M string :=
  fun w =>
    let k := random_index env (random_draws w) mod String.length chars in
    (Ok (Js.charAt chars k), set_random_draws (S (random_draws w)) w).

Fixpoint random_chars (env : Env) (n : nat) (password : string) : M string :=
  match n with
  | O => ret password
  | S n' =>
      let* c := random_char env in
      random_chars env n' (password +:+ c)
  end.

Definition generateRandomPassword (env : Env) : M string :=
  random_chars env 12 "".

(** [bcrypt.hash(password, rounds)]. *)
Definition bcrypt (env : Env) (password : string) (rounds : nat) : M string :=
  fun w =>
    let w' := set_bcrypt_calls (S (bcrypt_calls w)) w in
    match bcrypt_hash env (bcrypt_calls w) password rounds with
    | Done h => (Ok h, w')
    | Fails msg => (Throw msg, w')
    end.

Definition convertLdapPassword (env : Env) (ldapPassword : string) : M (option string) :=
  try_catch
    (if negb (Js.nonempty ldapPassword) then ret None
     else
       let hashData := extractHashFromLdap ldapPassword in
       if negb (Js.truthy hashData) then ret None
       else
         let* randomPassword := generateRandomPassword env in
         let* bcryptHash := bcrypt env randomPassword SALT_ROUNDS in
         ret (Some bcryptHash))
    (fun _ => ret None).

(** [isLdapHash]: does the string start with one of the five tags? *)
Definition isLdapHash (password : string) : bool :=
  if negb (Js.nonempty password) then false
  else existsb (fun tag => Regex.test_prefix tag password) tags.

End PasswordUtils.

(** ** ldap.service.ts *)

Module LdapService.

Definition connect (env : Env) : M unit :=
  try_catch
    (emit EvBind >>
     raise_if (bind_error env) >>
     modify (set_isConnected true))
    (fun msg => throw ("LDAP connection failed: " +:+ msg)).

(** [disconnect]: an error of [unbind] is logged and swallowed, and leaves
    [isConnected] as it was. *)
Definition disconnect (env : Env) : M unit :=
  let* connected := get isConnected in
  if connected then
    try_catch
      (emit EvUnbind >>
       raise_if (unbind_error env) >>
       modify (set_isConnected false))
      (fun _ => ret tt)
  else ret tt.

Definition searchClients (env : Env) : M (list ClientOU) :=
  let* connected := get isConnected in
  if negb connected then throw "LDAP not connected"
  else
    try_catch
      (emit EvSearchClients >>
       match search_units env (ldapBaseDn env) with
       | Fails msg => throw msg
       | Done searchEntries =>
           ret (filter (fun client => Js.nonempty (ou client) = true
                                      /\ ou client <> "clients")
                  (map (fun entry =>
                          {| ou := Js.first_or_empty (attributes entry !! "ou");
                             ou_dn := entry_dn entry |})
                     searchEntries))
       end)
      (fun msg => throw ("LDAP client search failed: " +:+ msg)).

Definition searchUsers (env : Env) (clientOU : string) : M (list UserData) :=
  let* connected := get isConnected in
  if negb connected then throw "LDAP not connected"
  else
    try_catch
      (let searchDN := "ou=" +:+ clientOU +:+ "," +:+ ldapBaseDn env in
       emit (EvSearchUsers clientOU) >>
       match search_persons env searchDN with
       | Fails msg => throw msg
       | Done searchEntries =>
           ret (filter (fun user => Js.nonempty (uid user) = true)
                  (map (fun entry =>
                          let attrs := attributes entry in
                          {| uid := Js.first_or_empty (attrs !! "uid");
                             givenName := Js.first_or_empty (attrs !! "givenName");
                             sn := Js.first_or_empty (attrs !! "sn");
                             mail := Js.first_or_empty (attrs !! "mail");
                             userPassword := Js.first_or_empty (attrs !! "userPassword");
                             dn := entry_dn entry |})
                     searchEntries))
       end)
      (fun msg => throw ("LDAP user search failed for " +:+ clientOU +:+ ": " +:+ msg)).

Definition onModuleDestroy (env : Env) : M unit := disconnect env.

End LdapService.

(** ** database.service.ts *)

Module DatabaseService.

(** [initializeTables]: the three [CREATE TABLE IF NOT EXISTS] leave existing
    tables and rows as they are. *)
Definition initializeTables (env : Env) : M unit :=
  try_catch
    (emit EvInitializeTables >>
     raise_if (create_tables_error env))
    (fun msg => throw ("Table initialization failed: " +:+ msg)).

(** [clientRepository.findOne({ where: { client_id: clientId } })]. *)
Definition findOneClient (env : Env) (clientId : string) : M (option Client.t) :=
  raise_if (find_client_error env clientId) >>
  get (fun w => Client.read clientId <$> clients w !! clientId).

(** [clientRepository.save(client)] on an entity read from the table: its
    row is replaced, with the time of the save as [updated_at]. (The clock of
    the environment may answer the time it answered before.) *)
Definition saveClient (env : Env) (client : Client.t) : M Client.t :=
  raise_if (save_client_error env (Client.client_id client)) >>
  let* stamp := get (fun w => now env (clock_reads w)) in
  let saved :=
    Client.mk (Client.id client) (Client.client_id client) (Client.name client)
      (Client.created_at client) stamp in
  modify (fun w =>
    set_clock_reads (S (clock_reads w))
      (set_clients (<[Client.client_id client := Client.write saved]> (clients w))
         (next_client_id w) w)) >>
  ret saved.

(** [clientRepository.save(clientRepository.create({ client_id, name }))]:
    a new row with a generated key; the unique constraint on [client_id]
    refuses a second row of the same name. *)
Definition saveNewClient (env : Env) (clientId : string) (name : option string)
  : M Client.t :=
  raise_if (save_client_error env clientId) >>
  let* existing := get (fun w => clients w !! clientId) in
  match existing with
  | Some _ => throw "duplicate key value violates unique constraint"
  | None =>
      let* key := get next_client_id in
      let* stamp := get (fun w => now env (clock_reads w)) in
      let client := Client.mk key clientId name stamp stamp in
      modify (fun w =>
        set_clock_reads (S (clock_reads w))
          (set_clients (<[clientId := Client.write client]> (clients w)) (S key) w)) >>
      ret client
  end.

Definition upsertClient (env : Env) (clientId : string) (name : option string)
  : M Client.t :=
  emit (EvUpsertClient clientId) >>
  try_catch
    (let* found := findOneClient env clientId in
     match found with
     | Some client =>
         saveClient env
           (Client.mk (Client.id client) (Client.client_id client)
              (Js.or name (Client.name client))
              (Client.created_at client) (Client.updated_at client))
     | None => saveNewClient env clientId name
     end)
    (fun msg => throw ("Client upsert failed for " +:+ clientId +:+ ": " +:+ msg)).

(** [userRepository.findOne({ where: { client_id, username } })]. *)
Definition findOneUser (env : Env) (clientId : nat) (username : string)
  : M (option User.t) :=
  raise_if (find_user_error env clientId username) >>
  get (fun w => User.read (clientId, username) <$> users w !! (clientId, username)).

(** [userRepository.save(user)] on an entity read from the table: its row is
    replaced, with the time of the save as [updated_at]. *)
Definition saveUser (env : Env) (user : User.t) : M User.t :=
  raise_if (save_user_error env (User.client_id user) (User.username user)) >>
  let* stamp := get (fun w => now env (clock_reads w)) in
  let saved :=
    User.mk (User.id user) (User.client_id user) (User.username user)
      (User.first_name user) (User.last_name user) (User.email user)
      (User.password_hash user) (User.ldap_dn user) (User.created_at user) stamp in
  modify (fun w =>
    set_clock_reads (S (clock_reads w))
      (set_users
         (<[(User.client_id user, User.username user) := User.write saved]> (users w))
         (next_user_id w) w)) >>
  ret saved.

(** [userRepository.save(userRepository.create({ ... }))]: a new row with a
    generated key; the unique constraint on [(client_id, username)] refuses
    a second row of the same pair. *)
Definition saveNewUser (env : Env) (clientId : nat) (userData : Incoming.t)
  : M User.t :=
  raise_if (save_user_error env clientId (Incoming.uid userData)) >>
  let* existing := get (fun w => users w !! (clientId, Incoming.uid userData)) in
  match existing with
  | Some _ => throw "duplicate key value violates unique constraint"
  | None =>
      let* key := get next_user_id in
      let* stamp := get (fun w => now env (clock_reads w)) in
      let user :=
        User.mk key clientId (Incoming.uid userData)
          (Incoming.givenName userData) (Incoming.sn userData)
          (Incoming.mail userData) (Incoming.password_hash userData)
          (Incoming.dn userData) stamp stamp in
      modify (fun w =>
        set_clock_reads (S (clock_reads w))
          (set_users
             (<[(clientId, Incoming.uid userData) := User.write user]> (users w))
             (S key) w)) >>
      ret user
  end.

(** The two branches of [upsertUser] after its lookup: the row found is
    updated and saved, or a new row is created and saved. *)
Definition updateOrCreateUser (env : Env) (userData : Incoming.t) (clientId : nat)
    (found : option User.t) : M User.t :=
  match found with
  | Some user =>
      saveUser env
        (User.mk (User.id user) (User.client_id user) (User.username user)
           (Js.or (Incoming.givenName userData) (User.first_name user))
           (Js.or (Incoming.sn userData) (User.last_name user))
           (Js.or (Incoming.mail userData) (User.email user))
           (Js.or (Incoming.password_hash userData) (User.password_hash user))
           (Incoming.dn userData) (User.created_at user) (User.updated_at user))
  | None => saveNewUser env clientId userData
  end.

(** [await upsertUser(userData, clientId)] while no other promise is
    pending. *)
Definition upsertUser (env : Env) (userData : Incoming.t) (clientId : nat) : M User.t :=
  emit (EvUpsertUser clientId (Incoming.uid userData)) >>
  try_catch
    (let* found := findOneUser env clientId (Incoming.uid userData) in
     updateOrCreateUser env userData clientId found)
    (fun msg =>
       throw ("User upsert failed for " +:+ Incoming.uid userData +:+ ": " +:+ msg)).

(** The promise of a call of [upsertUser]: the lookup and the save reach the
    database one after the other, each in its own turn, so the statements of
    other pending promises may be carried out between them. *)
Definition upsertUser_async (env : Env) (userData : Incoming.t) (clientId : nat)
  : Promise User.t :=
  rescue
    (after
       (async (emit (EvUpsertUser clientId (Incoming.uid userData)) >>
               findOneUser env clientId (Incoming.uid userData)))
       (fun found => async (updateOrCreateUser env userData clientId found)))
    (fun msg =>
       Settled (Throw ("User upsert failed for " +:+ Incoming.uid userData +:+ ": " +:+ msg))).

(** [getMigrationStats]: the two row counts, or zeros. *)
Definition getMigrationStats : M (nat * nat) :=
  get (fun w => (size (clients w), size (users w))).

(** [logMigrationRun]: one [INSERT INTO migration_log]; an error of the
    insert is logged and swallowed. *)
Definition logMigrationRun (env : Env) (stats : LoggedStats) : M unit :=
  try_catch
    (emit EvLogMigrationRun >>
     raise_if (insert_log_error env) >>
     modify (fun w =>
       set_migration_log
         (migration_log w ++
            [ {| total_clients := Js.or_zero (ls_totalClients stats);
                 total_users := Js.or_zero (ls_totalUsers stats);
                 successful_clients := Js.or_zero (ls_successfulClients stats);
                 successful_users := Js.or_zero (ls_successfulUsers stats);
                 failed_clients := Js.or_zero (ls_failedClients stats);
                 failed_users := Js.or_zero (ls_failedUsers stats);
                 error_log := Js.or (ls_errorLog stats) None;
                 dry_run := Js.or_false (ls_dryRun stats) |} ]) w))
    (fun _ => ret tt).

(** [onModuleDestroy]: the one place where the data source is destroyed. *)
Definition onModuleDestroy : M unit :=
  let* initialized := get isInitialized in
  if initialized then
    emit EvDestroy >> modify (set_isInitialized false)
  else ret tt.

End DatabaseService.

(** ** migration.service.ts *)

Module MigrationService.

Definition initial_stats : MigrationStats :=
  {| totalClients := 0; totalUsers := 0;
     successfulClients := 0; successfulUsers := 0;
     failedClients := 0; failedUsers := 0; errors := [] |}.

Definition update_stats (f : MigrationStats -> MigrationStats) : M unit :=
  modify (fun w => set_stats (f (stats w)) w).

(** [stats.totalClients = n]. *)
Definition set_totalClients (n : nat) (s : MigrationStats) : MigrationStats :=
  {| totalClients := n; totalUsers := totalUsers s;
     successfulClients := successfulClients s; successfulUsers := successfulUsers s;
     failedClients := failedClients s; failedUsers := failedUsers s;
     errors := errors s |}.

(** [stats.totalUsers += n]. *)
Definition add_totalUsers (n : nat) (s : MigrationStats) : MigrationStats :=
  {| totalClients := totalClients s; totalUsers := totalUsers s + n;
     successfulClients := successfulClients s; successfulUsers := successfulUsers s;
     failedClients := failedClients s; failedUsers := failedUsers s;
     errors := errors s |}.

(** [stats.successfulClients++]. *)
Definition incr_successfulClients (s : MigrationStats) : MigrationStats :=
  {| totalClients := totalClients s; totalUsers := totalUsers s;
     successfulClients := S (successfulClients s); successfulUsers := successfulUsers s;
     failedClients := failedClients s; failedUsers := failedUsers s;
     errors := errors s |}.

(** [stats.successfulUsers++]. *)
Definition incr_successfulUsers (s : MigrationStats) : MigrationStats :=
  {| totalClients := totalClients s; totalUsers := totalUsers s;
     successfulClients := successfulClients s; successfulUsers := S (successfulUsers s);
     failedClients := failedClients s; failedUsers := failedUsers s;
     errors := errors s |}.

(** [stats.failedClients++; stats.errors.push(message)]. *)
Definition fail_client (message : string) (s : MigrationStats) : MigrationStats :=
  {| totalClients := totalClients s; totalUsers := totalUsers s;
     successfulClients := successfulClients s; successfulUsers := successfulUsers s;
     failedClients := S (failedClients s); failedUsers := failedUsers s;
     errors := errors s ++ [message] |}.

(** [stats.failedUsers++; stats.errors.push(message)]. *)
Definition fail_user (message : string) (s : MigrationStats) : MigrationStats :=
  {| totalClients := totalClients s; totalUsers := totalUsers s;
     successfulClients := successfulClients s; successfulUsers := successfulUsers s;
     failedClients := failedClients s; failedUsers := S (failedUsers s);
     errors := errors s ++ [message] |}.

(** [{ ...userData, password_hash: passwordHash }]. *)
Definition dbUserData (userData : UserData) (passwordHash : option string) : Incoming.t :=
  Incoming.mk (uid userData) (Some (givenName userData)) (Some (sn userData))
    (Some (mail userData)) passwordHash (dn userData).

(** The [catch] block of [processUser]. *)
Definition failed (userData : UserData) (msg : string) : Promise unit :=
  async (update_stats (fail_user ("User " +:+ uid userData +:+ ": " +:+ msg))).

(** What [processUser] does once the credential is converted: it awaits the
    upsert and counts a success, or ends in the [catch] block. *)
Definition counted (userData : UserData) (upsert : Promise User.t) : Promise unit :=
  rescue
    (after upsert (fun _ => async (update_stats incr_successfulUsers)))
    (failed userData).

(** A call of [processUser]. The call itself runs the conversion of the
    credential, with its random draws and its call of [bcrypt.hash]; the
    promise it hands back holds the upsert and the tally that follows it. *)
Definition processUser (env : Env) (userData : UserData) (clientId : nat)
  : M (Promise unit) :=
  try_catch
    (let* passwordHash :=
       (if Js.nonempty (userPassword userData)
        then PasswordUtils.convertLdapPassword env (userPassword userData)
        else ret None) in
     ret (counted userData
            (DatabaseService.upsertUser_async env
               (dbUserData userData passwordHash) clientId)))
    (fun msg => ret (failed userData msg)).

(** The batch loop of [processClient]:
    [for (let i = 0; i < users.length; i += batchSize)]. One unit of fuel
    pays for one turn. *)
Fixpoint batches (env : Env) (fuel : nat) (users : list UserData) (clientId : nat)
    (i : Js.jsnum) : M unit :=
  if Js.lt i (Some (Z.of_nat (length users))) then
    match fuel with
    | O => out_of_fuel
    | S fuel' =>
        let batch := Js.slice users i (Js.add i (batchSize env)) in
        let* promises :=
          call_all (map (fun user => processUser env user clientId) batch) in
        let* order := get (fun w => completion_order env (trace w)) in
        allSettled promises order >>
        batches env fuel' users clientId (Js.add i (batchSize env))
    end
  else ret tt.

Definition processClient (env : Env) (fuel : nat) (client : ClientOU) : M unit :=
  let* dbClient := DatabaseService.upsertClient env (ou client) None in
  let* users := LdapService.searchUsers env (ou client) in
  update_stats (add_totalUsers (length users)) >>
  batches env fuel users (Client.id dbClient) (Some 0%Z).

(** The client loop of [migrate]:
    [for (let i = 0; i < clients.length; i++)]. *)
Fixpoint each_client (env : Env) (fuel : nat) (clients : list ClientOU) : M unit :=
  match clients with
  | [] => ret tt
  | client :: rest =>
      try_catch
        (processClient env fuel client >>
         update_stats incr_successfulClients)
        (fun msg =>
           update_stats (fail_client ("Client " +:+ ou client +:+ ": " +:+ msg))) >>
      each_client env fuel rest
  end.

Definition migrate (env : Env) (fuel : nat) : M MigrationResult :=
  modify (set_stats initial_stats) >>
  try_finally
    (try_catch
       (LdapService.connect env >>
        DatabaseService.initializeTables env >>
        let* clients := LdapService.searchClients env in
        update_stats (set_totalClients (length clients)) >>
        each_client env fuel clients >>
        let* stats := get stats in
        let result :=
          {| success := andb (failedClients stats =? 0) (failedUsers stats =? 0);
             result_stats := stats;
             result_dryRun := dryRun env |} in
        DatabaseService.logMigrationRun env (stats_as_any stats) >>
        ret result)
       (fun msg => throw msg))
    (LdapService.disconnect env).

End MigrationService.

(** ** Vocabulary of the properties *)

(** The directory as a fault-free run reads it. *)
Definition clients_of (env : Env) : list ClientOU :=
  match search_units env (ldapBaseDn env) with
  | Done searchEntries =>
      filter (fun client => Js.nonempty (ou client) = true /\ ou client <> "clients")
        (map (fun entry =>
                {| ou := Js.first_or_empty (attributes entry !! "ou");
                   ou_dn := entry_dn entry |})
           searchEntries)
  | Fails _ => []
  end.

Definition users_of (env : Env) (clientOU : string) : list UserData :=
  match search_persons env ("ou=" +:+ clientOU +:+ "," +:+ ldapBaseDn env) with
  | Done searchEntries =>
      filter (fun user => Js.nonempty (uid user) = true)
        (map (fun entry =>
                let attrs := attributes entry in
                {| uid := Js.first_or_empty (attrs !! "uid");
                   givenName := Js.first_or_empty (attrs !! "givenName");
                   sn := Js.first_or_empty (attrs !! "sn");
                   mail := Js.first_or_empty (attrs !! "mail");
                   userPassword := Js.first_or_empty (attrs !! "userPassword");
                   dn := entry_dn entry |})
           searchEntries)
  | Fails _ => []
  end.

(** The upsert of client [clientId] raises: its lookup or its save does. *)
Definition client_upsert_fails (env : Env) (clientId : string) : Prop :=
  find_client_error env clientId <> None \/ save_client_error env clientId <> None.

(** The upsert of user [username] of client [clientId] raises. *)
Definition user_upsert_fails (env : Env) (clientId : nat) (username : string) : bool :=
  negb (andb (bool_decide (find_user_error env clientId username = None))
             (bool_decide (save_user_error env clientId username = None))).

(** The directory answers every search and the database every statement. *)
Record healthy (env : Env) : Prop := {
  healthy_bind : bind_error env = None;
  healthy_tables : create_tables_error env = None;
  healthy_units : exists entries, search_units env (ldapBaseDn env) = Done entries;
  healthy_persons : forall d, exists entries, search_persons env d = Done entries;
  healthy_find_client : forall c, find_client_error env c = None;
  healthy_save_client : forall c, save_client_error env c = None;
  healthy_find_user : forall c u, find_user_error env c u = None;
  healthy_save_user : forall c u, save_user_error env c u = None
}.

(** The batch size is a positive integer and the fuel pays for one turn per
    user of the largest client. *)
Definition batching_ok (env : Env) (fuel : nat) : Prop :=
  (exists b, batchSize env = Some b /\ (0 < b)%Z) /\
  forall d entries, search_persons env d = Done entries -> length entries <= fuel.

(** Client names are pairwise different, and so are the usernames of one
    client (section 3 of the specification: the group name and the pair of
    group and username are unique keys). *)
Definition distinct_keys (env : Env) : Prop :=
  NoDup (ou <$> clients_of env) /\
  forall c, NoDup (uid <$> users_of env c).

(** The generated keys of the client rows are pairwise different and older
    than the next one (the primary key of [clients]). *)
Record well_formed (w : World) : Prop := {
  wf_client_id_fresh : forall k c,
    clients w !! k = Some c -> Client.col_id c < next_client_id w;
  wf_client_id_inj : forall k1 k2 c1 c2,
    clients w !! k1 = Some c1 -> clients w !! k2 = Some c2 ->
    Client.col_id c1 = Client.col_id c2 -> k1 = k2
}.

(** A row without the columns a later upsert may rewrite although the
    directory has not changed: the target credential and [updated_at] of a
    user, [updated_at] of a client. *)
Definition lasting_user (u : User.columns) : User.columns :=
  User.cols (User.col_id u) (User.col_first_name u) (User.col_last_name u)
    (User.col_email u) None (User.col_ldap_dn u) (User.col_created_at u) 0.

Definition lasting_client (c : Client.columns) : Client.columns :=
  Client.cols (Client.col_id c) (Client.col_name c) (Client.col_created_at c) 0.

(** The merge policy on one attribute: a non-empty incoming value replaces
    the stored one, an empty or missing one leaves it. *)
Definition overwritten_or_kept (incoming stored updated : option string) : Prop :=
  (forall s, incoming = Some s -> s <> "" -> updated = Some s) /\
  (incoming = None \/ incoming = Some "" -> updated = stored).

(** The row an upsert of [userData] writes at the time [stamp]: the stored
    row merged with the incoming attributes, or a new row with the generated
    key [next]. *)
Definition merged (userData : Incoming.t) (stored : User.columns) (stamp : nat)
  : User.columns :=
  User.cols (User.col_id stored)
    (Js.or (Incoming.givenName userData) (User.col_first_name stored))
    (Js.or (Incoming.sn userData) (User.col_last_name stored))
    (Js.or (Incoming.mail userData) (User.col_email stored))
    (Js.or (Incoming.password_hash userData) (User.col_password_hash stored))
    (Incoming.dn userData) (User.col_created_at stored) stamp.

Definition created (userData : Incoming.t) (next stamp : nat) : User.columns :=
  User.cols next (Incoming.givenName userData) (Incoming.sn userData)
    (Incoming.mail userData) (Incoming.password_hash userData) (Incoming.dn userData)
    stamp stamp.

Definition upserted_row (userData : Incoming.t) (next stamp : nat)
    (stored : option User.columns) : User.columns :=
  match stored with
  | Some row => merged userData row stamp
  | None => created userData next stamp
  end.

(** [row] is what an upsert of [userData] makes of [stored], at some time and
    with some generated key. *)
Definition upsert_of (userData : Incoming.t) (stored : option User.columns)
    (row : User.columns) : Prop :=
  exists next stamp, row = upserted_row userData next stamp stored.

(** The rows of a client: a stored one updated at [stamp], or a new one. *)
Definition touched (stored : Client.columns) (stamp : nat) : Client.columns :=
  Client.cols (Client.col_id stored) (Client.col_name stored)
    (Client.col_created_at stored) stamp.

Definition client_row (next stamp : nat) (stored : option Client.columns)
  : Client.columns :=
  match stored with
  | Some row => touched row stamp
  | None => Client.cols next None stamp stamp
  end.

(** The stored row already holds what the directory says of [userData]: an
    upsert of [userData] changes at most its target credential and its
    [updated_at]. *)
Definition absorbs (userData : UserData) (row : User.columns) : Prop :=
  Js.or (Some (givenName userData)) (User.col_first_name row) = User.col_first_name row /\
  Js.or (Some (sn userData)) (User.col_last_name row) = User.col_last_name row /\
  Js.or (Some (mail userData)) (User.col_email row) = User.col_email row /\
  User.col_ldap_dn row = dn userData.

(** The store holds the user, and the client with all its users, as the
    directory has them. *)
Definition settled_user (clientId : nat) (w : World) (userData : UserData) : Prop :=
  exists row, users w !! (clientId, uid userData) = Some row /\ absorbs userData row.

Definition settled_client (env : Env) (w : World) (client : ClientOU) : Prop :=
  exists row,
    clients w !! ou client = Some row /\
    forall u, u ∈ users_of env (ou client) -> settled_user (Client.col_id row) w u.

(** *** The promises of a batch, turn by turn *)

(** Where the promise of a [processUser] stands: before its lookup; before
    its save, with the row the lookup found; before its tally, with the
    message of the error it caught, if it caught one; settled. *)
Inductive phase : Type :=
| Finding
| Saving (found : option User.columns)
| Tallying (error : option string)
| Finished (error : option string).

(** A user of the batch, the credential its conversion gave, and where its
    promise stands. *)
Record task := {
  task_user : UserData;
  task_hash : option string;
  task_phase : phase
}.

Definition at_phase (t : task) (ph : phase) : task :=
  {| task_user := task_user t; task_hash := task_hash t; task_phase := ph |}.

Definition record (t : task) : Incoming.t :=
  MigrationService.dbUserData (task_user t) (task_hash t).

(** The message of the error [upsertUser] throws, and the message
    [processUser] records for it. *)
Definition refusal (u : UserData) (msg : string) : string :=
  "User upsert failed for " +:+ uid u +:+ ": " +:+ msg.

Definition complaint (u : UserData) (msg : string) : string :=
  "User " +:+ uid u +:+ ": " +:+ msg.

Definition promise_of (env : Env) (clientId : nat) (t : task) : Promise unit :=
  let u := task_user t in
  match task_phase t with
  | Finding =>
      MigrationService.counted u (DatabaseService.upsertUser_async env (record t) clientId)
  | Saving found =>
      MigrationService.counted u
        (rescue
           (async (DatabaseService.updateOrCreateUser env (record t) clientId
                     (User.read (clientId, uid u) <$> found)))
           (fun msg => Settled (Throw (refusal u msg))))
  | Tallying None =>
      rescue (async (MigrationService.update_stats MigrationService.incr_successfulUsers))
        (MigrationService.failed u)
  | Tallying (Some msg) => MigrationService.failed u msg
  | Finished _ => Settled (Ok tt)
  end.

(** One turn of a task. *)
Definition step (env : Env) (clientId : nat) (t : task) (w : World) : task * World :=
  let u := task_user t in
  let key := (clientId, uid u) in
  match task_phase t with
  | Finding =>
      let w' := set_trace (trace w ++ [EvUpsertUser clientId (uid u)]) w in
      match find_user_error env clientId (uid u) with
      | Some msg => (at_phase t (Tallying (Some (refusal u msg))), w')
      | None => (at_phase t (Saving (users w !! key)), w')
      end
  | Saving found =>
      let stamp := now env (clock_reads w) in
      match save_user_error env clientId (uid u) with
      | Some msg => (at_phase t (Tallying (Some (refusal u msg))), w)
      | None =>
          match found with
          | Some stored =>
              (at_phase t (Tallying None),
               set_clock_reads (S (clock_reads w))
                 (set_users (<[key := merged (record t) stored stamp]> (users w))
                    (next_user_id w) w))
          | None =>
              match users w !! key with
              | Some _ =>
                  (at_phase t
                     (Tallying
                        (Some (refusal u "duplicate key value violates unique constraint"))),
                   w)
              | None =>
                  (at_phase t (Tallying None),
                   set_clock_reads (S (clock_reads w))
                     (set_users
                        (<[key := created (record t) (next_user_id w) stamp]> (users w))
                        (S (next_user_id w)) w))
              end
          end
      end
  | Tallying error =>
      (at_phase t (Finished error),
       set_stats
         (match error with
          | None => MigrationService.incr_successfulUsers (stats w)
          | Some msg => MigrationService.fail_user (complaint u msg) (stats w)
          end) w)
  | Finished _ => (t, w)
  end.

Definition step_at (env : Env) (clientId : nat) (i : nat) (ts : list task) (w : World)
  : list task * World :=
  match ts !! i with
  | Some t => let (t', w') := step env clientId t w in (<[i := t']> ts, w')
  | None => (ts, w)
  end.

Fixpoint steps (env : Env) (clientId : nat) (order : list nat) (ts : list task)
    (w : World) : list task * World :=
  match order with
  | [] => (ts, w)
  | i :: later =>
      let (ts', w') := step_at env clientId i ts w in steps env clientId later ts' w'
  end.

(** The turns that take every promise to its end, in array order. *)
Definition to_the_end (n : nat) : list nat :=
  flat_map (fun i => [i; i; i]) (seq 0 n).

(** The error a task ended with, if it ended with one. *)
Definition verdict (t : task) : option string :=
  match task_phase t with
  | Finished error => error
  | _ => None
  end.

Definition finished (t : task) : Prop :=
  match task_phase t with
  | Finished _ => True
  | _ => False
  end.

(** The credential [processUser] passes on for a user: none without a source
    credential; the answer of a call of [bcrypt.hash], or none when that
    call raises. *)
Definition converted (env : Env) (u : UserData) (h : option string) : Prop :=
  if Js.nonempty (userPassword u) then
    exists k password,
      h = match bcrypt_hash env k password PasswordUtils.SALT_ROUNDS with
          | Done x => Some x
          | Fails _ => None
          end
  else h = None.

(** No other user of the batch has the username of the user at index [i]. *)
Definition lonely (batch : list UserData) (i : nat) : Prop :=
  forall j u v, batch !! i = Some u -> batch !! j = Some v -> uid v = uid u -> j = i.

(** The turns a task has left, at most. *)
Definition turns_left (t : task) : nat :=
  match task_phase t with
  | Finding => 3
  | Saving _ => 2
  | Tallying _ => 1
  | Finished _ => 0
  end.

(** The messages among the verdicts. *)
Definition caught (verdicts : list (option string)) : list string :=
  omap (fun v : option string => v) verdicts.

(** What a batch has done when [Promise.allSettled] returns. [verdicts]
    holds, for each user of the batch, the message of the error its
    processing caught, if it caught one. *)
Definition batch_post (env : Env) (c : nat) (batch : list UserData) (w w' : World)
    (verdicts : list (option string)) : Prop :=
  length verdicts = length batch /\
  totalClients (stats w') = totalClients (stats w) /\
  totalUsers (stats w') = totalUsers (stats w) /\
  successfulClients (stats w') = successfulClients (stats w) /\
  failedClients (stats w') = failedClients (stats w) /\
  failedUsers (stats w') = failedUsers (stats w) + length (caught verdicts) /\
  successfulUsers (stats w') + length (caught verdicts) =
    successfulUsers (stats w) + length batch /\
  (exists messages,
     errors (stats w') = (errors (stats w) ++ messages)%list /\
     messages ≡ₚ caught (zip_with (fun u v => complaint u <$> v) batch verdicts)) /\
  (forall k, is_Some (users w !! k) -> is_Some (users w' !! k)) /\
  (forall k, (forall u, u ∈ batch -> k <> (c, uid u)) -> users w' !! k = users w !! k) /\
  (forall i u v, batch !! i = Some u -> verdicts !! i = Some v ->
     match v with
     | Some msg =>
         (exists e, msg = refusal u e) /\
         (lonely batch i ->
          user_upsert_fails env c (uid u) = true /\
          users w' !! (c, uid u) = users w !! (c, uid u))
     | None =>
         user_upsert_fails env c (uid u) = false /\
         is_Some (users w' !! (c, uid u)) /\
         (lonely batch i ->
          exists h row,
            converted env u h /\
            users w' !! (c, uid u) = Some row /\
            upsert_of (MigrationService.dbUserData u h) (users w !! (c, uid u)) row)
     end).

(** What the batches of [n] users add to the tallies: every user is tallied
    once, every failure has its message, and no row is deleted. *)
Definition tallied (n : nat) (w w' : World) : Prop :=
  totalClients (stats w') = totalClients (stats w) /\
  totalUsers (stats w') = totalUsers (stats w) /\
  successfulClients (stats w') = successfulClients (stats w) /\
  failedClients (stats w') = failedClients (stats w) /\
  successfulUsers (stats w') + failedUsers (stats w') =
    successfulUsers (stats w) + failedUsers (stats w) + n /\
  length (errors (stats w')) + failedUsers (stats w) =
    length (errors (stats w)) + failedUsers (stats w') /\
  (forall k, is_Some (users w !! k) -> is_Some (users w' !! k)).

(** What the batches of users of pairwise different names do to the rows:
    the users the database refuses are the failures, and their rows are as
    before; every other user has the row its upsert makes of the row it had;
    the rows of no other key are touched. *)
Definition upserted (env : Env) (c : nat) (us : list UserData) (w w' : World) : Prop :=
  failedUsers (stats w') =
    failedUsers (stats w) +
    length (filter (fun u => user_upsert_fails env c (uid u) = true) us) /\
  (forall k, (forall u, u ∈ us -> k <> (c, uid u)) -> users w' !! k = users w !! k) /\
  (forall u, u ∈ us ->
     if user_upsert_fails env c (uid u)
     then users w' !! (c, uid u) = users w !! (c, uid u)
     else exists h row,
            converted env u h /\
            users w' !! (c, uid u) = Some row /\
            upsert_of (MigrationService.dbUserData u h) (users w !! (c, uid u)) row).

(** Two states agree on a component. *)
Definition same {A : Type} (f : World -> A) (w w' : World) : Prop := f w' = f w.

(** What the methods below the client loop leave alone. *)
Definition user_frame (w w' : World) : Prop :=
  isConnected w' = isConnected w /\ isInitialized w' = isInitialized w /\
  clients w' = clients w /\ next_client_id w' = next_client_id w /\
  migration_log w' = migration_log w.

(** What the client loop leaves alone. *)
Definition run_frame (w w' : World) : Prop :=
  isConnected w' = isConnected w /\ isInitialized w' = isInitialized w /\
  migration_log w' = migration_log w.

(** What the password conversion leaves alone: everything but the two
    counters of the random sources. *)
Definition quiet (w w' : World) : Prop :=
  stats w' = stats w /\ isConnected w' = isConnected w /\
  isInitialized w' = isInitialized w /\ clients w' = clients w /\
  users w' = users w /\ migration_log w' = migration_log w /\
  next_client_id w' = next_client_id w /\ next_user_id w' = next_user_id w /\
  trace w' = trace w /\ clock_reads w' = clock_reads w.

(** The error of the connection step of [migrate], if it raises one: the bind
    to the directory, then the creation of the tables. *)
Definition connection_error (env : Env) : option string :=
  match bind_error env with
  | Some msg => Some ("LDAP connection failed: " +:+ msg)
  | None =>
      match create_tables_error env with
      | Some msg => Some ("Table initialization failed: " +:+ msg)
      | None => None
      end
  end.

(** The state in which the client loop starts, once the connection step and
    the search of the client units went through. *)
Definition started (env : Env) (w : World) : World :=
  {| stats :=
       MigrationService.set_totalClients (length (clients_of env))
         MigrationService.initial_stats;
     isConnected := true;
     isInitialized := isInitialized w;
     clients := clients w;
     users := users w;
     migration_log := migration_log w;
     next_client_id := next_client_id w;
     next_user_id := next_user_id w;
     clock_reads := clock_reads w;
     random_draws := random_draws w;
     bcrypt_calls := bcrypt_calls w;
     trace := ((trace w ++ [EvBind]) ++ [EvInitializeTables]) ++ [EvSearchClients] |}.

(** The result [migrate] builds from the statistics of the run. *)
Definition result_of (env : Env) (s : MigrationStats) : MigrationResult :=
  {| success := andb (failedClients s =? 0) (failedUsers s =? 0);
     result_stats := s;
     result_dryRun := dryRun env |}.

(** The row of [migration_log] that records the statistics [s]. *)
Definition summary_row (s : MigrationStats) : LogRow :=
  {| total_clients := totalClients s;
     total_users := totalUsers s;
     successful_clients := successfulClients s;
     successful_users := successfulUsers s;
     failed_clients := failedClients s;
     failed_users := failedUsers s;
     error_log := None;
     dry_run := false |}.

(** The environment with another value of the dry-run flag. *)
Definition with_dryRun (b : bool) (env : Env) : Env :=
  {| dryRun := b;
     batchSize := batchSize env;
     ldapBaseDn := ldapBaseDn env;
     bind_error := bind_error env;
     unbind_error := unbind_error env;
     search_units := search_units env;
     search_persons := search_persons env;
     create_tables_error := create_tables_error env;
     find_client_error := find_client_error env;
     save_client_error := save_client_error env;
     find_user_error := find_user_error env;
     save_user_error := save_user_error env;
     insert_log_error := insert_log_error env;
     now := now env;
     random_index := random_index env;
     bcrypt_hash := bcrypt_hash env;
     completion_order := completion_order env |}.

(** Every enumerated record was tallied as a success. *)
Definition all_succeeded (s : MigrationStats) : Prop :=
  successfulClients s = totalClients s /\ successfulUsers s = totalUsers s /\
  failedClients s = 0 /\ failedUsers s = 0.

(** The calls of [upsertUser] in a trace. *)
Definition is_user_upsert (e : Event) : bool :=
  match e with
  | EvUpsertUser _ _ => true
  | _ => false
  end.

Definition user_upserts (t : list Event) : list Event := List.filter is_user_upsert t.

Definition fulfilled {A : Type} (r : outcome A) : Prop :=
  match r with
  | Ok _ => True
  | _ => False
  end.

(** ** The example of the specification (section 8)

    Two groups: [clientA] with [user1] (mail, salted-SHA credential) and
    [user2] (neither); [clientB] with [user3] (mail, MD5 credential). *)

Module Example.

Definition baseDn : string := "ou=clients,dc=example,dc=com".

Definition unit_entry (name : string) : SearchEntry :=
  {| entry_dn := "ou=" +:+ name +:+ "," +:+ baseDn;
     attributes := {[ "ou" := [name] ]} |}.

Definition person (client name email credential : string) : SearchEntry :=
  {| entry_dn := "uid=" +:+ name +:+ ",ou=" +:+ client +:+ "," +:+ baseDn;
     attributes :=
       <["uid" := [name]]>
         (<["mail" := [email]]> (<["userPassword" := [credential]]> ∅)) |}.

Definition persons (searchDN : string) : reply (list SearchEntry) :=
  if String.eqb searchDN ("ou=clientA," +:+ baseDn) then
    Done [person "clientA" "user1" "a@x.com" "{SSHA}abc";
          person "clientA" "user2" "" ""]
  else if String.eqb searchDN ("ou=clientB," +:+ baseDn) then
    Done [person "clientB" "user3" "b@x.com" "{MD5}def"]
  else Done [].

(** [k] in unary. *)
Fixpoint strokes (k : nat) : string :=
  match k with
  | O => ""
  | S k' => String "i" (strokes k')
  end.

(** A stand-in for bcrypt: the k-th call answers a string that depends on
    [k], as a salted hash does. *)
Definition hash (k : nat) (password : string) (rounds : nat) : reply string :=
  Done ("$2b$12$" +:+ strokes k +:+ "." +:+ password).

(** The environment, for a choice of the two migration settings and of the
    errors the servers raise. In a batch of two the second promise, which in
    [clientA] is the one of the user without a credential, is the first to
    reach the database. *)
Definition env (dry : bool) (size : Js.jsnum)
    (searchError : option string)
    (clientError : string -> option string)
    (userError : nat -> string -> option string) : Env :=
  {| dryRun := dry;
     batchSize := size;
     ldapBaseDn := baseDn;
     bind_error := None;
     unbind_error := None;
     search_units := fun _ =>
       match searchError with
       | Some msg => Fails msg
       | None => Done [unit_entry "clientA"; unit_entry "clientB"]
       end;
     search_persons := persons;
     create_tables_error := None;
     find_client_error := fun _ => None;
     save_client_error := clientError;
     find_user_error := fun _ _ => None;
     save_user_error := userError;
     insert_log_error := None;
     now := fun k => 100 + k;
     random_index := fun k => 7 * k;
     bcrypt_hash := hash;
     completion_order := fun _ => [1; 0; 1; 1; 0; 0] |}.

Definition no_client_error : string -> option string := fun _ => None.
Definition no_user_error : nat -> string -> option string := fun _ _ => None.

(** A live run with the default batch size and no error. *)
Definition live : Env := env false (Some 100%Z) None no_client_error no_user_error.

(** The same with [DRY_RUN=true]. *)
Definition dry : Env := env true (Some 100%Z) None no_client_error no_user_error.

(** The same with a [BATCH_SIZE] that [parseInt] does not read as a number. *)
Definition nan_batch : Env := env false Js.NaN None no_client_error no_user_error.

(** The connection is fine and the search of the client units raises. *)
Definition no_base : Env :=
  env false (Some 100%Z) (Some "No Such Object") no_client_error no_user_error.

(** The save of [clientA] raises. *)
Definition clientA_fails : Env :=
  env false (Some 100%Z) None
    (fun c => if String.eqb c "clientA" then Some "connection reset" else None)
    no_user_error.

(** The save of [user1] raises. *)
Definition user1_fails : Env :=
  env false (Some 100%Z) None no_client_error
    (fun _ u => if String.eqb u "user1" then Some "value too long" else None).

(** The directory lists [user1] of [clientA] twice, under two entries, and
    the two promises of the batch take their turns alternately: both lookups
    reach the database before either save. *)
Definition twins : Env :=
  {| dryRun := false;
     batchSize := Some 100%Z;
     ldapBaseDn := baseDn;
     bind_error := None;
     unbind_error := None;
     search_units := fun _ => Done [unit_entry "clientA"];
     search_persons := fun _ =>
       Done [person "clientA" "user1" "a@x.com" "";
             person "clientA/sub" "user1" "a@y.com" ""];
     create_tables_error := None;
     find_client_error := fun _ => None;
     save_client_error := fun _ => None;
     find_user_error := fun _ _ => None;
     save_user_error := fun _ _ => None;
     insert_log_error := None;
     now := fun k => 100 + k;
     random_index := fun k => 7 * k;
     bcrypt_hash := hash;
     completion_order := fun _ => [0; 1; 0; 1; 0; 1] |}.

(** Empty tables, nothing connected but the data source. *)
Definition empty : World :=
  {| stats := MigrationService.initial_stats;
     isConnected := false;
     isInitialized := true;
     clients := ∅;
     users := ∅;
     migration_log := [];
     next_client_id := 1;
     next_user_id := 1;
     clock_reads := 0;
     random_draws := 0;
     bcrypt_calls := 0;
     trace := [] |}.

(** The state a run leaves, whatever its outcome. *)
Definition after (e : Env) (w : World) : World :=
  snd (MigrationService.migrate e 8 w).

End Example.

(** ** The other methods of the services *)

(** The result of [PasswordUtils.getHashInfo]. *)
Module HashInfo.
Record t := mk {
  format : string;
  length : nat;
  hasData : bool
}.
End HashInfo.

Module PasswordUtilsOther.

(** The [ldapPatterns] of [getHashInfo], each with its format name. *)
Definition ldapPatterns : list (string * string) :=
  [("{SSHA}", "SSHA"); ("{SHA}", "SHA"); ("{MD5}", "MD5"); ("{CRYPT}", "CRYPT");
   ("{CLEARTEXT}", "CLEARTEXT")].

(** [for (const { pattern, format } of ldapPatterns) { if (pattern.test(password)) ... }] *)
Fixpoint first_format (patterns : list (string * string)) (password : string)
  : option string :=
  match patterns with
  | [] => None
  | (tag, format) :: rest =>
      if Regex.test_prefix tag password then Some format
      else first_format rest password
  end.

Definition getHashInfo (password : string) : HashInfo.t :=
  if negb (Js.nonempty password) then HashInfo.mk "empty" 0 false
  else
    match first_format ldapPatterns password with
    | Some format => HashInfo.mk format (String.length password) true
    | None =>
        if orb (Regex.test_prefix "$2b$" password) (Regex.test_prefix "$2a$" password)
        then HashInfo.mk "bcrypt" (String.length password) true
        else HashInfo.mk "unknown" (String.length password)
               (0 <? String.length password)
    end.

End PasswordUtilsOther.

Module LdapServiceOther.

(** [testConnection]: connect, disconnect, and answer whether that went
    through. *)
Definition testConnection (env : Env) : M bool :=
  try_catch
    (LdapService.connect env >>
     LdapService.disconnect env >>
     ret true)
    (fun _ => ret false).

End LdapServiceOther.

Module DatabaseServiceOther.

(** [testConnection]: [SELECT 1]; [selectError] is the error of that query,
    if it raises one. *)
Definition testConnection (selectError : option string) : M bool :=
  try_catch
    (raise_if selectError >>
     ret true)
    (fun _ => ret false).

(** [getClientByOU]: the client of that name, or [null] when there is none or
    the lookup raises. *)
Definition getClientByOU (env : Env) (clientId : string) : M (option Client.t) :=
  try_catch
    (DatabaseService.findOneClient env clientId)
    (fun _ => ret None).

End DatabaseServiceOther.

(** ** configuration.ts *)

Module ConfigurationService.

(** [process.env.NAME || fallback]. *)
Definition or_default (value : option string) (fallback : string) : string :=
  match value with
  | Some s => if Js.nonempty s then s else fallback
  | None => fallback
  end.

(** The white space [parseInt] skips, among the code units below 256. *)
Definition is_white_space (c : ascii) : bool :=
  let n := nat_of_ascii c in
  orb (andb (9 <=? n) (n <=? 13)) (orb (n =? 32) (n =? 160)).

Fixpoint trim_start (s : string) : string :=
  match s with
  | String c rest => if is_white_space c then trim_start rest else s
  | EmptyString => s
  end.

Definition digit_value (c : ascii) : option Z :=
  let n := nat_of_ascii c in
  if andb (48 <=? n) (n <=? 57) then Some (Z.of_nat (n - 48)) else None.

(** The value of the longest prefix of decimal digits, if there is a digit;
    [acc] is the value of the digits read so far. *)
Fixpoint leading_digits (s : string) (acc : option Z) : option Z :=
  match s with
  | String c rest =>
      match digit_value c with
      | Some d =>
          leading_digits rest
            (Some (10 * (match acc with Some a => a | None => 0 end) + d)%Z)
      | None => acc
      end
  | EmptyString => acc
  end.

(** [parseInt(s, 10)]: white space is skipped, then an optional sign, then
    the decimal digits up to the first other character are read; [NaN] when
    there is no digit. (JavaScript rounds a result beyond 2^53 to the nearest
    double; here it is the exact integer.) *)
Definition parseInt (s : string) : Js.jsnum :=
  match trim_start s with
  | String "-" rest =>
      match leading_digits rest None with
      | Some n => Some (- n)%Z
      | None => Js.NaN
      end
  | String "+" rest => leading_digits rest None
  | trimmed => leading_digits trimmed None
  end.

Section Getters.
Variable env : gmap string string.      (* process.env *)

Definition ldapUrl : string := or_default (env !! "LDAP_URL") "ldap://localhost:389".
Definition ldapBindDn : string := or_default (env !! "LDAP_BIND_DN") "cn=Directory Manager".
Definition ldapBindPassword : string := or_default (env !! "LDAP_BIND_PASSWORD") "".
Definition ldapBaseDn : string :=
  or_default (env !! "LDAP_BASE_DN") "ou=clients,dc=example,dc=com".
Definition ldapSearchScope : string := or_default (env !! "LDAP_SEARCH_SCOPE") "sub".
Definition dbHost : string := or_default (env !! "DB_HOST") "localhost".
Definition dbPort : Js.jsnum := parseInt (or_default (env !! "DB_PORT") "5432").
Definition dbUser : string := or_default (env !! "DB_USER") "postgres".
Definition dbPassword : string := or_default (env !! "DB_PASSWORD") "postgres".
Definition dbName : string := or_default (env !! "DB_NAME") "usersdb".
Definition dbSchema : string := or_default (env !! "DB_SCHEMA") "public".
Definition nodeEnv : string := or_default (env !! "NODE_ENV") "development".
Definition logLevel : string := or_default (env !! "LOG_LEVEL") "info".
Definition logFilePath : string :=
  or_default (env !! "LOG_FILE_PATH") "./logs/migration.log".

(** [process.env.DRY_RUN === 'true']. *)
Definition dryRun : bool := bool_decide (env !! "DRY_RUN" = Some "true").

Definition batchSize : Js.jsnum := parseInt (or_default (env !! "BATCH_SIZE") "100").

Definition maxConcurrentUsers : Js.jsnum :=
  parseInt (or_default (env !! "MAX_CONCURRENT_USERS") "10").

(** The [requiredFields] of [validate]: name and value. *)
Definition requiredFields : list (string * string) :=
  [("LDAP_URL", ldapUrl); ("LDAP_BIND_DN", ldapBindDn);
   ("LDAP_BIND_PASSWORD", ldapBindPassword); ("LDAP_BASE_DN", ldapBaseDn);
   ("DB_HOST", dbHost); ("DB_USER", dbUser); ("DB_PASSWORD", dbPassword);
   ("DB_NAME", dbName)].

(** [requiredFields.filter(field => !field.value)]. *)
Definition missingFields : list (string * string) :=
  List.filter (fun field => negb (Js.nonempty (snd field))) requiredFields.

Definition validate : bool :=
  if 0 <? length missingFields then false else true.

End Getters.

End ConfigurationService.

Module MigrationServiceOther.

(** [validateSetup]: the configuration, then the directory, then the
    database; [false] at the first that fails, and on any error. *)
Definition validateSetup (processEnv : gmap string string) (selectError : option string)
    (env : Env) : M bool :=
  try_catch
    (if negb (ConfigurationService.validate processEnv) then ret false
     else
       let* ldapConnected := LdapServiceOther.testConnection env in
       if negb ldapConnected then ret false
       else
         let* dbConnected := DatabaseServiceOther.testConnection selectError in
         if negb dbConnected then ret false
         else ret true)
    (fun _ => ret false).

End MigrationServiceOther.

(** ** user.entity.ts *)

Module UserEntity.

(** The string of a value that is known not to be [null]. *)
Definition text (v : option string) : string :=
  match v with
  | Some s => s
  | None => ""
  end.

(** [getFullName]: both names, or the one there is, or the username. *)
Definition getFullName (user : User.t) : string :=
  if andb (Js.truthy (User.first_name user)) (Js.truthy (User.last_name user))
  then text (User.first_name user) +:+ " " +:+ text (User.last_name user)
  else if Js.truthy (User.first_name user) then text (User.first_name user)
  else if Js.truthy (User.last_name user) then text (User.last_name user)
  else User.username user.

End UserEntity.

(** ** Vocabulary of the further properties *)

(** The calls of [upsertClient] in a trace. *)
Definition is_client_upsert (e : Event) : bool :=
  match e with
  | EvUpsertClient _ => true
  | _ => false
  end.

Definition client_upserts (t : list Event) : list Event := List.filter is_client_upsert t.

(** The characters of a string. *)
Fixpoint characters (s : string) : list ascii :=
  match s with
  | EmptyString => []
  | String c rest => c :: characters rest
  end.

(** A string starts with a decimal digit. *)
Definition starts_with_digit (s : string) : bool :=
  match s with
  | String c _ =>
      match ConfigurationService.digit_value c with
      | Some _ => true
      | None => false
      end
  | EmptyString => false
  end.

(** A string without its sign, if it starts with one. *)
Definition unsigned (s : string) : string :=
  match s with
  | String "-" rest => rest
  | String "+" rest => rest
  | _ => s
  end.

(** The example in which the directory refuses to list the users of
    [clientA]. *)
Definition clientA_unlisted : Env :=
  {| dryRun := false;
     batchSize := Some 100%Z;
     ldapBaseDn := Example.baseDn;
     bind_error := None;
     unbind_error := None;
     search_units := fun _ => Done [Example.unit_entry "clientA"; Example.unit_entry "clientB"];
     search_persons := fun searchDN =>
       if String.eqb searchDN ("ou=clientA," +:+ Example.baseDn)
       then Fails "Insufficient access rights"
       else Example.persons searchDN;
     create_tables_error := None;
     find_client_error := fun _ => None;
     save_client_error := fun _ => None;
     find_user_error := fun _ _ => None;
     save_user_error := fun _ _ => None;
     insert_log_error := None;
     now := fun k => 100 + k;
     random_index := fun k => 7 * k;
     bcrypt_hash := Example.hash;
     completion_order := fun _ => [1; 0; 1; 1; 0; 0] |}.

(** * Properties *)

Local Open Scope list_scope.

(** ** Laws of the monad *)

Section MonadLaws.
Context {A B : Type}.

Lemma bind_Ok (m : M A) (k : A -> M B) w a w1 :
  m w = (Ok a, w1) -> bind m k w = k a w1.
Proof. intros H. unfold bind. rewrite H. reflexivity. Qed.

Lemma bind_Throw (m : M A) (k : A -> M B) w msg w1 :
  m w = (Throw msg, w1) -> bind m k w = (Throw msg, w1).
Proof. intros H. unfold bind. rewrite H. reflexivity. Qed.

Lemma bind_Ok_inv (m : M A) (k : A -> M B) w b w' :
  bind m k w = (Ok b, w') ->
  exists a w1, m w = (Ok a, w1) /\ k a w1 = (Ok b, w').
Proof.
  unfold bind. destruct (m w) as [[a | msg | ] w1]; intros H; try discriminate.
  exists a, w1. split; [reflexivity | exact H].
Qed.

Lemma try_catch_Ok (body : M A) handler w a w1 :
  body w = (Ok a, w1) -> try_catch body handler w = (Ok a, w1).
Proof. intros H. unfold try_catch. rewrite H. reflexivity. Qed.

Lemma try_catch_Throw (body : M A) handler w msg w1 :
  body w = (Throw msg, w1) -> try_catch body handler w = handler msg w1.
Proof. intros H. unfold try_catch. rewrite H. reflexivity. Qed.
End MonadLaws.

Lemma try_catch_rethrow_Ok_inv {A} (body : M A) w a w' :
  try_catch body (fun msg => throw msg) w = (Ok a, w') -> body w = (Ok a, w').
Proof.
  unfold try_catch, throw. destruct (body w) as [[x | msg | ] w1]; intros H; congruence.
Qed.

Lemma try_finally_Ok_inv {A} (body : M A) finalizer w a w' :
  try_finally body finalizer w = (Ok a, w') ->
  exists w1, body w = (Ok a, w1) /\ finalizer w1 = (Ok tt, w').
Proof.
  unfold try_finally. destruct (body w) as [[x | msg | ] w1]; try discriminate;
    destruct (finalizer w1) as [[[] | msg' | ] w2] eqn:Hfin; intros H; try discriminate.
  injection H as -> ->. exists w1. split; [reflexivity | exact Hfin].
Qed.

(** ** Relations that every step of a computation respects *)

Section Preservation.
Variable R : World -> World -> Prop.
Hypothesis R_refl : forall w, R w w.
Hypothesis R_trans : forall a b c, R a b -> R b c -> R a c.

Definition preserves {A : Type} (m : M A) : Prop :=
  forall w r w', m w = (r, w') -> R w w'.

Lemma preserves_ret {A} (a : A) : preserves (ret a).
Proof. intros w r w' [= _ <-]. apply R_refl. Qed.

Lemma preserves_throw {A} msg : preserves (@throw A msg).
Proof. intros w r w' [= _ <-]. apply R_refl. Qed.

Lemma preserves_out_of_fuel {A} : preserves (@out_of_fuel A).
Proof. intros w r w' [= _ <-]. apply R_refl. Qed.

Lemma preserves_get {A} (f : World -> A) : preserves (get f).
Proof. intros w r w' [= _ <-]. apply R_refl. Qed.

Lemma preserves_raise_if error : preserves (raise_if error).
Proof. destruct error; [apply preserves_throw | apply preserves_ret]. Qed.

Lemma preserves_modify f : (forall w, R w (f w)) -> preserves (modify f).
Proof. intros Hf w r w' [= _ <-]. apply Hf. Qed.

Lemma preserves_bind {A B} (m : M A) (k : A -> M B) :
  preserves m -> (forall a, preserves (k a)) -> preserves (bind m k).
Proof.
  intros Hm Hk w r w'. unfold bind.
  destruct (m w) as [[a | msg | ] w1] eqn:E; intros H.
  - eapply R_trans; [eapply Hm, E | eapply Hk, H].
  - injection H as _ <-. eapply Hm, E.
  - injection H as _ <-. eapply Hm, E.
Qed.

Lemma preserves_try_catch {A} (body : M A) handler :
  preserves body -> (forall msg, preserves (handler msg)) ->
  preserves (try_catch body handler).
Proof.
  intros Hb Hh w r w'. unfold try_catch.
  destruct (body w) as [[a | msg | ] w1] eqn:E; intros H.
  - injection H as _ <-. eapply Hb, E.
  - eapply R_trans; [eapply Hb, E | eapply Hh, H].
  - injection H as _ <-. eapply Hb, E.
Qed.

Lemma preserves_try_finally {A} (body : M A) finalizer :
  preserves body -> preserves finalizer -> preserves (try_finally body finalizer).
Proof.
  intros Hb Hf w r w'. unfold try_finally.
  destruct (body w) as [[a | msg | ] w1] eqn:E.
  1, 2: destruct (finalizer w1) as [[[] | msg' | ] w2] eqn:F; intros [= _ <-];
        (eapply R_trans; [eapply Hb, E | eapply Hf, F]).
  intros [= _ <-]. eapply Hb, E.
Qed.

(** A promise every turn of which respects the relation. *)
Inductive keeps {A : Type} : Promise A -> Prop :=
| keeps_settled r : keeps (Settled r)
| keeps_pending rest effect :
    (forall w, R w (effect w)) -> (forall w, keeps (rest w)) ->
    keeps (Pending rest effect).

Lemma keeps_async {A} (m : M A) : preserves m -> keeps (async m).
Proof.
  intros Hm. apply keeps_pending.
  - intros w. destruct (m w) as [r w'] eqn:E. simpl. eapply Hm, E.
  - intros w. apply keeps_settled.
Qed.

Lemma keeps_then {A B} (p : Promise A) (k : outcome A -> Promise B) :
  keeps p -> (forall r, keeps (k r)) -> keeps (then_ p k).
Proof.
  intros Hp Hk. induction Hp as [r | rest effect He _ IH]; simpl.
  - apply Hk.
  - apply keeps_pending; assumption.
Qed.

Lemma keeps_after {A B} (p : Promise A) (k : A -> Promise B) :
  keeps p -> (forall a, keeps (k a)) -> keeps (after p k).
Proof.
  intros Hp Hk. apply keeps_then; [exact Hp |].
  intros [a | msg |]; [apply Hk | apply keeps_settled..].
Qed.

Lemma keeps_rescue {A} (p : Promise A) handler :
  keeps p -> (forall msg, keeps (handler msg)) -> keeps (rescue p handler).
Proof.
  intros Hp Hh. apply keeps_then; [exact Hp |].
  intros [a | msg |]; [apply keeps_settled | apply Hh | apply keeps_settled].
Qed.

Lemma preserves_alone {A} (p : Promise A) : keeps p -> preserves (alone p).
Proof.
  induction 1 as [r | rest effect He _ IH]; simpl.
  - intros w r' w' [= _ <-]. apply R_refl.
  - intros w r' w' E. eapply R_trans; [apply He | eapply IH, E].
Qed.

Lemma turn_keeps {A} i (promises promises' : list (Promise A)) w w' :
  Forall keeps promises -> turn i promises w = (promises', w') ->
  Forall keeps promises' /\ R w w'.
Proof.
  intros Hps. unfold turn.
  destruct (promises !! i) as [[r | rest effect] |] eqn:E; intros [= <- <-];
    try (split; [exact Hps | apply R_refl]).
  assert (keeps (Pending rest effect)) as Hp
    by (eapply Forall_lookup_1; eassumption).
  inversion Hp as [| ? ? He Hr]; subst.
  split; [| apply He].
  apply Forall_insert; [exact Hps | apply Hr].
Qed.

Lemma turns_keep {A} order (promises promises' : list (Promise A)) w w' :
  Forall keeps promises -> turns order promises w = (promises', w') ->
  Forall keeps promises' /\ R w w'.
Proof.
  revert promises w. induction order as [| i order IH]; intros promises w Hps; simpl.
  - intros [= <- <-]. split; [exact Hps | apply R_refl].
  - destruct (turn i promises w) as [ps1 w1] eqn:E.
    destruct (turn_keeps i _ _ _ _ Hps E) as [Hps1 H1].
    intros Hrest. destruct (IH _ _ Hps1 Hrest) as [Hps' H'].
    split; [exact Hps' | eapply R_trans; eassumption].
Qed.

Lemma preserves_settle_all {A} (promises : list (Promise A)) :
  Forall keeps promises -> preserves (settle_all promises).
Proof.
  induction 1 as [| p rest Hp _ IH]; simpl.
  - apply preserves_ret.
  - intros w r w'.
    destruct (alone p w) as [r1 w1] eqn:E.
    destruct (settle_all rest w1) as [[rs | msg | ] w2] eqn:F; intros [= _ <-];
      (eapply R_trans; [eapply preserves_alone, E; exact Hp | eapply IH, F]).
Qed.

Lemma preserves_allSettled {A} (promises : list (Promise A)) order :
  Forall keeps promises -> preserves (allSettled promises order).
Proof.
  intros Hps w r w'. unfold allSettled.
  destruct (turns order promises w) as [ps1 w1] eqn:E.
  destruct (turns_keep order _ _ _ _ Hps E) as [Hps1 H1].
  intros F. eapply R_trans; [exact H1 | eapply preserves_settle_all, F; exact Hps1].
Qed.

(** A call that respects the relation and hands back such a promise. *)
Definition starts {A : Type} (call : M (Promise A)) : Prop :=
  forall w r w', call w = (r, w') ->
    R w w' /\ match r with Ok p => keeps p | _ => True end.

Lemma call_all_keeps {A} (calls : list (M (Promise A))) w r w' :
  Forall starts calls -> call_all calls w = (r, w') ->
  R w w' /\ match r with Ok ps => Forall keeps ps | _ => True end.
Proof.
  intros Hcalls. revert w r w'.
  induction Hcalls as [| call rest Hcall _ IH]; intros w r w'; simpl.
  - intros [= <- <-]. split; [apply R_refl | constructor].
  - unfold bind.
    destruct (call w) as [[p | msg |] w1] eqn:E;
      destruct (Hcall _ _ _ E) as [H1 Hp];
      try (intros [= <- <-]; split; [exact H1 | exact I]).
    destruct (call_all rest w1) as [[ps | msg |] w2] eqn:F;
      destruct (IH _ _ _ F) as [H2 Hps]; intros [= <- <-];
      (split; [eapply R_trans; eassumption |]); try exact I.
    constructor; assumption.
Qed.
End Preservation.

(** One structural step of a preservation proof. *)
Ltac keep_step :=
  first
    [ assumption
    | match goal with
      | H : context [preserves] |- preserves _ _ => solve [apply H]
      end
    | apply preserves_ret
    | apply preserves_throw
    | apply preserves_out_of_fuel
    | apply preserves_get
    | apply preserves_raise_if
    | apply preserves_bind
    | apply preserves_try_catch
    | apply preserves_try_finally
    | apply preserves_modify
    | match goal with
      | |- forall _, _ => intro
      | |- preserves _ (match ?x with _ => _ end) => destruct x
      | |- preserves _ (if ?b then _ else _) => destruct b
      end ].

Ltac keep := repeat keep_step; cbv beta; eauto.

(** The methods preserve what their assignments preserve. *)
Section PreservedByTheRun.
Variable R : World -> World -> Prop.
Hypothesis R_refl : forall w, R w w.
Hypothesis R_trans : forall a b c, R a b -> R b c -> R a c.
Hypothesis R_stats : forall s w, R w (set_stats s w).
Hypothesis R_trace : forall t w, R w (set_trace t w).
Hypothesis R_random_draws : forall n w, R w (set_random_draws n w).
Hypothesis R_bcrypt_calls : forall n w, R w (set_bcrypt_calls n w).

Lemma preserves_emit e : preserves R (emit e).
Proof. unfold emit. keep. Qed.

Lemma preserves_update_stats f : preserves R (MigrationService.update_stats f).
Proof. unfold MigrationService.update_stats. keep. Qed.

Lemma preserves_random_chars env n password :
  preserves R (PasswordUtils.random_chars env n password).
Proof.
  revert password. induction n as [| n IH]; intros password; simpl; [keep |].
  apply preserves_bind; [assumption | | intro; apply IH].
  intros w r w' [= _ <-]. apply R_random_draws.
Qed.

Lemma preserves_bcrypt env password rounds :
  preserves R (PasswordUtils.bcrypt env password rounds).
Proof.
  intros w r w'. unfold PasswordUtils.bcrypt.
  destruct (bcrypt_hash _ _ _ _); intros [= _ <-]; apply R_bcrypt_calls.
Qed.

Lemma preserves_convertLdapPassword env p :
  preserves R (PasswordUtils.convertLdapPassword env p).
Proof.
  unfold PasswordUtils.convertLdapPassword, PasswordUtils.generateRandomPassword.
  pose proof preserves_random_chars. pose proof preserves_bcrypt. keep.
Qed.

Lemma preserves_searchUsers env c : preserves R (LdapService.searchUsers env c).
Proof.
  unfold LdapService.searchUsers. pose proof preserves_emit. keep.
Qed.

Section Writers.
Hypothesis R_upsertUser :
  forall env d c, keeps R (DatabaseService.upsertUser_async env d c).

Lemma starts_processUser env u c :
  starts R (MigrationService.processUser env u c).
Proof.
  pose proof preserves_convertLdapPassword as Hconvert.
  pose proof preserves_update_stats as Hstats.
  assert (forall msg,
    keeps R (async (MigrationService.update_stats
      (MigrationService.fail_user ("User " +:+ uid u +:+ ": " +:+ msg))))) as Hfailed
    by (intros; apply keeps_async, Hstats).
  intros w r w'. unfold MigrationService.processUser, try_catch, bind, ret.
  destruct ((if Js.nonempty (userPassword u)
             then PasswordUtils.convertLdapPassword env (userPassword u)
             else fun w0 => (Ok None, w0)) w) as [[h | msg |] w1] eqn:E;
    intros [= <- <-];
    (split; [destruct (Js.nonempty (userPassword u));
             [eapply Hconvert, E | injection E as _ <-; apply R_refl] |]).
  - apply keeps_rescue; [| exact Hfailed].
    apply keeps_after; [apply R_upsertUser |].
    intros _. apply keeps_async, Hstats.
  - apply Hfailed.
  - exact I.
Qed.

Lemma preserves_batches env fuel users c i :
  preserves R (MigrationService.batches env fuel users c i).
Proof.
  revert i. induction fuel as [| fuel IH]; intros i; simpl; [keep |].
  destruct (Js.lt _ _); [| keep].
  intros w r w'. unfold bind at 1.
  destruct (call_all _ w) as [rc w1] eqn:E.
  destruct (call_all_keeps R R_refl R_trans _ _ _ _
              ltac:(apply Forall_map, Forall_forall; intros u _; apply starts_processUser) E)
    as [H1 Hps].
  destruct rc as [promises | msg |]; try (intros [= _ <-]; exact H1).
  unfold bind, get.
  destruct (allSettled promises _ w1) as [rs w2] eqn:F.
  pose proof (preserves_allSettled R R_refl R_trans _ _ Hps _ _ _ F) as H2.
  destruct rs as [outcomes | msg |]; try (intros [= _ <-]; eapply R_trans; eassumption).
  intros G. eapply R_trans; [exact H1 | eapply R_trans; [exact H2 | eapply IH, G]].
Qed.

Hypothesis R_upsertClient :
  forall env c n, preserves R (DatabaseService.upsertClient env c n).

Lemma preserves_processClient env fuel c :
  preserves R (MigrationService.processClient env fuel c).
Proof.
  unfold MigrationService.processClient.
  pose proof preserves_searchUsers. pose proof preserves_update_stats.
  pose proof preserves_batches. keep.
Qed.

Lemma preserves_each_client env fuel cs :
  preserves R (MigrationService.each_client env fuel cs).
Proof.
  induction cs as [| c cs IH]; simpl; [keep |].
  pose proof preserves_processClient. pose proof preserves_update_stats. keep.
Qed.
End Writers.

Hypothesis R_users : forall m n w, R w (set_users m n w).
Hypothesis R_clock_reads : forall n w, R w (set_clock_reads n w).

Lemma R_saved_user m n k w : R w (set_clock_reads k (set_users m n w)).
Proof. eapply R_trans; [apply R_users | apply R_clock_reads]. Qed.

Lemma preserves_upsertUser env d c :
  preserves R (DatabaseService.upsertUser env d c).
Proof.
  unfold DatabaseService.upsertUser, DatabaseService.findOneUser,
    DatabaseService.updateOrCreateUser, DatabaseService.saveUser,
    DatabaseService.saveNewUser.
  pose proof preserves_emit. pose proof R_saved_user. keep.
Qed.

Lemma keeps_upsertUser_async env d c :
  keeps R (DatabaseService.upsertUser_async env d c).
Proof.
  unfold DatabaseService.upsertUser_async.
  apply keeps_rescue; [| intros; apply keeps_settled].
  apply keeps_after.
  - apply keeps_async. unfold DatabaseService.findOneUser.
    pose proof preserves_emit. keep.
  - intros [user |]; apply keeps_async.
    + unfold DatabaseService.saveUser. pose proof R_saved_user. keep.
    + unfold DatabaseService.saveNewUser. pose proof R_saved_user. keep.
Qed.

Hypothesis R_clients : forall m n w, R w (set_clients m n w).

Lemma R_saved_client m n k w : R w (set_clock_reads k (set_clients m n w)).
Proof. eapply R_trans; [apply R_clients | apply R_clock_reads]. Qed.

Lemma preserves_upsertClient env c n :
  preserves R (DatabaseService.upsertClient env c n).
Proof.
  unfold DatabaseService.upsertClient, DatabaseService.findOneClient,
    DatabaseService.saveClient, DatabaseService.saveNewClient.
  pose proof preserves_emit. pose proof R_saved_client. keep.
Qed.
End PreservedByTheRun.

(** ** Frames *)

Lemma same_refl {A} (f : World -> A) w : same f w w.
Proof. reflexivity. Qed.

Lemma same_trans {A} (f : World -> A) a b c : same f a b -> same f b c -> same f a c.
Proof. unfold same. congruence. Qed.

Lemma user_frame_refl w : user_frame w w.
Proof. repeat split. Qed.

Lemma user_frame_trans a b c : user_frame a b -> user_frame b c -> user_frame a c.
Proof. unfold user_frame. intuition congruence. Qed.

Lemma run_frame_refl w : run_frame w w.
Proof. repeat split. Qed.

Lemma run_frame_trans a b c : run_frame a b -> run_frame b c -> run_frame a c.
Proof. unfold run_frame. intuition congruence. Qed.

Lemma quiet_refl w : quiet w w.
Proof. repeat split. Qed.

Lemma quiet_trans a b c : quiet a b -> quiet b c -> quiet a c.
Proof. unfold quiet. intuition congruence. Qed.

Lemma user_frame_run_frame a b : user_frame a b -> run_frame a b.
Proof. unfold user_frame, run_frame. tauto. Qed.

(** A relation between a state and the same state after one assignment. *)
Ltac assigned := intros; repeat split.

Lemma convertLdapPassword_quiet env p :
  preserves quiet (PasswordUtils.convertLdapPassword env p).
Proof.
  apply preserves_convertLdapPassword;
    [apply quiet_refl | apply quiet_trans | assigned..].
Qed.

Lemma batches_frame env fuel users c i :
  preserves user_frame (MigrationService.batches env fuel users c i).
Proof.
  apply preserves_batches;
    [apply user_frame_refl | apply user_frame_trans | assigned.. |].
  intros. apply keeps_upsertUser_async;
    [apply user_frame_refl | apply user_frame_trans | assigned..].
Qed.

Lemma each_client_frame env fuel cs :
  preserves run_frame (MigrationService.each_client env fuel cs).
Proof.
  apply preserves_each_client;
    [apply run_frame_refl | apply run_frame_trans | assigned.. | |].
  - intros. apply keeps_upsertUser_async;
      [apply run_frame_refl | apply run_frame_trans | assigned..].
  - intros. apply preserves_upsertClient;
      [apply run_frame_refl | apply run_frame_trans | assigned..].
Qed.

(** ** The password conversion *)

Lemma random_chars_total env n password w :
  exists pw w', PasswordUtils.random_chars env n password w = (Ok pw, w').
Proof.
  revert password w. induction n as [| n IH]; intros password w; simpl.
  - eexists _, _. reflexivity.
  - unfold bind, PasswordUtils.random_char. apply IH.
Qed.

Lemma convertLdapPassword_total env p w :
  exists h w', PasswordUtils.convertLdapPassword env p w = (Ok h, w').
Proof.
  unfold PasswordUtils.convertLdapPassword, try_catch.
  destruct (negb (Js.nonempty p)); [eexists _, _; reflexivity |].
  destruct (negb _); [eexists _, _; reflexivity |].
  unfold PasswordUtils.generateRandomPassword, bind.
  destruct (random_chars_total env 12 "" w) as (pw & w1 & ->).
  unfold PasswordUtils.bcrypt.
  destruct (bcrypt_hash _ _ _ _); eexists _, _; reflexivity.
Qed.

Lemma first_match_nonempty patterns p group :
  PasswordUtils.first_match patterns p = Some group -> Js.nonempty group = true.
Proof.
  induction patterns as [| tag rest IH]; simpl; [discriminate |].
  unfold Regex.match_tagged.
  destruct (Regex.strip_prefix tag p) as [s |]; [| exact IH].
  destruct (Js.nonempty s) eqn:E; simpl; [| exact IH].
  destruct (Regex.no_line_terminator s); [| exact IH].
  intros [= <-]. exact E.
Qed.

(** [extractHashFromLdap] never answers [null] nor the empty string on a
    non-empty input, whatever the input starts with. *)
Lemma extractHashFromLdap_truthy p :
  Js.nonempty p = true -> Js.truthy (PasswordUtils.extractHashFromLdap p) = true.
Proof.
  intros Hp. unfold PasswordUtils.extractHashFromLdap.
  destruct (PasswordUtils.first_match _ p) as [group |] eqn:E; simpl.
  - eapply first_match_nonempty, E.
  - exact Hp.
Qed.

(** So every non-empty credential, tagged or not, is given the hash of a
    fresh random password. *)
Lemma convertLdapPassword_nonempty env p w :
  Js.nonempty p = true ->
  exists pw w1,
    PasswordUtils.generateRandomPassword env w = (Ok pw, w1) /\
    fst (PasswordUtils.convertLdapPassword env p w) =
      Ok (match bcrypt_hash env (bcrypt_calls w1) pw PasswordUtils.SALT_ROUNDS with
          | Done h => Some h
          | Fails _ => None
          end).
Proof.
  intros Hp. unfold PasswordUtils.convertLdapPassword, try_catch.
  rewrite Hp, (extractHashFromLdap_truthy p Hp). simpl.
  unfold PasswordUtils.generateRandomPassword, bind.
  destruct (random_chars_total env 12 "" w) as (pw & w1 & E).
  exists pw, w1. rewrite E. split; [reflexivity |].
  unfold PasswordUtils.bcrypt. destruct (bcrypt_hash _ _ _ _); reflexivity.
Qed.

(** ** The two upserts *)

Lemma Js_or_None stored : Js.or None stored = stored.
Proof. reflexivity. Qed.

Lemma Js_or_overwritten_or_kept incoming stored :
  overwritten_or_kept incoming stored (Js.or incoming stored).
Proof.
  split.
  - intros s -> Hs. unfold Js.or. simpl. destruct s; [contradiction | reflexivity].
  - intros [-> | ->]; reflexivity.
Qed.

Lemma user_upsert_fails_false env c u :
  user_upsert_fails env c u = false <->
  find_user_error env c u = None /\ save_user_error env c u = None.
Proof.
  unfold user_upsert_fails.
  rewrite negb_false_iff, andb_true_iff, !bool_decide_eq_true. tauto.
Qed.

Lemma upsertUser_ok env d c w :
  user_upsert_fails env c (Incoming.uid d) = false ->
  let key := (c, Incoming.uid d) in
  let row := upserted_row d (next_user_id w) (now env (clock_reads w)) (users w !! key) in
  DatabaseService.upsertUser env d c w =
    (Ok (User.read key row),
     set_clock_reads (S (clock_reads w))
       (set_users (<[key := row]> (users w))
          (match users w !! key with
           | Some _ => next_user_id w
           | None => S (next_user_id w)
           end)
          (set_trace (trace w ++ [EvUpsertUser c (Incoming.uid d)]) w))).
Proof.
  intros [Hf Hs]%user_upsert_fails_false.
  unfold DatabaseService.upsertUser, DatabaseService.findOneUser,
    DatabaseService.updateOrCreateUser, DatabaseService.saveUser,
    DatabaseService.saveNewUser,
    try_catch, bind, emit, modify, raise_if, get, ret.
  simpl. rewrite Hf. simpl.
  destruct (users w !! (c, Incoming.uid d)) as [stored |] eqn:E; simpl.
  - rewrite Hs. simpl. reflexivity.
  - rewrite Hs. simpl. rewrite E. reflexivity.
Qed.

Lemma upsertUser_fails env d c w :
  user_upsert_fails env c (Incoming.uid d) = true ->
  exists msg,
    DatabaseService.upsertUser env d c w =
      (Throw ("User upsert failed for " +:+ Incoming.uid d +:+ ": " +:+ msg),
       set_trace (trace w ++ [EvUpsertUser c (Incoming.uid d)]) w).
Proof.
  intros H. unfold user_upsert_fails in H.
  apply negb_true_iff, andb_false_iff in H.
  unfold DatabaseService.upsertUser, DatabaseService.findOneUser,
    DatabaseService.updateOrCreateUser, DatabaseService.saveUser,
    DatabaseService.saveNewUser,
    try_catch, bind, emit, modify, raise_if, get, ret, throw.
  simpl.
  destruct (find_user_error env c (Incoming.uid d)) as [msg |] eqn:Hf; simpl.
  { exists msg. reflexivity. }
  destruct H as [H | H]; [apply bool_decide_eq_false in H; contradiction |].
  apply bool_decide_eq_false in H.
  destruct (save_user_error env c (Incoming.uid d)) as [msg |] eqn:Hs;
    [| contradiction].
  exists msg.
  destruct (users w !! (c, Incoming.uid d)) as [stored |]; simpl; rewrite ?Hs;
    reflexivity.
Qed.

Lemma upsertClient_fails env c n w :
  client_upsert_fails env c ->
  exists msg,
    DatabaseService.upsertClient env c n w =
      (Throw ("Client upsert failed for " +:+ c +:+ ": " +:+ msg),
       set_trace (trace w ++ [EvUpsertClient c]) w).
Proof.
  intros H.
  unfold DatabaseService.upsertClient, DatabaseService.findOneClient,
    DatabaseService.saveClient, DatabaseService.saveNewClient,
    try_catch, bind, emit, modify, raise_if, get, ret, throw.
  simpl.
  destruct (find_client_error env c) as [msg |] eqn:Hf; simpl.
  { exists msg. reflexivity. }
  destruct H as [H | H]; [contradiction |].
  destruct (save_client_error env c) as [msg |] eqn:Hs; [| contradiction].
  exists msg.
  destruct (clients w !! c) as [stored |]; simpl; rewrite ?Hs; reflexivity.
Qed.

Lemma upsertClient_ok env c w :
  find_client_error env c = None -> save_client_error env c = None ->
  let row := client_row (next_client_id w) (now env (clock_reads w)) (clients w !! c) in
  DatabaseService.upsertClient env c None w =
    (Ok (Client.read c row),
     set_clock_reads (S (clock_reads w))
       (set_clients (<[c := row]> (clients w))
          (match clients w !! c with
           | Some _ => next_client_id w
           | None => S (next_client_id w)
           end)
          (set_trace (trace w ++ [EvUpsertClient c]) w))).
Proof.
  intros Hf Hs.
  unfold DatabaseService.upsertClient, DatabaseService.findOneClient,
    DatabaseService.saveClient, DatabaseService.saveNewClient,
    try_catch, bind, emit, modify, raise_if, get, ret.
  simpl. rewrite Hf. simpl.
  destruct (clients w !! c) as [[key name] |] eqn:E; simpl.
  - rewrite Hs. simpl. reflexivity.
  - rewrite Hs. simpl. rewrite E. reflexivity.
Qed.

(** ** The promises of a batch *)

Section Tasks.
Variable env : Env.
Variable clientId : nat.

(** [upsertUser], awaited alone, is its promise taking its two turns in a
    row. *)
Lemma upsertUser_alone d w :
  alone (DatabaseService.upsertUser_async env d clientId) w =
  DatabaseService.upsertUser env d clientId w.
Proof.
  unfold DatabaseService.upsertUser_async, DatabaseService.upsertUser,
    DatabaseService.findOneUser, rescue, after, async, try_catch, bind, emit, modify,
    raise_if, get, throw, ret.
  simpl.
  destruct (find_user_error env clientId (Incoming.uid d)); simpl; [reflexivity |].
  destruct (DatabaseService.updateOrCreateUser env d clientId _ _) as [[user | msg |] w'];
    reflexivity.
Qed.

(** A turn of the promise of a task is a step of the task. *)
Lemma turn_of_a_task t w :
  match promise_of env clientId t with
  | Pending rest effect =>
      rest w = promise_of env clientId (fst (step env clientId t w)) /\
      effect w = snd (step env clientId t w)
  | Settled r => r = Ok tt /\ step env clientId t w = (t, w)
  end.
Proof.
  destruct t as [u h ph]. unfold promise_of, step. simpl.
  destruct ph as [| found | [msg |] | error]; simpl.
  - unfold DatabaseService.findOneUser, bind, emit, modify, raise_if, get, throw, ret.
    simpl. destruct (find_user_error env clientId (uid u)); simpl; split; reflexivity.
  - unfold DatabaseService.updateOrCreateUser, DatabaseService.saveUser,
      DatabaseService.saveNewUser, bind, modify, raise_if, get, throw, ret.
    destruct found as [stored |]; simpl;
      destruct (save_user_error env clientId (uid u)); simpl; try (split; reflexivity).
    destruct (users w !! (clientId, uid u)); simpl; split; reflexivity.
  - split; reflexivity.
  - split; reflexivity.
  - split; reflexivity.
Qed.

Lemma turn_of_tasks i ts w :
  turn i (promise_of env clientId <$> ts) w =
    (promise_of env clientId <$> fst (step_at env clientId i ts w),
     snd (step_at env clientId i ts w)).
Proof.
  unfold turn, step_at. rewrite list_lookup_fmap.
  destruct (ts !! i) as [t |] eqn:E; simpl; [| reflexivity].
  pose proof (turn_of_a_task t w) as H.
  destruct (promise_of env clientId t) as [r | rest effect].
  - destruct H as [_ ->]. simpl. rewrite list_insert_id by exact E. reflexivity.
  - destruct H as [-> ->].
    destruct (step env clientId t w) as [t' w']. simpl.
    rewrite list_fmap_insert. reflexivity.
Qed.

Lemma turns_of_tasks order ts w :
  turns order (promise_of env clientId <$> ts) w =
    (promise_of env clientId <$> fst (steps env clientId order ts w),
     snd (steps env clientId order ts w)).
Proof.
  revert ts w. induction order as [| i order IH]; intros ts w; simpl; [reflexivity |].
  rewrite turn_of_tasks.
  destruct (step_at env clientId i ts w) as [ts' w']. simpl. apply IH.
Qed.

Lemma steps_app o1 o2 ts w :
  steps env clientId (o1 ++ o2) ts w =
    steps env clientId o2 (fst (steps env clientId o1 ts w))
      (snd (steps env clientId o1 ts w)).
Proof.
  revert ts w. induction o1 as [| i o1 IH]; intros ts w; simpl; [reflexivity |].
  destruct (step_at env clientId i ts w) as [ts' w']. apply IH.
Qed.

(** Three turns take a task to its end. *)
Lemma alone_step t w :
  alone (promise_of env clientId t) w =
    alone (promise_of env clientId (fst (step env clientId t w)))
      (snd (step env clientId t w)).
Proof.
  pose proof (turn_of_a_task t w) as H.
  destruct (promise_of env clientId t) as [r | rest effect] eqn:E.
  - destruct H as [_ ->]. simpl. rewrite E. reflexivity.
  - destruct H as [<- <-]. reflexivity.
Qed.

Lemma step_turns_left t w :
  turns_left (fst (step env clientId t w)) <= pred (turns_left t).
Proof.
  destruct t as [u h ph]. unfold step, turns_left. simpl.
  destruct ph as [| found | error | error]; simpl; try lia.
  - destruct (find_user_error env clientId (uid u)); simpl; lia.
  - destruct (save_user_error env clientId (uid u)); simpl; [lia |].
    destruct found; simpl; [lia |].
    destruct (users w !! (clientId, uid u)); simpl; lia.
Qed.

Lemma three_steps t w :
  let s1 := step env clientId t w in
  let s2 := step env clientId (fst s1) (snd s1) in
  let s3 := step env clientId (fst s2) (snd s2) in
  finished (fst s3) /\ alone (promise_of env clientId t) w = (Ok tt, snd s3).
Proof.
  intros s1 s2 s3.
  assert (turns_left (fst s3) = 0) as H0.
  { pose proof (step_turns_left t w). pose proof (step_turns_left (fst s1) (snd s1)).
    pose proof (step_turns_left (fst s2) (snd s2)).
    assert (turns_left t <= 3) by (unfold turns_left; destruct (task_phase t); lia).
    fold s1 in H. fold s2 in H0. fold s3 in H1. lia. }
  assert (finished (fst s3)) as Hfin.
  { unfold turns_left in H0. unfold finished.
    destruct (task_phase (fst s3)); try discriminate. exact I. }
  split; [exact Hfin |].
  rewrite (alone_step t w). fold s1.
  rewrite (alone_step (fst s1) (snd s1)). fold s2.
  rewrite (alone_step (fst s2) (snd s2)). fold s3.
  unfold promise_of. unfold finished in Hfin.
  destruct (task_phase (fst s3)); try contradiction. reflexivity.
Qed.

Lemma step_user t w : task_user (fst (step env clientId t w)) = task_user t.
Proof.
  destruct t as [u h ph]. unfold step. simpl.
  destruct ph as [| found | error | error]; simpl; try reflexivity.
  - destruct (find_user_error env clientId (uid u)); reflexivity.
  - destruct (save_user_error env clientId (uid u)); [reflexivity |].
    destruct found; [reflexivity |].
    destruct (users w !! (clientId, uid u)); reflexivity.
Qed.

Lemma step_hash t w : task_hash (fst (step env clientId t w)) = task_hash t.
Proof.
  destruct t as [u h ph]. unfold step. simpl.
  destruct ph as [| found | error | error]; simpl; try reflexivity.
  - destruct (find_user_error env clientId (uid u)); reflexivity.
  - destruct (save_user_error env clientId (uid u)); [reflexivity |].
    destruct found; [reflexivity |].
    destruct (users w !! (clientId, uid u)); reflexivity.
Qed.

Lemma step_finished t w : finished t -> step env clientId t w = (t, w).
Proof.
  destruct t as [u h ph]. unfold finished, step. simpl.
  destruct ph; try contradiction. reflexivity.
Qed.

Lemma step_at_middle done t rest w :
  step_at env clientId (length done) (done ++ t :: rest) w =
    (done ++ fst (step env clientId t w) :: rest, snd (step env clientId t w)).
Proof.
  unfold step_at. rewrite list_lookup_middle by reflexivity.
  destruct (step env clientId t w) as [t' w']. simpl.
  rewrite insert_app_r_alt by lia. rewrite Nat.sub_diag. reflexivity.
Qed.

(** The promises still pending after the turns of an order are taken to
    their end one after the other. *)
Lemma settle_all_tasks done rest w :
  exists rest',
    settle_all (promise_of env clientId <$> rest) w =
      (Ok ((fun _ => Ok tt) <$> rest),
       snd (steps env clientId
              (flat_map (fun i => [i; i; i]) (seq (length done) (length rest)))
              (done ++ rest) w)) /\
    fst (steps env clientId
           (flat_map (fun i => [i; i; i]) (seq (length done) (length rest)))
           (done ++ rest) w) = done ++ rest' /\
    Forall finished rest' /\ length rest' = length rest.
Proof.
  revert done w. induction rest as [| t rest IH]; intros done w; simpl.
  { exists []. repeat split. constructor. }
  destruct (three_steps t w) as [Hfin Halone]. cbv zeta in Hfin, Halone.
  rewrite Halone.
  rewrite !step_at_middle.
  set (s1 := step env clientId t w) in *.
  set (s2 := step env clientId (fst s1) (snd s1)) in *.
  set (s3 := step env clientId (fst s2) (snd s2)) in *.
  destruct (IH (done ++ [fst s3]) (snd s3)) as (rest' & E & F & Hall & Hlen).
  rewrite length_app in E, F. simpl in E, F.
  rewrite Nat.add_1_r in E, F.
  rewrite <- app_assoc in E, F. simpl in E, F.
  match goal with
  | |- context [settle_all ?l (snd s3)] =>
      change l with (promise_of env clientId <$> rest)
  end.
  rewrite E. exists (fst s3 :: rest').
  split; [reflexivity |].
  split; [rewrite F, <- app_assoc; reflexivity |].
  split; [constructor; assumption | simpl; rewrite Hlen; reflexivity].
Qed.

(** [Promise.allSettled] over the promises of tasks: every promise is
    fulfilled, and the state is the one the steps of the tasks lead to, in
    the given order and then to the end. *)
Lemma allSettled_tasks ts order w :
  let final := steps env clientId (order ++ to_the_end (length ts)) ts w in
  allSettled (promise_of env clientId <$> ts) order w =
    (Ok ((fun _ => Ok tt) <$> ts), snd final) /\
  Forall finished (fst final) /\ length (fst final) = length ts.
Proof.
  intros final. subst final. unfold allSettled, to_the_end.
  rewrite turns_of_tasks, steps_app.
  set (s := steps env clientId order ts w).
  assert (length (fst s) = length ts) as Hlen.
  { subst s. clear. revert ts w. induction order as [| i order IH]; intros ts w; simpl;
      [reflexivity |].
    unfold step_at. destruct (ts !! i) as [t |]; [| apply IH].
    destruct (step env clientId t w) as [t' w']. rewrite IH. apply length_insert. }
  destruct (settle_all_tasks [] (fst s) (snd s)) as (rest' & E & F & Hall & Hlen').
  simpl in E, F. rewrite Hlen in E, F. rewrite E, F.
  split; [| split; [exact Hall | congruence]].
  f_equal. f_equal. revert Hlen. generalize (fst s). clear. intros l.
  revert ts. induction l as [| a l IH]; intros [| b ts] H; simpl in *; try discriminate;
    [reflexivity |].
  f_equal. apply IH. lia.
Qed.

End Tasks.

(** ** The invariant of a batch *)

Lemma sum_list_insert {A} (f : A -> nat) (l : list A) i x y :
  l !! i = Some x ->
  sum_list (f <$> <[i := y]> l) + f x = sum_list (f <$> l) + f y.
Proof.
  revert i. induction l as [| a l IH]; intros [| i]; csimpl; try discriminate.
  - intros [= ->]. lia.
  - intros H. specialize (IH i H). lia.
Qed.

Lemma omap_insert_None {A B} (f : A -> option B) (l : list A) i x y :
  l !! i = Some x -> f x = None ->
  omap f (<[i := y]> l) ≡ₚ
    match f y with Some b => [b] | None => [] end ++ omap f l.
Proof.
  revert i. induction l as [| a l IH]; intros [| i]; simpl; try discriminate.
  - intros [= ->] ->. destruct (f y); reflexivity.
  - intros H Hx. specialize (IH i H Hx).
    destruct (f a) as [b |]; [| exact IH].
    rewrite IH. destruct (f y); simpl; [apply Permutation_swap | reflexivity].
Qed.

Section Batch.
Variable env : Env.
Variable clientId : nat.
Variable w0 : World.
Variable batch : list UserData.

(** The message a task has recorded, and the credit it has counted. *)
Definition failure (t : task) : option string :=
  complaint (task_user t) <$> verdict t.

Definition credit (t : task) : nat :=
  match task_phase t with
  | Finished None => 1
  | _ => 0
  end.

(** What holds of the task at index [i] in the state [w], the batch having
    started in the state [w0]. *)
Definition task_inv (w : World) (i : nat) (t : task) : Prop :=
  let u := task_user t in
  let key := (clientId, uid u) in
  match task_phase t with
  | Finding => lonely batch i -> users w !! key = users w0 !! key
  | Saving found =>
      find_user_error env clientId (uid u) = None /\
      (lonely batch i -> found = users w0 !! key /\ users w !! key = users w0 !! key)
  | Tallying None | Finished None =>
      user_upsert_fails env clientId (uid u) = false /\
      is_Some (users w !! key) /\
      (lonely batch i ->
       exists row, users w !! key = Some row /\ upsert_of (record t) (users w0 !! key) row)
  | Tallying (Some msg) | Finished (Some msg) =>
      (exists e, msg = refusal u e) /\
      (lonely batch i ->
       user_upsert_fails env clientId (uid u) = true /\ users w !! key = users w0 !! key)
  end.

Record Inv (ts : list task) (w : World) : Prop := {
  inv_users : task_user <$> ts = batch;
  inv_converted : Forall (fun t => converted env (task_user t) (task_hash t)) ts;
  inv_totalClients : totalClients (stats w) = totalClients (stats w0);
  inv_totalUsers : totalUsers (stats w) = totalUsers (stats w0);
  inv_successfulClients : successfulClients (stats w) = successfulClients (stats w0);
  inv_failedClients : failedClients (stats w) = failedClients (stats w0);
  inv_success :
    successfulUsers (stats w) = successfulUsers (stats w0) + sum_list (credit <$> ts);
  inv_failed :
    failedUsers (stats w) = failedUsers (stats w0) + length (omap failure ts);
  inv_errors :
    exists messages,
      errors (stats w) = errors (stats w0) ++ messages /\ messages ≡ₚ omap failure ts;
  inv_kept : forall k, is_Some (users w0 !! k) -> is_Some (users w !! k);
  inv_untouched :
    forall k, (forall u, u ∈ batch -> k <> (clientId, uid u)) ->
              users w !! k = users w0 !! k;
  inv_tasks : forall i t, ts !! i = Some t -> task_inv w i t
}.

(** A step writes at most the row of its own user, and deletes none. *)
Lemma step_users t w k :
  let w' := snd (step env clientId t w) in
  (k <> (clientId, uid (task_user t)) -> users w' !! k = users w !! k) /\
  (is_Some (users w !! k) -> is_Some (users w' !! k)).
Proof.
  destruct t as [u h ph]. unfold step. simpl.
  destruct ph as [| found | error | error]; simpl; try solve [split; intros; trivial].
  - destruct (find_user_error env clientId (uid u)); simpl; split; intros; trivial.
  - destruct (save_user_error env clientId (uid u)); simpl; [split; intros; trivial |].
    destruct found as [stored |]; simpl.
    + split; [intros Hk; apply lookup_insert_ne; congruence |].
      intros Hs. rewrite lookup_insert. case_decide; eauto.
    + destruct (users w !! (clientId, uid u)) eqn:E; simpl; [split; intros; trivial |].
      split; [intros Hk; apply lookup_insert_ne; congruence |].
      intros Hs. rewrite lookup_insert. case_decide; eauto.
Qed.

Lemma upsert_fails_find c u msg :
  find_user_error env c u = Some msg -> user_upsert_fails env c u = true.
Proof. unfold user_upsert_fails. intros ->. reflexivity. Qed.

Lemma upsert_fails_save c u msg :
  save_user_error env c u = Some msg -> user_upsert_fails env c u = true.
Proof.
  unfold user_upsert_fails. intros ->. rewrite andb_false_r. reflexivity.
Qed.

Lemma upsert_goes_through c u :
  find_user_error env c u = None -> save_user_error env c u = None ->
  user_upsert_fails env c u = false.
Proof. unfold user_upsert_fails. intros -> ->. reflexivity. Qed.

(** The step of a task keeps what holds of the other tasks. *)
Lemma task_inv_other ts i t j tj w :
  task_user <$> ts = batch ->
  ts !! i = Some t -> ts !! j = Some tj -> j <> i ->
  task_inv w j tj -> task_inv (snd (step env clientId t w)) j tj.
Proof.
  intros Hus Hi Hj Hne.
  assert (batch !! i = Some (task_user t)) as Bi
    by (rewrite <- Hus, list_lookup_fmap, Hi; reflexivity).
  assert (batch !! j = Some (task_user tj)) as Bj
    by (rewrite <- Hus, list_lookup_fmap, Hj; reflexivity).
  assert (lonely batch j -> uid (task_user t) <> uid (task_user tj)) as Hlonely.
  { intros L E. apply Hne. symmetry. exact (L i _ _ Bj Bi E). }
  pose proof (step_users t w (clientId, uid (task_user tj))) as [Hsame Hkept].
  cbv zeta in Hsame, Hkept.
  assert (lonely batch j ->
          users (snd (step env clientId t w)) !! (clientId, uid (task_user tj)) =
          users w !! (clientId, uid (task_user tj))) as Hrow.
  { intros L. apply Hsame. intros [= E]. apply (Hlonely L). symmetry. exact E. }
  unfold task_inv. destruct (task_phase tj) as [| found | [msg |] | [msg |]]; simpl.
  - intros H L. rewrite (Hrow L). apply H, L.
  - intros [Hf H]. split; [exact Hf |]. intros L. rewrite (Hrow L). apply H, L.
  - intros [He H]. split; [exact He |]. intros L. rewrite (Hrow L). apply H, L.
  - intros (Hf & Hs & H). split; [exact Hf |]. split; [apply Hkept, Hs |].
    intros L. rewrite (Hrow L). apply H, L.
  - intros [He H]. split; [exact He |]. intros L. rewrite (Hrow L). apply H, L.
  - intros (Hf & Hs & H). split; [exact Hf |]. split; [apply Hkept, Hs |].
    intros L. rewrite (Hrow L). apply H, L.
Qed.

(** The step of a task establishes what holds of it in its next phase. *)
Lemma task_inv_step i t w :
  task_inv w i t ->
  task_inv (snd (step env clientId t w)) i (fst (step env clientId t w)).
Proof.
  destruct t as [u h ph]. unfold task_inv, step. simpl.
  destruct ph as [| found | [msg |] | [msg |]]; simpl; try (intros H; exact H).
  - intros H.
    destruct (find_user_error env clientId (uid u)) as [msg |] eqn:Hf; simpl.
    + split; [eexists; reflexivity |]. intros L.
      split; [eapply upsert_fails_find, Hf | apply H, L].
    + split; [exact Hf |]. intros L. split; apply H, L.
  - intros [Hf H].
    destruct (save_user_error env clientId (uid u)) as [msg |] eqn:Hs; simpl.
    { split; [eexists; reflexivity |]. intros L.
      split; [eapply upsert_fails_save, Hs | apply H, L]. }
    destruct found as [stored |]; simpl.
    { split; [apply upsert_goes_through; assumption |].
      split; [rewrite lookup_insert_eq; eauto |].
      intros L. destruct (H L) as [<- _].
      eexists. split; [apply lookup_insert_eq |].
      exists 0, (now env (clock_reads w)). reflexivity. }
    destruct (users w !! (clientId, uid u)) as [other |] eqn:E; simpl.
    { split; [eexists; reflexivity |]. intros L.
      destruct (H L) as [<- E']. congruence. }
    split; [apply upsert_goes_through; assumption |].
    split; [rewrite lookup_insert_eq; eauto |].
    intros L. destruct (H L) as [<- _].
    eexists. split; [apply lookup_insert_eq |].
    eexists _, _. reflexivity.
Qed.

Lemma step_stats t w :
  stats (snd (step env clientId t w)) =
    match task_phase t with
    | Tallying None => MigrationService.incr_successfulUsers (stats w)
    | Tallying (Some msg) =>
        MigrationService.fail_user (complaint (task_user t) msg) (stats w)
    | _ => stats w
    end.
Proof.
  destruct t as [u h ph]. unfold step. simpl.
  destruct ph as [| found | [msg |] | error]; simpl; try reflexivity.
  - destruct (find_user_error env clientId (uid u)); reflexivity.
  - destruct (save_user_error env clientId (uid u)); [reflexivity |].
    destruct found; [reflexivity |].
    destruct (users w !! (clientId, uid u)); reflexivity.
Qed.

Lemma step_tally t w :
  let t' := fst (step env clientId t w) in
  finished t \/
  (failure t = None /\ credit t = 0 /\
   match task_phase t with
   | Tallying None => failure t' = None /\ credit t' = 1
   | Tallying (Some msg) =>
       failure t' = Some (complaint (task_user t) msg) /\ credit t' = 0
   | _ => failure t' = None /\ credit t' = 0
   end).
Proof.
  destruct t as [u h ph]. unfold step, failure, credit, verdict, finished. simpl.
  destruct ph as [| found | [msg |] | error]; simpl; auto; right.
  - destruct (find_user_error env clientId (uid u)); simpl; auto.
  - destruct (save_user_error env clientId (uid u)); simpl; auto.
    destruct found; simpl; auto.
    destruct (users w !! (clientId, uid u)); simpl; auto.
Qed.

(** Every turn keeps the invariant. *)
Lemma step_at_inv i ts w :
  Inv ts w ->
  Inv (fst (step_at env clientId i ts w)) (snd (step_at env clientId i ts w)).
Proof.
  intros HI. unfold step_at.
  destruct (ts !! i) as [t |] eqn:Hi; [| exact HI].
  destruct (step env clientId t w) as [t' w'] eqn:Hstep. simpl.
  assert (t' = fst (step env clientId t w)) as Et by (rewrite Hstep; reflexivity).
  assert (w' = snd (step env clientId t w)) as Ew by (rewrite Hstep; reflexivity).
  destruct (step_tally t w) as [Hfin | (Hf0 & Hs0 & Htally)].
  { rewrite (step_finished env clientId t w Hfin) in Hstep.
    injection Hstep as <- <-. rewrite list_insert_id by exact Hi. exact HI. }
  cbv zeta in Htally. rewrite <- Et in Htally.
  pose proof (step_stats t w) as Hstats. rewrite <- Ew in Hstats.
  pose proof (sum_list_insert credit ts i t t' Hi) as Hsum.
  pose proof (omap_insert_None failure ts i t t' Hi Hf0) as Hperm.
  destruct HI as [Hus Hconv H1 H2 H3 H4 H5 H6 (messages & He & Hm) Hkept Hunt Htasks].
  assert (task_user <$> <[i := t']> ts = batch) as Hus'.
  { rewrite list_fmap_insert, Et, step_user, list_insert_id; [exact Hus |].
    rewrite list_lookup_fmap, Hi. reflexivity. }
  assert (batch !! i = Some (task_user t)) as Bi
    by (rewrite <- Hus, list_lookup_fmap, Hi; reflexivity).
  split; try exact Hus'.
  - apply Forall_insert; [exact Hconv |].
    rewrite Et, step_user, step_hash.
    eapply Forall_lookup_1 in Hconv; [exact Hconv | exact Hi].
  - rewrite Hstats. destruct (task_phase t) as [| | [|] |]; simpl; exact H1.
  - rewrite Hstats. destruct (task_phase t) as [| | [|] |]; simpl; exact H2.
  - rewrite Hstats. destruct (task_phase t) as [| | [|] |]; simpl; exact H3.
  - rewrite Hstats. destruct (task_phase t) as [| | [|] |]; simpl; exact H4.
  - rewrite Hstats.
    destruct (task_phase t) as [| | [|] |]; simpl; destruct Htally as [_ Hs']; lia.
  - rewrite Hstats, (Permutation_length Hperm).
    destruct (task_phase t) as [| | [|] |]; simpl; destruct Htally as [-> _];
      simpl; lia.
  - rewrite Hstats.
    destruct (task_phase t) as [| | [msg |] |]; simpl; destruct Htally as [Hf' _];
      rewrite Hf' in Hperm; simpl in Hperm.
    1, 2, 4, 5: exists messages; split; [exact He | rewrite Hperm; exact Hm].
    exists (messages ++ [complaint (task_user t) msg]). split.
    + rewrite He, app_assoc. reflexivity.
    + rewrite Hperm, <- Hm. symmetry. apply Permutation_cons_append.
  - intros k Hk. rewrite Ew. apply step_users, Hkept, Hk.
  - intros k Hk. rewrite Ew.
    destruct (step_users t w k) as [Hsame _]. cbv zeta in Hsame.
    rewrite Hsame; [apply Hunt, Hk |].
    apply Hk. eapply list_elem_of_lookup_2, Bi.
  - intros j tj. rewrite list_lookup_insert.
    case_decide as Hj.
    + destruct Hj as [-> _]. intros [= <-]. rewrite Et, Ew.
      apply task_inv_step, Htasks, Hi.
    + intros Hj'. rewrite Ew.
      eapply (task_inv_other ts i t j tj); eauto.
      intros ->. apply Hj. split; [reflexivity |].
      eapply lookup_lt_Some, Hi.
Qed.

Lemma steps_inv order ts w :
  Inv ts w ->
  Inv (fst (steps env clientId order ts w)) (snd (steps env clientId order ts w)).
Proof.
  revert ts w. induction order as [| i order IH]; intros ts w HI; simpl; [exact HI |].
  pose proof (step_at_inv i ts w HI) as H.
  destruct (step_at env clientId i ts w) as [ts' w']. apply IH, H.
Qed.

End Batch.

(** ** One batch *)

Lemma processUser_call env u c w :
  exists h w1,
    MigrationService.processUser env u c w =
      (Ok (promise_of env c {| task_user := u; task_hash := h; task_phase := Finding |}),
       w1) /\
    quiet w w1 /\ converted env u h.
Proof.
  unfold MigrationService.processUser, try_catch, bind, ret, converted.
  destruct (Js.nonempty (userPassword u)) eqn:Hp.
  - destruct (convertLdapPassword_total env (userPassword u) w) as (h & w1 & E).
    pose proof (convertLdapPassword_quiet env _ _ _ _ E) as Q.
    destruct (convertLdapPassword_nonempty env (userPassword u) w Hp) as (pw & w2 & _ & Eh).
    rewrite E in Eh. simpl in Eh. injection Eh as ->.
    rewrite E. eexists _, w1. split; [reflexivity |]. split; [exact Q |].
    eexists _, _. reflexivity.
  - exists None, w. split; [reflexivity |]. split; [apply quiet_refl | reflexivity].
Qed.

(** The calls of a batch hand back the promises of its tasks, each before
    its lookup; the calls touch nothing but the two random sources. *)
Lemma call_all_tasks env c batch w :
  exists ts w1,
    call_all (map (fun user => MigrationService.processUser env user c) batch) w =
      (Ok (promise_of env c <$> ts), w1) /\
    quiet w w1 /\
    task_user <$> ts = batch /\
    Forall (fun t => task_phase t = Finding /\
                     converted env (task_user t) (task_hash t)) ts.
Proof.
  revert w. induction batch as [| u batch IH]; intros w; simpl.
  { exists [], w. split; [reflexivity |]. split; [apply quiet_refl |].
    split; [reflexivity | constructor]. }
  destruct (processUser_call env u c w) as (h & w1 & E & Q1 & Hh).
  destruct (IH w1) as (ts & w2 & F & Q2 & Hus & Hall).
  unfold bind. rewrite E, F.
  exists ({| task_user := u; task_hash := h; task_phase := Finding |} :: ts), w2.
  split; [reflexivity |]. split; [eapply quiet_trans; eassumption |].
  split; [csimpl; rewrite Hus; reflexivity |].
  constructor; [split; [reflexivity | exact Hh] | exact Hall].
Qed.

Lemma Inv_start env c w batch ts w1 :
  quiet w w1 -> task_user <$> ts = batch ->
  Forall (fun t => task_phase t = Finding /\
                   converted env (task_user t) (task_hash t)) ts ->
  Inv env c w batch ts w1.
Proof.
  intros (Qs & _ & _ & _ & Qu & _) Hus Hall.
  assert (sum_list (credit <$> ts) = 0 /\ omap failure ts = []) as [Hsum Hfail].
  { clear Hus. induction Hall as [| t ts [Ht _] _ [IH1 IH2]]; [split; reflexivity |].
    csimpl. unfold credit, failure, verdict. rewrite Ht. simpl.
    split; [exact IH1 | exact IH2]. }
  split; rewrite ?Qs, ?Qu, ?Hsum, ?Hfail; simpl; try lia; trivial.
  - eapply Forall_impl; [exact Hall |]. intros t [_ H]. exact H.
  - exists []. rewrite app_nil_r. split; reflexivity.
  - intros i t Hi. unfold task_inv.
    eapply Forall_lookup_1 in Hall; [| exact Hi]. destruct Hall as [-> _].
    intros _. rewrite Qu. reflexivity.
Qed.

Lemma finished_tally ts :
  Forall finished ts ->
  sum_list (credit <$> ts) + length (omap failure ts) = length ts.
Proof.
  induction 1 as [| t ts Ht _ IH]; [reflexivity |].
  assert (credit t + length (option_list (failure t)) = 1) as H1.
  { unfold finished in Ht. unfold credit, failure, verdict.
    destruct (task_phase t) as [| | | [msg |]]; try contradiction; reflexivity. }
  csimpl. destruct (failure t); simpl in *; lia.
Qed.

Lemma failure_verdicts ts :
  omap failure ts =
    caught (zip_with (fun u v => complaint u <$> v) (task_user <$> ts) (verdict <$> ts)).
Proof.
  induction ts as [| t ts IH]; [reflexivity |].
  unfold caught in *. csimpl. rewrite <- IH. unfold failure at 1.
  destruct (verdict t); reflexivity.
Qed.

Lemma length_failures ts :
  length (omap failure ts) = length (caught (verdict <$> ts)).
Proof.
  induction ts as [| t ts IH]; [reflexivity |].
  unfold caught in *. csimpl. unfold failure at 1.
  destruct (verdict t); simpl; rewrite IH; reflexivity.
Qed.

Lemma Inv_post env c w batch ts w' :
  Inv env c w batch ts w' -> Forall finished ts ->
  batch_post env c batch w w' (verdict <$> ts).
Proof.
  intros [Hus Hconv H1 H2 H3 H4 H5 H6 (messages & He & Hm) Hkept Hunt Htasks] Hfin.
  pose proof (finished_tally ts Hfin) as Ht.
  assert (length ts = length batch) as Hlen by (rewrite <- Hus, length_fmap; reflexivity).
  rewrite length_failures in H6, Ht.
  unfold batch_post. rewrite length_fmap.
  repeat (split; [first [assumption | lia] |]).
  split. { exists messages. split; [exact He |]. rewrite Hm, failure_verdicts, Hus. reflexivity. }
  split; [exact Hkept |]. split; [exact Hunt |].
  intros i u v Hu Hv. rewrite list_lookup_fmap in Hv.
  destruct (ts !! i) as [t |] eqn:Hi; [| discriminate]. injection Hv as <-.
  assert (task_user t = u) as <-.
  { rewrite <- Hus, list_lookup_fmap, Hi in Hu. injection Hu as ->. reflexivity. }
  pose proof (Htasks i t Hi) as Htask.
  eapply Forall_lookup_1 in Hfin; [| exact Hi].
  eapply Forall_lookup_1 in Hconv; [| exact Hi]. simpl in Hconv.
  unfold task_inv in Htask. unfold finished in Hfin. unfold verdict.
  destruct (task_phase t) as [| | | [msg |]]; try contradiction; [exact Htask |].
  destruct Htask as (Hf & Hs & Hrow). split; [exact Hf |]. split; [exact Hs |].
  intros L. destruct (Hrow L) as (row & Er & Hup).
  exists (task_hash t), row. repeat split; assumption.
Qed.

Lemma steps_length env c order ts w :
  length (fst (steps env c order ts w)) = length ts.
Proof.
  revert ts w. induction order as [| i order IH]; intros ts w; simpl; [reflexivity |].
  unfold step_at. destruct (ts !! i) as [t |]; [| apply IH].
  destruct (step env c t w) as [t' w']. rewrite IH. apply length_insert.
Qed.

(** Whatever the order in which its promises take their turns, a batch
    settles: every promise is fulfilled, and the state is as [batch_post]
    says. *)
Lemma batch_settles env c batch w :
  exists promises w1,
    call_all (map (fun user => MigrationService.processUser env user c) batch) w =
      (Ok promises, w1) /\
    quiet w w1 /\
    forall order,
      exists w' verdicts,
        allSettled promises order w1 = (Ok ((fun _ => Ok tt) <$> batch), w') /\
        batch_post env c batch w w' verdicts.
Proof.
  destruct (call_all_tasks env c batch w) as (ts & w1 & E & Q & Hus & Hall).
  exists (promise_of env c <$> ts), w1. split; [exact E |]. split; [exact Q |].
  intros order.
  destruct (allSettled_tasks env c ts order w1) as (Es & Hfin & Hlen).
  pose proof (steps_inv env c w batch (order ++ to_the_end (length ts)) ts w1
                (Inv_start env c w batch ts w1 Q Hus Hall)) as HI.
  eexists _, _. split; [| exact (Inv_post env c w batch _ _ HI Hfin)].
  rewrite Es. f_equal. f_equal. rewrite <- Hus. clear.
  induction ts as [| t ts IH]; [reflexivity |]. csimpl. rewrite IH. reflexivity.
Qed.

(** ** The batches of one client *)

Lemma tallied_refl w : tallied 0 w w.
Proof. unfold tallied. repeat split; try lia. trivial. Qed.

Lemma tallied_trans n1 n2 a b c :
  tallied n1 a b -> tallied n2 b c -> tallied (n1 + n2) a c.
Proof.
  unfold tallied. intros (A1 & A2 & A3 & A4 & A5 & A6 & A7) (B1 & B2 & B3 & B4 & B5 & B6 & B7).
  repeat split; try lia. intros k Hk. apply B7, A7, Hk.
Qed.

Lemma length_caught_complaints batch verdicts :
  length (caught (zip_with (fun u v => complaint u <$> v) batch verdicts)) <=
    length (caught verdicts).
Proof.
  unfold caught. revert verdicts.
  induction batch as [| u batch IH]; intros [| v verdicts]; csimpl; try lia.
  specialize (IH verdicts). destruct v; simpl; lia.
Qed.

Lemma length_complaints batch verdicts :
  length verdicts = length batch ->
  length (caught (zip_with (fun u v => complaint u <$> v) batch verdicts)) =
    length (caught verdicts).
Proof.
  unfold caught. revert verdicts.
  induction batch as [| u batch IH]; intros [| v verdicts]; csimpl; try discriminate;
    [reflexivity |].
  intros [= H]. specialize (IH verdicts H). destruct v; simpl; lia.
Qed.

Lemma batch_tallied env c batch w w' verdicts :
  batch_post env c batch w w' verdicts -> tallied (length batch) w w'.
Proof.
  intros (Hlen & H1 & H2 & H3 & H4 & H5 & H6 & (messages & He & Hm) & Hk & _).
  unfold tallied. repeat (split; [first [assumption | lia] |]).
  split; [| exact Hk].
  rewrite He, length_app, (Permutation_length Hm), (length_complaints _ _ Hlen). lia.
Qed.

Lemma NoDup_lonely batch i : NoDup (uid <$> batch) -> lonely batch i.
Proof.
  intros Hnd j u v Hi Hj E.
  apply (NoDup_lookup _ j i (uid u) Hnd); rewrite list_lookup_fmap.
  - rewrite Hj. simpl. rewrite E. reflexivity.
  - rewrite Hi. reflexivity.
Qed.

Lemma count_verdicts {A} (P : A -> bool) (l : list A) (verdicts : list (option string)) :
  length verdicts = length l ->
  (forall i u v, l !! i = Some u -> verdicts !! i = Some v ->
     match v with Some _ => P u = true | None => P u = false end) ->
  length (caught verdicts) = length (filter (fun u => P u = true) l).
Proof.
  unfold caught. revert verdicts.
  induction l as [| u l IH]; intros [| v verdicts]; csimpl; try discriminate;
    [reflexivity |].
  intros [= Hlen] H.
  specialize (IH verdicts Hlen (fun i => H (S i))).
  pose proof (H 0 u v eq_refl eq_refl) as H0.
  rewrite filter_cons.
  destruct v; simpl.
  - rewrite decide_True by exact H0. simpl. rewrite IH. reflexivity.
  - rewrite decide_False by (rewrite H0; discriminate). exact IH.
Qed.

Lemma batch_upserted env c batch w w' verdicts :
  batch_post env c batch w w' verdicts -> NoDup (uid <$> batch) ->
  upserted env c batch w w'.
Proof.
  intros (Hlen & _ & _ & _ & _ & H5 & _ & _ & _ & Hunt & Heach) Hnd.
  split; [| split; [exact Hunt |]].
  - rewrite H5. f_equal. apply count_verdicts; [exact Hlen |].
    intros i u v Hu Hv. specialize (Heach i u v Hu Hv).
    destruct v; [apply Heach, NoDup_lonely, Hnd | apply Heach].
  - intros u Hu. apply list_elem_of_lookup in Hu as [i Hi].
    destruct (lookup_lt_is_Some_2 verdicts i) as [v Hv];
      [rewrite Hlen; eapply lookup_lt_Some, Hi |].
    specialize (Heach i u v Hi Hv). pose proof (NoDup_lonely batch i Hnd) as L.
    destruct v as [msg |].
    + destruct Heach as (_ & H). destruct (H L) as [-> E]. exact E.
    + destruct Heach as (-> & _ & H). exact (H L).
Qed.

Lemma upserted_nil env c w : upserted env c [] w w.
Proof.
  split; [simpl; lia |]. split; [reflexivity |]. intros u Hu. inversion Hu.
Qed.

Lemma upserted_app env c us1 us2 a b d :
  NoDup (uid <$> us1 ++ us2) ->
  upserted env c us1 a b -> upserted env c us2 b d ->
  upserted env c (us1 ++ us2) a d.
Proof.
  rewrite fmap_app. intros Hnd (A1 & A2 & A3) (B1 & B2 & B3).
  apply NoDup_app in Hnd as (_ & Hdisjoint & _).
  assert (forall u v, u ∈ us1 -> v ∈ us2 -> (c, uid v) <> (c, uid u)) as Hkeys.
  { intros u v Hu Hv [= E]. apply (Hdisjoint (uid u)).
    - apply list_elem_of_fmap_2, Hu.
    - rewrite <- E. apply list_elem_of_fmap_2, Hv. }
  split; [| split].
  - rewrite filter_app, length_app. lia.
  - intros k Hk. rewrite B2, A2; [reflexivity | |];
      intros u Hu; apply Hk, elem_of_app; [left | right]; exact Hu.
  - intros u [Hu | Hu]%elem_of_app.
    + specialize (A3 u Hu).
      rewrite (B2 (c, uid u)) by (intros v Hv E; exact (Hkeys u v Hu Hv (eq_sym E))).
      exact A3.
    + specialize (B3 u Hu).
      rewrite (A2 (c, uid u)) in B3
        by (intros v Hv E; exact (Hkeys v u Hv Hu E)).
      exact B3.
Qed.

Lemma slice_batch {A} (l : list A) (i : nat) (b : Z) :
  (0 < b)%Z ->
  Js.slice l (Some (Z.of_nat i)) (Some (Z.of_nat i + b)%Z) =
    take (min (Z.to_nat b) (length l - i)) (drop i l).
Proof.
  intros Hb. unfold Js.slice, Js.relative_index.
  destruct (Z.ltb_spec (Z.of_nat i) 0); [lia |].
  destruct (Z.ltb_spec (Z.of_nat i + b) 0); [lia |].
  destruct (le_lt_dec i (length l)) as [Hi | Hi].
  - f_equal; [| f_equal]; lia.
  - rewrite !drop_ge by lia. destruct (Z.to_nat _), (min _ _); reflexivity.
Qed.

Lemma take_batch_drop {A} (l : list A) i n :
  take (min n (length l - i)) (drop i l) ++ drop (i + n) l = drop i l.
Proof.
  rewrite <- drop_drop.
  destruct (le_lt_dec n (length l - i)) as [H | H].
  - rewrite Nat.min_l by exact H. apply take_drop.
  - rewrite Nat.min_r by lia.
    rewrite take_ge by (rewrite length_drop; lia).
    rewrite (drop_ge (drop i l)) by (rewrite length_drop; lia).
    apply app_nil_r.
Qed.

(** One turn of the batch loop, whatever the batch size: the calls of the
    batch, then [Promise.allSettled], then the next turn. *)
Lemma batches_turn env c users fuel i w :
  Js.lt i (Some (Z.of_nat (length users))) = true ->
  let batch := Js.slice users i (Js.add i (batchSize env)) in
  exists w' verdicts,
    MigrationService.batches env (S fuel) users c i w =
      MigrationService.batches env fuel users c (Js.add i (batchSize env)) w' /\
    batch_post env c batch w w' verdicts.
Proof.
  intros Hlt batch. simpl. rewrite Hlt. fold batch.
  destruct (batch_settles env c batch w) as (promises & w1 & E & _ & Hall).
  destruct (Hall (completion_order env (trace w1))) as (w' & verdicts & F & Hpost).
  exists w', verdicts. split; [| exact Hpost].
  unfold bind at 1. rewrite E. unfold bind at 1. unfold get at 1.
  unfold bind at 1. rewrite F. reflexivity.
Qed.

(** With a positive batch size and a turn of fuel per user, the batch loop
    returns, with every user tallied once; when the usernames are pairwise
    different, every user the database does not refuse has the row of its
    upsert. *)
Lemma batches_spec env c users b :
  batchSize env = Some b -> (0 < b)%Z ->
  forall fuel i w,
    length users - i <= fuel ->
    exists w',
      MigrationService.batches env fuel users c (Some (Z.of_nat i)) w = (Ok tt, w') /\
      tallied (length (drop i users)) w w' /\
      (NoDup (uid <$> users) -> upserted env c (drop i users) w w').
Proof.
  intros Hsize Hb. induction fuel as [| fuel IH]; intros i w Hfuel.
  - exists w. simpl. destruct (Z.ltb_spec (Z.of_nat i) (Z.of_nat (length users))); [lia |].
    rewrite drop_ge by lia.
    split; [reflexivity |]. split; [apply tallied_refl | intros _; apply upserted_nil].
  - destruct (Z.ltb_spec (Z.of_nat i) (Z.of_nat (length users))) as [Hlt | Hge].
    + destruct (batches_turn env c users fuel (Some (Z.of_nat i)) w)
        as (w1 & verdicts & E & Hpost).
      { simpl. apply Z.ltb_lt. exact Hlt. }
      rewrite Hsize in E, Hpost. simpl Js.add in E, Hpost.
      rewrite slice_batch in Hpost by exact Hb.
      replace (Z.of_nat i + b)%Z with (Z.of_nat (i + Z.to_nat b)) in E by lia.
      destruct (IH (i + Z.to_nat b) w1) as (w' & F & T2 & U2); [lia |].
      exists w'. split; [rewrite E; exact F |].
      pose proof (take_batch_drop users i (Z.to_nat b)) as Hsplit.
      split.
      * rewrite <- Hsplit, length_app.
        eapply tallied_trans; [eapply batch_tallied, Hpost | exact T2].
      * intros Hnd.
        assert (NoDup (uid <$> drop i users)) as Hnd'.
        { rewrite fmap_drop. eapply sublist_NoDup; [exact Hnd | apply sublist_drop]. }
        rewrite <- Hsplit in Hnd' |- *.
        apply (upserted_app env c _ _ w w1 w'); [exact Hnd' | | apply U2, Hnd].
        eapply batch_upserted; [exact Hpost |].
        rewrite fmap_app in Hnd'. apply NoDup_app in Hnd' as [H _]. exact H.
    + exists w. simpl. destruct (Z.ltb_spec (Z.of_nat i) (Z.of_nat (length users))); [lia |].
      rewrite drop_ge by lia.
      split; [reflexivity |]. split; [apply tallied_refl | intros _; apply upserted_nil].
Qed.

(** With a batch size of zero or less the index never passes the length of a
    non-empty array: the loop uses up any fuel. *)
Lemma batches_never_end env c users b :
  batchSize env = Some b -> (b <= 0)%Z -> users <> [] ->
  forall fuel i w,
    (i <= 0)%Z ->
    exists w', MigrationService.batches env fuel users c (Some i) w = (OutOfFuel, w').
Proof.
  intros Hsize Hb Hne.
  assert (0 < length users) as Hlen by (destruct users; [contradiction | simpl; lia]).
  induction fuel as [| fuel IH]; intros i w Hi.
  - simpl. destruct (Z.ltb_spec i (Z.of_nat (length users))); [| lia].
    eexists. reflexivity.
  - destruct (batches_turn env c users fuel (Some i) w) as (w1 & verdicts & E & _).
    { simpl. apply Z.ltb_lt. lia. }
    rewrite E, Hsize. simpl Js.add. apply IH. lia.
Qed.

(** ** One client *)

Lemma searchUsers_ok env c w entries :
  isConnected w = true ->
  search_persons env ("ou=" +:+ c +:+ "," +:+ ldapBaseDn env) = Done entries ->
  LdapService.searchUsers env c w =
    (Ok (users_of env c), set_trace (trace w ++ [EvSearchUsers c]) w).
Proof.
  intros Hc Hs.
  unfold LdapService.searchUsers, users_of, try_catch, bind, get, emit, modify.
  rewrite Hc, Hs. reflexivity.
Qed.

Lemma length_users_of env c entries :
  search_persons env ("ou=" +:+ c +:+ "," +:+ ldapBaseDn env) = Done entries ->
  length (users_of env c) <= length entries.
Proof.
  intros Hs. unfold users_of. rewrite Hs.
  etransitivity; [apply length_filter |]. rewrite length_map. reflexivity.
Qed.

Lemma searchUsers_settles env c w :
  exists r w', LdapService.searchUsers env c w = (r, w') /\
    match r with
    | Ok us => us = users_of env c /\
               exists entries,
                 search_persons env ("ou=" +:+ c +:+ "," +:+ ldapBaseDn env) = Done entries
    | Throw _ => True
    | OutOfFuel => False
    end.
Proof.
  unfold LdapService.searchUsers, users_of, try_catch, bind, get, emit, modify.
  destruct (isConnected w); simpl; [| eexists _, _; split; [reflexivity | exact I]].
  destruct (search_persons _ _) as [entries | msg]; simpl;
    eexists _, _; (split; [reflexivity |]); simpl; eauto.
Qed.

Lemma upsertClient_settles env c w :
  exists r w', DatabaseService.upsertClient env c None w = (r, w') /\
    r <> OutOfFuel.
Proof.
  destruct (find_client_error env c) as [msg |] eqn:Hf.
  { destruct (upsertClient_fails env c None w) as [m ->];
      [left; congruence | eexists _, _; split; [reflexivity | discriminate]]. }
  destruct (save_client_error env c) as [msg |] eqn:Hs.
  { destruct (upsertClient_fails env c None w) as [m ->];
      [right; congruence | eexists _, _; split; [reflexivity | discriminate]]. }
  rewrite (upsertClient_ok env c w Hf Hs).
  eexists _, _; split; [reflexivity | discriminate].
Qed.

(** With a positive batch size and enough fuel, [processClient] returns or
    throws. *)
Lemma processClient_settles env fuel c w :
  batching_ok env fuel ->
  exists r w', MigrationService.processClient env fuel c w = (r, w') /\
    r <> OutOfFuel.
Proof.
  intros [(b & Hsize & Hb) Hfuel].
  unfold MigrationService.processClient, bind.
  destruct (upsertClient_settles env (ou c) w) as (r1 & w1 & -> & H1).
  destruct r1 as [dbClient | msg |];
    [| eexists _, _; split; [reflexivity | discriminate] | contradiction].
  destruct (searchUsers_settles env (ou c) w1) as (r2 & w2 & -> & H2).
  destruct r2 as [us | msg |];
    [| eexists _, _; split; [reflexivity | discriminate] | contradiction].
  destruct H2 as (-> & entries & Hs).
  unfold MigrationService.update_stats, modify.
  match goal with
  | |- context [MigrationService.batches env fuel ?us ?id _ ?w0] =>
      destruct (batches_spec env id us b Hsize Hb fuel 0 w0) as (w3 & E & _)
  end.
  - pose proof (length_users_of env (ou c) entries Hs). specialize (Hfuel _ _ Hs). lia.
  - change (Some (Z.of_nat 0)) with (Some 0%Z) in E. rewrite E.
    eexists _, _; split; [reflexivity | discriminate].
Qed.

(** So the client loop returns: what a client throws is tallied and goes no
    further. *)
Lemma each_client_returns env fuel cs w :
  batching_ok env fuel ->
  exists w', MigrationService.each_client env fuel cs w = (Ok tt, w').
Proof.
  intros Hb. revert w. induction cs as [| c cs IH]; intros w; simpl.
  - eexists. reflexivity.
  - unfold bind at 1. unfold try_catch, bind.
    destruct (processClient_settles env fuel c w Hb) as (r & w1 & -> & Hr).
    destruct r as [[] | msg |]; [| | contradiction]; simpl; apply IH.
Qed.

(** ** The run as a whole *)

Section PreservedByMigrate.
Variable R : World -> World -> Prop.
Hypothesis R_refl : forall w, R w w.
Hypothesis R_trans : forall a b c, R a b -> R b c -> R a c.
Hypothesis R_stats : forall s w, R w (set_stats s w).
Hypothesis R_trace : forall t w, R w (set_trace t w).
Hypothesis R_random_draws : forall n w, R w (set_random_draws n w).
Hypothesis R_bcrypt_calls : forall n w, R w (set_bcrypt_calls n w).
Hypothesis R_users : forall m n w, R w (set_users m n w).
Hypothesis R_clients : forall m n w, R w (set_clients m n w).
Hypothesis R_clock_reads : forall n w, R w (set_clock_reads n w).
Hypothesis R_isConnected : forall b w, R w (set_isConnected b w).
Hypothesis R_migration_log : forall l w, R w (set_migration_log l w).

Lemma preserves_migrate env fuel : preserves R (MigrationService.migrate env fuel).
Proof.
  assert (forall cs, preserves R (MigrationService.each_client env fuel cs)) as Hloop.
  { intros cs. apply preserves_each_client; try assumption.
    - intros. apply keeps_upsertUser_async; assumption.
    - intros. apply preserves_upsertClient; assumption. }
  pose proof (preserves_emit R R_trace) as Hemit.
  pose proof (preserves_update_stats R R_stats) as Hstats.
  unfold MigrationService.migrate, LdapService.connect, LdapService.disconnect,
    LdapService.searchClients, DatabaseService.initializeTables,
    DatabaseService.logMigrationRun.
  keep.
Qed.
End PreservedByMigrate.

(** [migrate] leaves the data source as it found it. *)
Lemma migrate_isInitialized env fuel :
  preserves (same isInitialized) (MigrationService.migrate env fuel).
Proof.
  apply preserves_migrate; [apply same_refl | apply same_trans | assigned..].
Qed.

Lemma disconnect_returns env w :
  exists w', LdapService.disconnect env w = (Ok tt, w') /\
    (unbind_error env = None -> isConnected w' = false).
Proof.
  unfold LdapService.disconnect, bind, get, try_catch, emit, modify, raise_if.
  destruct (isConnected w) eqn:E; simpl.
  - destruct (unbind_error env); simpl; eexists; split; try reflexivity; discriminate.
  - eexists; split; [reflexivity | intros _; exact E].
Qed.

(** When [migrate] returns or throws, the directory was disconnected on the
    way out, provided the unbind itself does not fail. *)
Lemma migrate_disconnects env fuel w r w' :
  MigrationService.migrate env fuel w = (r, w') ->
  r <> OutOfFuel -> unbind_error env = None -> isConnected w' = false.
Proof.
  unfold MigrationService.migrate. unfold bind at 1. simpl.
  unfold try_finally.
  match goal with |- context [try_catch ?b ?h ?w0] => destruct (try_catch b h w0) as [rb w1] end.
  destruct (disconnect_returns env w1) as (w2 & -> & Hd).
  destruct rb; intros [= <- <-] Hr Hu; auto; contradiction.
Qed.

(** The run up to the client loop, when the connection step and the search of
    the client units go through. *)
Lemma migrate_connected env fuel w :
  connection_error env = None ->
  (exists entries, search_units env (ldapBaseDn env) = Done entries) ->
  MigrationService.migrate env fuel w =
    try_finally
      (try_catch
         (MigrationService.each_client env fuel (clients_of env) >>
          let* stats := get stats in
          DatabaseService.logMigrationRun env (stats_as_any stats) >>
          ret (result_of env stats))
         (fun msg => throw msg))
      (LdapService.disconnect env) (started env w).
Proof.
  unfold connection_error. intros Hc [entries Hs].
  destruct (bind_error env) eqn:Hb; [discriminate |].
  destruct (create_tables_error env) eqn:Ht; [discriminate |].
  unfold MigrationService.migrate, LdapService.connect, LdapService.searchClients,
    DatabaseService.initializeTables, MigrationService.update_stats, started,
    clients_of.
  unfold try_finally, try_catch, bind, emit, modify, get, raise_if.
  rewrite Hb, Ht. simpl. rewrite Hs. reflexivity.
Qed.

(** What is left of the run after the client loop. *)
Lemma migrate_finishes env fuel w w1 :
  connection_error env = None ->
  (exists entries, search_units env (ldapBaseDn env) = Done entries) ->
  MigrationService.each_client env fuel (clients_of env) (started env w) = (Ok tt, w1) ->
  exists w',
    MigrationService.migrate env fuel w = (Ok (result_of env (stats w1)), w') /\
    stats w' = stats w1 /\ clients w' = clients w1 /\ users w' = users w1 /\
    next_client_id w' = next_client_id w1 /\ next_user_id w' = next_user_id w1 /\
    migration_log w' =
      migration_log w ++
        match insert_log_error env with
        | None => [summary_row (stats w1)]
        | Some _ => []
        end /\
    last (trace w') = Some EvUnbind.
Proof.
  intros Hc Hs Hloop.
  rewrite (migrate_connected env fuel w Hc Hs).
  destruct (each_client_frame env fuel _ _ _ _ Hloop) as (Hcon & _ & Hlog).
  unfold try_finally, try_catch, bind. rewrite Hloop.
  unfold DatabaseService.logMigrationRun, LdapService.disconnect,
    try_catch, bind, get, emit, modify, raise_if.
  destruct (insert_log_error env); simpl; rewrite Hcon; simpl;
    destruct (unbind_error env); simpl;
    eexists; (split; [reflexivity |]); simpl; rewrite ?Hlog, ?app_nil_r;
    repeat split; apply last_snoc.
Qed.

(** The three ways in which the run stops before the client loop. *)
Lemma migrate_connection_fails env fuel w msg :
  connection_error env = Some msg ->
  exists w',
    MigrationService.migrate env fuel w = (Throw msg, w') /\
    migration_log w' = migration_log w /\
    clients w' = clients w /\ users w' = users w /\
    (bind_error env = None -> last (trace w') = Some EvUnbind).
Proof.
  unfold connection_error. intros Hc.
  unfold MigrationService.migrate, LdapService.connect, LdapService.disconnect,
    DatabaseService.initializeTables.
  unfold try_finally, try_catch, bind, emit, modify, get, raise_if, throw.
  destruct (bind_error env) as [m |]; simpl.
  - injection Hc as <-.
    destruct (isConnected w); simpl; [destruct (unbind_error env); simpl |];
      eexists; repeat split; discriminate.
  - destruct (create_tables_error env) as [m |]; [| discriminate].
    injection Hc as <-. simpl.
    destruct (unbind_error env); simpl; eexists; repeat split; intros _;
      apply last_snoc.
Qed.

Lemma migrate_enumeration_fails env fuel w msg :
  connection_error env = None ->
  search_units env (ldapBaseDn env) = Fails msg ->
  exists w',
    MigrationService.migrate env fuel w =
      (Throw ("LDAP client search failed: " +:+ msg), w') /\
    migration_log w' = migration_log w /\
    clients w' = clients w /\ users w' = users w /\
    last (trace w') = Some EvUnbind.
Proof.
  unfold connection_error. intros Hc Hs.
  destruct (bind_error env) eqn:Hb; [discriminate |].
  destruct (create_tables_error env) eqn:Ht; [discriminate |].
  unfold MigrationService.migrate, LdapService.connect, LdapService.disconnect,
    LdapService.searchClients, DatabaseService.initializeTables.
  unfold try_finally, try_catch, bind, emit, modify, get, raise_if, throw.
  rewrite Hb, Ht. simpl. rewrite Hs. simpl.
  destruct (unbind_error env); simpl; eexists; repeat split; apply last_snoc.
Qed.

(** The client loop catches what a client throws. *)
Lemma each_client_never_throws env fuel cs w msg w' :
  MigrationService.each_client env fuel cs w <> (Throw msg, w').
Proof.
  revert w. induction cs as [| c cs IH]; intros w; simpl; [discriminate |].
  unfold bind at 1. unfold try_catch, bind.
  destruct (MigrationService.processClient env fuel c w) as [[[] | ? |] w1]; simpl;
    try apply IH; discriminate.
Qed.

(** When the bind went through, the unbind is the last call of a run that
    returns or throws. *)
Lemma migrate_unbinds_last env fuel w r w' :
  MigrationService.migrate env fuel w = (r, w') ->
  r <> OutOfFuel -> bind_error env = None ->
  last (trace w') = Some EvUnbind.
Proof.
  intros Hrun Hr Hb.
  destruct (connection_error env) as [msg |] eqn:Hc.
  { destruct (migrate_connection_fails env fuel w msg Hc) as (w2 & E & _ & _ & _ & Ht).
    rewrite E in Hrun. injection Hrun as _ <-. exact (Ht Hb). }
  destruct (search_units env (ldapBaseDn env)) as [entries | msg] eqn:Hs.
  2: { destruct (migrate_enumeration_fails env fuel w msg Hc Hs)
         as (w2 & E & _ & _ & _ & Ht).
       rewrite E in Hrun. injection Hrun as _ <-. exact Ht. }
  destruct (MigrationService.each_client env fuel (clients_of env) (started env w))
    as [[[] | msg |] w1] eqn:Hloop.
  - destruct (migrate_finishes env fuel w w1 Hc (ex_intro _ entries Hs) Hloop)
      as (w2 & E & _ & _ & _ & _ & _ & _ & Ht).
    rewrite E in Hrun. injection Hrun as _ <-. exact Ht.
  - destruct (each_client_never_throws env fuel _ _ _ _ Hloop).
  - rewrite (migrate_connected env fuel w Hc (ex_intro _ entries Hs)) in Hrun.
    unfold try_finally, try_catch, bind in Hrun. rewrite Hloop in Hrun.
    injection Hrun as <- _. contradiction.
Qed.

(** ** Tallies *)

Lemma searchUsers_stats env c : preserves (same stats) (LdapService.searchUsers env c).
Proof.
  apply preserves_searchUsers; [apply same_refl | apply same_trans | assigned].
Qed.

Lemma upsertClient_stats env c n :
  preserves (same stats) (DatabaseService.upsertClient env c n).
Proof.
  apply preserves_upsertClient; [apply same_refl | apply same_trans | assigned..].
Qed.

(** What one client adds to the tallies, with a positive batch size and
    enough fuel: nothing when it throws, its users when it returns. *)
Lemma processClient_tally env fuel c w r w1 :
  batching_ok env fuel ->
  MigrationService.processClient env fuel c w = (r, w1) ->
  match r with
  | Ok _ =>
      totalUsers (stats w1) + successfulUsers (stats w) + failedUsers (stats w) =
        totalUsers (stats w) + successfulUsers (stats w1) + failedUsers (stats w1) /\
      length (errors (stats w1)) + failedUsers (stats w) =
        length (errors (stats w)) + failedUsers (stats w1) /\
      totalClients (stats w1) = totalClients (stats w) /\
      successfulClients (stats w1) = successfulClients (stats w) /\
      failedClients (stats w1) = failedClients (stats w)
  | Throw _ => stats w1 = stats w
  | OutOfFuel => False
  end.
Proof.
  intros [(b & Hsize & Hb) Hfuel].
  unfold MigrationService.processClient, bind.
  destruct (DatabaseService.upsertClient env (ou c) None w) as [r1 wa] eqn:E1.
  pose proof (upsertClient_stats env _ _ _ _ _ E1) as S1. unfold same in S1.
  destruct (upsertClient_settles env (ou c) w) as (r1' & wa' & E1' & H1).
  rewrite E1 in E1'. injection E1' as <- <-.
  destruct r1 as [dbClient | msg |]; [| intros [= <- <-]; exact S1 | contradiction].
  destruct (LdapService.searchUsers env (ou c) wa) as [r2 wb] eqn:E2.
  pose proof (searchUsers_stats env _ _ _ _ E2) as S2. unfold same in S2.
  destruct (searchUsers_settles env (ou c) wa) as (r2' & wb' & E2' & H2).
  rewrite E2 in E2'. injection E2' as <- <-.
  destruct r2 as [us | msg |];
    [| intros [= <- <-]; congruence | contradiction].
  destruct H2 as (-> & entries & Hs).
  unfold MigrationService.update_stats, modify.
  match goal with
  | |- context [MigrationService.batches env fuel ?us ?id _ ?w0] =>
      destruct (batches_spec env id us b Hsize Hb fuel 0 w0) as (w3 & E & T & _)
  end.
  { pose proof (length_users_of env (ou c) entries Hs). specialize (Hfuel _ _ Hs). lia. }
  change (Some (Z.of_nat 0)) with (Some 0%Z) in E. rewrite E.
  intros [= <- <-]. rewrite drop_0 in T.
  destruct T as (T1 & T2 & T3 & T4 & T5 & T6 & _).
  simpl in *. rewrite S2, S1 in *. lia.
Qed.

Lemma each_client_tally env fuel cs w w' :
  batching_ok env fuel ->
  MigrationService.each_client env fuel cs w = (Ok tt, w') ->
  totalClients (stats w') = totalClients (stats w) /\
  successfulClients (stats w') + failedClients (stats w') =
    successfulClients (stats w) + failedClients (stats w) + length cs /\
  totalUsers (stats w') + successfulUsers (stats w) + failedUsers (stats w) =
    totalUsers (stats w) + successfulUsers (stats w') + failedUsers (stats w') /\
  length (errors (stats w')) + failedClients (stats w) + failedUsers (stats w) =
    length (errors (stats w)) + failedClients (stats w') + failedUsers (stats w').
Proof.
  intros Hb. revert w. induction cs as [| c cs IH]; intros w; simpl.
  { intros [= <-]. repeat split; lia. }
  unfold bind at 1. unfold try_catch, bind.
  destruct (MigrationService.processClient env fuel c w) as [r w1] eqn:E.
  pose proof (processClient_tally env fuel c w r w1 Hb E) as T.
  destruct r as [[] | msg |]; [| | contradiction]; simpl; intros Hrest;
    apply IH in Hrest; simpl in Hrest.
  - destruct T as (T1 & T2 & T3 & T4 & T5). simpl in *. lia.
  - rewrite T in Hrest. rewrite length_app in Hrest. simpl in *. lia.
Qed.

(** With a positive batch size every enumerated client and user is tallied
    exactly once, and every failure has its message. *)
Lemma migrate_tally env fuel w r w' :
  batching_ok env fuel ->
  MigrationService.migrate env fuel w = (Ok r, w') ->
  let s := result_stats r in
  totalClients s = successfulClients s + failedClients s /\
  totalUsers s = successfulUsers s + failedUsers s /\
  length (errors s) = failedClients s + failedUsers s.
Proof.
  intros Hb Hrun.
  destruct (connection_error env) as [msg |] eqn:Hc.
  { destruct (migrate_connection_fails env fuel w msg Hc) as (? & E & _). congruence. }
  destruct (search_units env (ldapBaseDn env)) as [entries | msg] eqn:Hs.
  2: { destruct (migrate_enumeration_fails env fuel w msg Hc Hs) as (? & E & _).
       congruence. }
  destruct (each_client_returns env fuel (clients_of env) (started env w) Hb) as [w1 Hloop].
  destruct (migrate_finishes env fuel w w1 Hc (ex_intro _ entries Hs) Hloop) as (w2 & E & _).
  rewrite E in Hrun. injection Hrun as <- _.
  apply (each_client_tally env fuel _ _ _ Hb) in Hloop. simpl in *. lia.
Qed.

(** ** A second run over the same directory *)

Lemma Js_or_idempotent v stored : Js.or v (Js.or v stored) = Js.or v stored.
Proof. unfold Js.or. destruct (Js.truthy v); reflexivity. Qed.

Lemma Js_or_self v : Js.or (Some v) (Some v) = Some v.
Proof. unfold Js.or. destruct (Js.truthy _); reflexivity. Qed.

Lemma absorbs_upsert u h stored row :
  upsert_of (MigrationService.dbUserData u h) stored row -> absorbs u row.
Proof.
  intros (next & stamp & ->).
  destruct stored as [old |]; simpl; repeat split; simpl;
    auto using Js_or_idempotent, Js_or_self.
Qed.

Lemma lasting_merged u h row stamp :
  absorbs u row ->
  lasting_user (merged (MigrationService.dbUserData u h) row stamp) = lasting_user row.
Proof.
  intros (H1 & H2 & H3 & H4). unfold lasting_user, merged. simpl.
  rewrite H1, H2, H3, H4. reflexivity.
Qed.

Lemma absorbs_lasting u row row' :
  lasting_user row' = lasting_user row -> absorbs u row -> absorbs u row'.
Proof.
  destruct row, row'. unfold lasting_user, absorbs. simpl.
  intros [= -> -> -> -> -> ->]. tauto.
Qed.

Lemma settled_user_erased c w w' u :
  lasting_user <$> users w' = lasting_user <$> users w ->
  settled_user c w u -> settled_user c w' u.
Proof.
  intros E (row & Hrow & Habs).
  apply (f_equal (fun m => m !! (c, uid u))) in E.
  rewrite !lookup_fmap, Hrow in E. simpl in E.
  destruct (users w' !! (c, uid u)) as [row' |] eqn:Hrow'; [| discriminate].
  simpl in E. exists row'. split; [exact Hrow' |].
  apply (absorbs_lasting u row row'); [congruence | exact Habs].
Qed.

Lemma settled_client_erased env w w' c :
  lasting_client <$> clients w' = lasting_client <$> clients w ->
  lasting_user <$> users w' = lasting_user <$> users w ->
  settled_client env w c -> settled_client env w' c.
Proof.
  intros Ec Eu (row & Hrow & Hus).
  apply (f_equal (fun m => m !! ou c)) in Ec.
  rewrite !lookup_fmap, Hrow in Ec. simpl in Ec.
  destruct (clients w' !! ou c) as [row' |] eqn:Hrow'; [| discriminate].
  simpl in Ec. exists row'. split; [exact Hrow' |].
  assert (Client.col_id row' = Client.col_id row) as ->
    by (destruct row, row'; unfold lasting_client in Ec; simpl in *; congruence).
  intros u Hu. eapply settled_user_erased; [exact Eu | apply Hus, Hu].
Qed.

Lemma healthy_user env c u : healthy env -> user_upsert_fails env c u = false.
Proof.
  intros H. apply user_upsert_fails_false.
  split; [apply healthy_find_user | apply healthy_save_user]; exact H.
Qed.

Lemma healthy_filter env c us :
  healthy env -> filter (fun u => user_upsert_fails env c (uid u) = true) us = [].
Proof.
  intros Henv. induction us as [| u us IH]; [reflexivity |].
  rewrite filter_cons, decide_False; [exact IH |].
  rewrite (healthy_user env c (uid u) Henv). discriminate.
Qed.

(** A pass over users of pairwise different names, none of them refused,
    leaves each of them settled and touches no other row. *)
Lemma users_become_settled env c us w w' :
  healthy env -> upserted env c us w w' ->
  (forall u, u ∈ us -> settled_user c w' u) /\
  (forall k, (forall u, u ∈ us -> k <> (c, uid u)) -> users w' !! k = users w !! k) /\
  failedUsers (stats w') = failedUsers (stats w).
Proof.
  intros Henv (Hf & Hunt & Heach).
  split; [| split; [exact Hunt |]].
  - intros u Hu. specialize (Heach u Hu).
    rewrite (healthy_user env c (uid u) Henv) in Heach.
    destruct Heach as (h & row & _ & Hrow & Hup).
    exists row. split; [exact Hrow | eapply absorbs_upsert, Hup].
  - rewrite Hf, healthy_filter by exact Henv. simpl. lia.
Qed.

(** A pass over settled users changes nothing but credentials and the times
    of the last update. *)
Lemma settled_users_stay env c us w w' :
  healthy env -> upserted env c us w w' ->
  (forall u, u ∈ us -> settled_user c w u) ->
  lasting_user <$> users w' = lasting_user <$> users w.
Proof.
  intros Henv (_ & Hunt & Heach) Hsettled.
  apply map_eq. intros k. rewrite !lookup_fmap.
  destruct (decide (k ∈ (fun u => (c, uid u)) <$> us)) as [Hk | Hk].
  - apply list_elem_of_fmap in Hk as (u & -> & Hu).
    specialize (Heach u Hu).
    rewrite (healthy_user env c (uid u) Henv) in Heach.
    destruct Heach as (h & row' & _ & Hrow' & (next & stamp & ->)).
    destruct (Hsettled u Hu) as (row & Hrow & Habs).
    rewrite Hrow', Hrow. simpl. f_equal. apply lasting_merged, Habs.
  - rewrite Hunt; [reflexivity |].
    intros u Hu ->. apply Hk. apply list_elem_of_fmap. eauto.
Qed.

(** One turn of the client loop in a healthy environment, for a client whose
    users have pairwise different names. *)
Lemma healthy_client_turn env fuel c cs w :
  healthy env -> batching_ok env fuel -> isConnected w = true ->
  NoDup (uid <$> users_of env (ou c)) ->
  let row := client_row (next_client_id w) (now env (clock_reads w))
               (clients w !! ou c) in
  exists w2 w1,
    MigrationService.each_client env fuel (c :: cs) w =
      MigrationService.each_client env fuel cs w1 /\
    users w2 = users w /\
    upserted env (Client.col_id row) (users_of env (ou c)) w2 w1 /\
    clients w1 = <[ou c := row]> (clients w) /\
    next_client_id w1 = match clients w !! ou c with
                        | Some _ => next_client_id w
                        | None => S (next_client_id w)
                        end /\
    isConnected w1 = true /\
    failedClients (stats w1) = failedClients (stats w) /\
    failedUsers (stats w1) = failedUsers (stats w).
Proof.
  intros Henv [(b & Hsize & Hb) Hfuel] Hcon Hnd row.
  destruct (healthy_persons env Henv ("ou=" +:+ ou c +:+ "," +:+ ldapBaseDn env))
    as [entries Hs].
  simpl. unfold bind at 1. unfold try_catch, MigrationService.processClient.
  unfold bind at 1. unfold bind at 1.
  rewrite (upsertClient_ok env (ou c) w
             (healthy_find_client env Henv _) (healthy_save_client env Henv _)).
  fold row. unfold bind at 1.
  erewrite searchUsers_ok by (first [exact Hs | exact Hcon]).
  unfold bind at 1. unfold MigrationService.update_stats at 1. unfold modify at 1.
  match goal with
  | |- context [MigrationService.batches env fuel ?us ?id _ ?w0] =>
      destruct (batches_spec env id us b Hsize Hb fuel 0 w0) as (w3 & E & T & U);
        [| set (w2 := w0) in * ]
  end.
  { pose proof (length_users_of env (ou c) entries Hs). specialize (Hfuel _ _ Hs). lia. }
  change (Some (Z.of_nat 0)) with (Some 0%Z) in E. rewrite E.
  pose proof (batches_frame env _ _ _ _ _ _ _ E) as (F1 & _ & F3 & F4 & _).
  specialize (U Hnd). rewrite drop_0 in U, T.
  destruct (users_become_settled env _ _ _ _ Henv U) as (_ & _ & Hfailed).
  destruct T as (_ & _ & _ & T4 & _).
  exists w2, (set_stats (MigrationService.incr_successfulClients (stats w3)) w3).
  unfold MigrationService.update_stats, modify.
  split; [reflexivity |]. split; [reflexivity |].
  split.
  { destruct U as (U1 & U2 & U3). split; [exact U1 | split; [exact U2 | exact U3]]. }
  simpl in *. rewrite F1, F3, F4, T4, Hfailed. repeat split. exact Hcon.
Qed.

Lemma well_formed_ext w w' :
  clients w' = clients w -> next_client_id w' = next_client_id w ->
  well_formed w -> well_formed w'.
Proof.
  intros Hc Hn [Hfresh Hinj]. split; rewrite ?Hc, ?Hn; assumption.
Qed.

(** An upsert of a client keeps the primary key of [clients] sound. *)
Lemma well_formed_upsert w w1 name stamp :
  well_formed w ->
  clients w1 =
    <[name := client_row (next_client_id w) stamp (clients w !! name)]> (clients w) ->
  next_client_id w1 = match clients w !! name with
                      | Some _ => next_client_id w
                      | None => S (next_client_id w)
                      end ->
  well_formed w1.
Proof.
  intros [Hfresh Hinj] Hc Hn.
  destruct (clients w !! name) as [stored |] eqn:E; simpl in Hc.
  - split; rewrite Hc, ?Hn.
    + intros k row. rewrite lookup_insert. case_decide.
      * intros [= <-]. simpl. eapply Hfresh, E.
      * apply Hfresh.
    + intros k1 k2 c1 c2. rewrite !lookup_insert.
      repeat case_decide; subst.
      * reflexivity.
      * intros [= <-] H2. simpl. apply (Hinj _ _ _ _ E H2).
      * intros H1 [= <-]. simpl. apply (Hinj _ _ _ _ H1 E).
      * apply Hinj.
  - split; rewrite Hc, ?Hn.
    + intros k row. rewrite lookup_insert. case_decide.
      * intros [= <-]. simpl. lia.
      * intros Hk. apply Hfresh in Hk. lia.
    + intros k1 k2 c1 c2. rewrite !lookup_insert.
      repeat case_decide; subst.
      * reflexivity.
      * intros [= <-] H2 Hid. apply Hfresh in H2. simpl in Hid. lia.
      * intros H1 [= <-] Hid. apply Hfresh in H1. simpl in Hid. lia.
      * apply Hinj.
Qed.

(** A first run over clients of pairwise different names, each with users of
    pairwise different names, returns with all of them settled. *)
Lemma clients_become_settled env fuel cs w :
  healthy env -> batching_ok env fuel ->
  (forall c, NoDup (uid <$> users_of env c)) ->
  NoDup (ou <$> cs) -> well_formed w -> isConnected w = true ->
  exists w',
    MigrationService.each_client env fuel cs w = (Ok tt, w') /\
    well_formed w' /\
    (forall k, k ∉ ou <$> cs -> clients w' !! k = clients w !! k) /\
    (forall c, c ∈ cs -> settled_client env w' c) /\
    (forall i n,
       (forall c row, c ∈ cs -> clients w' !! ou c = Some row -> Client.col_id row <> i) ->
       users w' !! (i, n) = users w !! (i, n)).
Proof.
  intros Henv Hb Hus. revert w.
  induction cs as [| c cs IH]; intros w Hnd Hwf Hcon.
  { exists w. simpl. split; [reflexivity |]. split; [exact Hwf |].
    split; [reflexivity |]. split; [intros c Hc; inversion Hc | reflexivity]. }
  simpl in Hnd. apply NoDup_cons in Hnd as [Hc Hnd].
  destruct (healthy_client_turn env fuel c cs w Henv Hb Hcon (Hus (ou c)))
    as (w2 & w1 & -> & Hu2 & Hup & Hc1 & Hn1 & Hcon1 & _).
  set (row := client_row (next_client_id w) (now env (clock_reads w))
                (clients w !! ou c)) in *.
  pose proof (well_formed_upsert w w1 (ou c) _ Hwf Hc1 Hn1) as Hwf1.
  destruct (IH w1 Hnd Hwf1 Hcon1) as (w' & -> & Hwf' & Hcf & Hsettled & Huf).
  destruct (users_become_settled env (Client.col_id row) (users_of env (ou c)) w2 w1
              Henv Hup) as (Hs2 & Hf2 & _).
  assert (clients w' !! ou c = Some row) as Hrow.
  { rewrite Hcf by exact Hc. rewrite Hc1. apply lookup_insert_eq. }
  assert (forall c' row', c' ∈ cs -> clients w' !! ou c' = Some row' ->
                          Client.col_id row' <> Client.col_id row) as Hother.
  { intros c' row' Hc' Hrow' Hid. apply Hc.
    rewrite (wf_client_id_inj w' Hwf' _ _ _ _ Hrow Hrow' (eq_sym Hid)).
    apply list_elem_of_fmap_2, Hc'. }
  exists w'. split; [reflexivity |]. split; [exact Hwf' |].
  split; [| split].
  - intros k Hk. rewrite Hcf, Hc1.
    + apply lookup_insert_ne. intros <-. apply Hk. left.
    + intros Hin. apply Hk. right. exact Hin.
  - intros c' [-> | Hc']%elem_of_cons; [| apply Hsettled, Hc'].
    exists row. split; [exact Hrow |].
    intros u Hu. destruct (Hs2 u Hu) as (r & Hr & Habs).
    exists r. split; [| exact Habs].
    rewrite Huf; [exact Hr |]. exact Hother.
  - intros i n Hi. rewrite Huf, Hf2, Hu2; [reflexivity | |].
    + intros u _ [= E _]. apply (Hi c row); [left | exact Hrow | exact (eq_sym E)].
    + intros c' row' Hc'. apply Hi. right. exact Hc'.
Qed.

Lemma lasting_touched stored stamp :
  lasting_client (touched stored stamp) = lasting_client stored.
Proof. reflexivity. Qed.

(** A run over settled clients returns and changes nothing but credentials
    and the times of the last update. *)
Lemma settled_clients_stay env fuel cs w :
  healthy env -> batching_ok env fuel ->
  (forall c, NoDup (uid <$> users_of env c)) ->
  isConnected w = true ->
  (forall c, c ∈ cs -> settled_client env w c) ->
  exists w',
    MigrationService.each_client env fuel cs w = (Ok tt, w') /\
    lasting_client <$> clients w' = lasting_client <$> clients w /\
    lasting_user <$> users w' = lasting_user <$> users w /\
    next_client_id w' = next_client_id w.
Proof.
  intros Henv Hb Hus. revert w. induction cs as [| c cs IH]; intros w Hcon Hsettled.
  { exists w. repeat split. }
  destruct (healthy_client_turn env fuel c cs w Henv Hb Hcon (Hus (ou c)))
    as (w2 & w1 & -> & Hu2 & Hup & Hc1 & Hn1 & Hcon1 & _).
  destruct (Hsettled c) as (row & Hrow & Husers); [left |].
  rewrite Hrow in Hup, Hc1, Hn1. simpl in Hup, Hc1.
  assert (lasting_client <$> clients w1 = lasting_client <$> clients w) as Hec.
  { rewrite Hc1, fmap_insert, lasting_touched.
    apply insert_id. rewrite lookup_fmap, Hrow. reflexivity. }
  assert (lasting_user <$> users w1 = lasting_user <$> users w) as Heu.
  { rewrite <- Hu2. eapply settled_users_stay; [exact Henv | exact Hup |].
    intros u Hu. destruct (Husers u Hu) as (r & Hr & Habs).
    exists r. split; [rewrite Hu2; exact Hr | exact Habs]. }
  destruct (IH w1 Hcon1) as (w' & -> & Hc' & Hu' & Hn').
  - intros c' Hc'. eapply settled_client_erased; [exact Hec | exact Heu |].
    apply Hsettled. right. exact Hc'.
  - exists w'. split; [reflexivity |]. repeat split; congruence.
Qed.

Lemma healthy_clients_do_not_fail env fuel cs w w' :
  healthy env -> batching_ok env fuel ->
  (forall c, NoDup (uid <$> users_of env c)) ->
  isConnected w = true ->
  MigrationService.each_client env fuel cs w = (Ok tt, w') ->
  failedClients (stats w') = failedClients (stats w) /\
  failedUsers (stats w') = failedUsers (stats w).
Proof.
  intros Henv Hb Hus. revert w. induction cs as [| c cs IH]; intros w Hcon.
  { simpl. intros [= <-]. split; reflexivity. }
  destruct (healthy_client_turn env fuel c cs w Henv Hb Hcon (Hus (ou c)))
    as (w2 & w1 & -> & _ & _ & _ & _ & Hcon1 & F1 & F2).
  intros Hrest. apply (IH w1 Hcon1) in Hrest. lia.
Qed.

Lemma healthy_connects env : healthy env -> connection_error env = None.
Proof.
  intros H. unfold connection_error.
  rewrite (healthy_bind env H), (healthy_tables env H). reflexivity.
Qed.

(** A healthy run over users of pairwise different names returns with every
    record tallied as a success. *)
Lemma healthy_run env fuel w :
  healthy env -> batching_ok env fuel ->
  (forall c, NoDup (uid <$> users_of env c)) ->
  exists w1 w',
    MigrationService.each_client env fuel (clients_of env) (started env w) = (Ok tt, w1) /\
    MigrationService.migrate env fuel w = (Ok (result_of env (stats w1)), w') /\
    all_succeeded (stats w1) /\
    clients w' = clients w1 /\ users w' = users w1 /\
    next_client_id w' = next_client_id w1.
Proof.
  intros Henv Hb Hus.
  destruct (each_client_returns env fuel (clients_of env) (started env w) Hb) as [w1 Hloop].
  destruct (migrate_finishes env fuel w w1 (healthy_connects env Henv)
              (healthy_units env Henv) Hloop) as (w' & Hrun & _ & Hc & Hu & Hn & _).
  exists w1, w'. repeat (split; [assumption |]).
  split; [| repeat split; assumption].
  pose proof (each_client_tally env fuel _ _ _ Hb Hloop) as T.
  pose proof (healthy_clients_do_not_fail env fuel _ (started env w) _ Henv Hb Hus
                eq_refl Hloop) as F.
  simpl in T, F. unfold all_succeeded. lia.
Qed.

(** ** The dry-run flag *)

Lemma batches_ignore_dryRun b env fuel users c i :
  MigrationService.batches (with_dryRun b env) fuel users c i =
  MigrationService.batches env fuel users c i.
Proof.
  revert i. induction fuel as [| fuel IH]; intros i; simpl; [reflexivity |].
  destruct (Js.lt _ _); [| reflexivity].
  change (fun user => MigrationService.processUser (with_dryRun b env) user c)
    with (fun user => MigrationService.processUser env user c).
  rewrite IH. reflexivity.
Qed.

Lemma processClient_ignores_dryRun b env fuel c w :
  MigrationService.processClient (with_dryRun b env) fuel c w =
  MigrationService.processClient env fuel c w.
Proof.
  unfold MigrationService.processClient, bind.
  change (DatabaseService.upsertClient (with_dryRun b env))
    with (DatabaseService.upsertClient env).
  change (LdapService.searchUsers (with_dryRun b env)) with (LdapService.searchUsers env).
  destruct (DatabaseService.upsertClient env _ _ w) as [[dbClient | ? |] w1];
    try reflexivity.
  destruct (LdapService.searchUsers env _ w1) as [[users | ? |] w2]; try reflexivity.
  rewrite batches_ignore_dryRun. reflexivity.
Qed.

Lemma each_client_ignores_dryRun b env fuel cs w :
  MigrationService.each_client (with_dryRun b env) fuel cs w =
  MigrationService.each_client env fuel cs w.
Proof.
  revert w. induction cs as [| c cs IH]; intros w; simpl; [reflexivity |].
  unfold bind at 1 3. unfold try_catch, bind.
  rewrite processClient_ignores_dryRun.
  destruct (MigrationService.processClient env fuel c w) as [[[] | ? |] w1]; simpl;
    try apply IH; reflexivity.
Qed.

(** The value of [dryRun] reaches the result and nothing else: the run leaves
    the same state whether the flag is set or not. *)
Lemma dry_run_is_ignored b env fuel w :
  snd (MigrationService.migrate (with_dryRun b env) fuel w) =
  snd (MigrationService.migrate env fuel w).
Proof.
  unfold MigrationService.migrate, MigrationService.update_stats,
    try_finally, try_catch, bind, modify, get, ret, throw.
  change (LdapService.connect (with_dryRun b env)) with (LdapService.connect env).
  change (LdapService.disconnect (with_dryRun b env)) with (LdapService.disconnect env).
  change (DatabaseService.initializeTables (with_dryRun b env))
    with (DatabaseService.initializeTables env).
  change (LdapService.searchClients (with_dryRun b env)) with (LdapService.searchClients env).
  change (DatabaseService.logMigrationRun (with_dryRun b env))
    with (DatabaseService.logMigrationRun env).
  destruct (LdapService.connect env _) as [[[] | ? | ] w1]; try reflexivity.
  destruct (DatabaseService.initializeTables env _) as [[[] | ? | ] w2]; try reflexivity.
  destruct (LdapService.searchClients env _) as [[cs | ? | ] w3]; try reflexivity.
  rewrite each_client_ignores_dryRun.
  destruct (MigrationService.each_client env fuel cs _) as [[[] | ? | ] w5]; try reflexivity.
  destruct (DatabaseService.logMigrationRun env _ _) as [[[] | ? | ] w6]; try reflexivity.
  destruct (LdapService.disconnect env _) as [[[] | ? | ] w7]; reflexivity.
Qed.

(** ** The claims *)

(** C1 (dry run). With [DRY_RUN=true] the run of the example writes to the
    store as a live run does: the two tables, empty before, hold two client
    rows and three user rows afterwards. The result carries [dryRun = true]
    and the would-be counts, and the summary row is recorded with
    [dry_run = false]. Whatever the directory and the store, a dry run leaves
    the state that the live run leaves. *)
Theorem dry_run_writes_to_the_store :
  dryRun Example.dry = true /\
  fst (DatabaseService.getMigrationStats Example.empty) = Ok (0, 0) /\
  fst (MigrationService.migrate Example.dry 8 Example.empty) =
    Ok {| success := true;
          result_stats :=
            {| totalClients := 2; totalUsers := 3;
               successfulClients := 2; successfulUsers := 3;
               failedClients := 0; failedUsers := 0; errors := [] |};
          result_dryRun := true |} /\
  fst (DatabaseService.getMigrationStats (Example.after Example.dry Example.empty)) =
    Ok (2, 3) /\
  map dry_run (migration_log (Example.after Example.dry Example.empty)) = [false] /\
  (forall env fuel w,
     snd (MigrationService.migrate (with_dryRun true env) fuel w) =
     snd (MigrationService.migrate (with_dryRun false env) fuel w)).
Proof.
  repeat (split; [vm_compute; reflexivity |]).
  intros env fuel w. rewrite !dry_run_is_ignored. reflexivity.
Qed.

(** C2 (unrecognized credential). The credential [plaintext] starts with none
    of the five tags, and [convertLdapPassword] answers the hash of a random
    password for it, not [null]. *)
Theorem untagged_credential_is_converted :
  PasswordUtils.isLdapHash "plaintext" = false /\
  PasswordUtils.extractHashFromLdap "plaintext" = Some "plaintext" /\
  fst (PasswordUtils.convertLdapPassword Example.live "plaintext" Example.empty) =
    Ok (Some "$2b$12$.AHOVcjqx4@AH").
Proof. repeat split; vm_compute; reflexivity. Qed.

(** C4 (merge, preserve existing). An upsert onto a stored user that neither
    the lookup nor the save refuses returns the updated row and stores it:
    each of given name, family name, email and target credential is the
    incoming value when that is non-empty, and the stored value when the
    incoming one is empty or missing. The generated key is kept and every
    other row is left as it was. *)
Theorem upsert_merges_into_stored_user env (userData : Incoming.t) clientId w stored :
  users w !! (clientId, Incoming.uid userData) = Some stored ->
  find_user_error env clientId (Incoming.uid userData) = None ->
  save_user_error env clientId (Incoming.uid userData) = None ->
  exists user w',
    DatabaseService.upsertUser env userData clientId w = (Ok user, w') /\
    users w' !! (clientId, Incoming.uid userData) = Some (User.write user) /\
    overwritten_or_kept (Incoming.givenName userData) (User.col_first_name stored)
      (User.first_name user) /\
    overwritten_or_kept (Incoming.sn userData) (User.col_last_name stored)
      (User.last_name user) /\
    overwritten_or_kept (Incoming.mail userData) (User.col_email stored)
      (User.email user) /\
    overwritten_or_kept (Incoming.password_hash userData)
      (User.col_password_hash stored) (User.password_hash user) /\
    User.id user = User.col_id stored /\
    (forall k, k <> (clientId, Incoming.uid userData) -> users w' !! k = users w !! k).
Proof.
  intros Hstored Hf Hs.
  assert (user_upsert_fails env clientId (Incoming.uid userData) = false) as F
    by (apply user_upsert_fails_false; split; assumption).
  rewrite (upsertUser_ok env userData clientId w F), Hstored. simpl.
  eexists _, _. split; [reflexivity |]. simpl.
  split; [apply lookup_insert_eq |].
  repeat (split; [apply Js_or_overwritten_or_kept |]).
  split; [reflexivity |].
  intros k Hk. apply lookup_insert_ne. congruence.
Qed.

Lemma upsert_merges_into_stored_user_witness :
  exists user w',
    DatabaseService.upsertUser Example.live
      (Incoming.mk "user1" (Some "Ada") None (Some "") None "uid=user1,ou=moved")
      1 (Example.after Example.live Example.empty) = (Ok user, w') /\
    User.first_name user = Some "Ada" /\
    User.email user = Some "a@x.com".
Proof.
  destruct (upsert_merges_into_stored_user Example.live
              (Incoming.mk "user1" (Some "Ada") None (Some "") None "uid=user1,ou=moved")
              1 (Example.after Example.live Example.empty)
              (User.cols 2 (Some "") (Some "") (Some "a@x.com")
                 (Some "$2b$12$.AHOVcjqx4@AH")
                 "uid=user1,ou=clientA,ou=clients,dc=example,dc=com" 102 102))
    as (user & w' & E & _ & (Hgiven & _) & _ & (_ & Hmail) & _).
  - vm_compute. reflexivity.
  - reflexivity.
  - reflexivity.
  - exists user, w'. split; [exact E |]. split.
    + apply (Hgiven "Ada"); [reflexivity | discriminate].
    + apply Hmail. right. reflexivity.
Defined.

Lemma each_client_app env fuel before rest w w0 :
  MigrationService.each_client env fuel before w = (Ok tt, w0) ->
  MigrationService.each_client env fuel (before ++ rest) w =
    MigrationService.each_client env fuel rest w0.
Proof.
  revert w. induction before as [| c before IH]; intros w; simpl.
  - intros [= <-]. reflexivity.
  - unfold bind at 1 3.
    destruct (try_catch _ _ w) as [[[] | msg |] w1]; try discriminate.
    apply IH.
Qed.

(** C5 (client failure). Wherever it stands in the list, a client whose upsert
    raises is tallied as failed, with one message; its turn of the loop makes
    the one call of [upsertClient] and nothing else (no search of its users,
    no call of [upsertUser], no change of either table), and the loop goes
    on with the clients after it. *)
Theorem failed_client_is_skipped env fuel before client rest w w0 :
  client_upsert_fails env (ou client) ->
  MigrationService.each_client env fuel before w = (Ok tt, w0) ->
  exists msg w1,
    MigrationService.each_client env fuel (before ++ client :: rest) w =
      MigrationService.each_client env fuel rest w1 /\
    stats w1 = MigrationService.fail_client ("Client " +:+ ou client +:+ ": " +:+ msg) (stats w0) /\
    failedClients (stats w1) = S (failedClients (stats w0)) /\
    successfulClients (stats w1) = successfulClients (stats w0) /\
    trace w1 = trace w0 ++ [EvUpsertClient (ou client)] /\
    user_upserts (trace w1) = user_upserts (trace w0) /\
    clients w1 = clients w0 /\ users w1 = users w0.
Proof.
  intros Hfail Hbefore.
  rewrite (each_client_app env fuel before (client :: rest) w w0 Hbefore). simpl.
  unfold bind at 1. unfold try_catch, MigrationService.processClient.
  unfold bind at 1. unfold bind at 1.
  destruct (upsertClient_fails env (ou client) None w0 Hfail) as [msg ->].
  unfold MigrationService.update_stats, modify.
  eexists _, _. split; [reflexivity |]. simpl.
  repeat split.
  unfold user_upserts. rewrite List.filter_app. simpl. apply app_nil_r.
Qed.

Lemma failed_client_is_skipped_witness :
  exists msg w1,
    MigrationService.each_client Example.clientA_fails 8
      ([] ++ {| ou := "clientA"; ou_dn := "ou=clientA" |}
          :: [ {| ou := "clientB"; ou_dn := "ou=clientB" |} ])
      (started Example.clientA_fails Example.empty) =
      MigrationService.each_client Example.clientA_fails 8
        [ {| ou := "clientB"; ou_dn := "ou=clientB" |} ] w1 /\
    stats w1 =
      MigrationService.fail_client ("Client " +:+ "clientA" +:+ ": " +:+ msg)
        (stats (started Example.clientA_fails Example.empty)) /\
    users w1 = users (started Example.clientA_fails Example.empty).
Proof.
  destruct (failed_client_is_skipped Example.clientA_fails 8 []
              {| ou := "clientA"; ou_dn := "ou=clientA" |}
              [ {| ou := "clientB"; ou_dn := "ou=clientB" |} ]
              (started Example.clientA_fails Example.empty)
              (started Example.clientA_fails Example.empty))
    as (msg & w1 & E & Hs & _ & _ & _ & _ & _ & Hu).
  - right. vm_compute. discriminate.
  - reflexivity.
  - exists msg, w1. repeat split; assumption.
Defined.

(** C6 (failure isolation in a batch). The calls of a batch hand back their
    promises, and whatever the order in which these take their turns,
    [Promise.allSettled] returns with every promise fulfilled. Every user of
    the batch is tallied once: as a failure, with the one message of the
    error its processing caught, or as a success. A user the database
    refuses is a failure. A user that is a success has its row afterwards.
    For a user whose name no other user of the batch has, the others do not
    matter: it is a failure exactly when the database refuses its own
    lookup or save, and then its row is as before the batch; otherwise its
    row is what its own upsert makes of the row it had before the batch.
    The next turn of the batch loop starts from the state in which every
    promise of the batch is settled. *)
Theorem batch_failure_is_isolated env clientId (batch : list UserData) w :
  exists promises w1,
    call_all (map (fun user => MigrationService.processUser env user clientId) batch) w =
      (Ok promises, w1) /\
    forall order,
      exists outcomes w' verdicts,
        allSettled promises order w1 = (Ok outcomes, w') /\
        length outcomes = length batch /\
        Forall fulfilled outcomes /\
        length verdicts = length batch /\
        failedUsers (stats w') = failedUsers (stats w) + length (caught verdicts) /\
        successfulUsers (stats w') + length (caught verdicts) =
          successfulUsers (stats w) + length batch /\
        (exists messages,
           errors (stats w') = errors (stats w) ++ messages /\
           messages ≡ₚ caught (zip_with (fun u v => complaint u <$> v) batch verdicts)) /\
        (forall i u v, batch !! i = Some u -> verdicts !! i = Some v ->
           match v with
           | Some msg =>
               (exists e, msg = refusal u e) /\
               (lonely batch i ->
                user_upsert_fails env clientId (uid u) = true /\
                users w' !! (clientId, uid u) = users w !! (clientId, uid u))
           | None =>
               user_upsert_fails env clientId (uid u) = false /\
               is_Some (users w' !! (clientId, uid u)) /\
               (lonely batch i ->
                exists h row,
                  converted env u h /\
                  users w' !! (clientId, uid u) = Some row /\
                  upsert_of (MigrationService.dbUserData u h)
                    (users w !! (clientId, uid u)) row)
           end) /\
        (forall users i fuel,
           batch = Js.slice users i (Js.add i (batchSize env)) ->
           Js.lt i (Some (Z.of_nat (length users))) = true ->
           order = completion_order env (trace w1) ->
           MigrationService.batches env (S fuel) users clientId i w =
             MigrationService.batches env fuel users clientId
               (Js.add i (batchSize env)) w').
Proof.
  destruct (batch_settles env clientId batch w) as (promises & w1 & E & _ & Hall).
  exists promises, w1. split; [exact E |].
  intros order. destruct (Hall order) as (w' & verdicts & F & Hpost).
  exists ((fun _ => Ok tt) <$> batch), w', verdicts.
  split; [exact F |].
  split; [apply length_fmap |].
  split; [apply Forall_fmap, Forall_forall; intros; exact I |].
  destruct Hpost as (Hlen & _ & _ & _ & _ & H5 & H6 & Hmsg & _ & _ & Heach).
  repeat (split; [assumption |]).
  intros users i fuel -> Hlt ->. simpl. rewrite Hlt.
  unfold bind at 1. rewrite E. unfold bind at 1. unfold get at 1.
  unfold bind at 1. rewrite F. reflexivity.
Qed.

(** In the example in which the directory lists [user1] twice, both lookups
    find no row, the first save creates it and the second is refused: one
    success and one failure, and the client is a success. *)
Example namesakes_race :
  fst (MigrationService.migrate Example.twins 8 Example.empty) =
    Ok {| success := false;
          result_stats :=
            {| totalClients := 1; totalUsers := 2;
               successfulClients := 1; successfulUsers := 1;
               failedClients := 0; failedUsers := 1;
               errors :=
                 ["User user1: User upsert failed for user1: " +:+
                  "duplicate key value violates unique constraint"] |};
          result_dryRun := false |} /\
  size (users (Example.after Example.twins Example.empty)) = 1.
Proof. split; vm_compute; reflexivity. Qed.

(** In the example, with the save of [user1] refused: [user2] of the same
    batch and [user3] are tallied as successes, and so are both clients. *)
Example one_user_fails :
  fst (MigrationService.migrate Example.user1_fails 8 Example.empty) =
    Ok {| success := false;
          result_stats :=
            {| totalClients := 2; totalUsers := 3;
               successfulClients := 2; successfulUsers := 2;
               failedClients := 0; failedUsers := 1;
               errors := ["User user1: User upsert failed for user1: value too long"] |};
          result_dryRun := false |}.
Proof. vm_compute. reflexivity. Qed.

(** C7 (aggregate success). The result of a run that returns has
    [success = true] exactly when no client and no user failed. *)
Theorem success_iff_no_failure env fuel w r w' :
  MigrationService.migrate env fuel w = (Ok r, w') ->
  success r = true <->
  failedClients (result_stats r) = 0 /\ failedUsers (result_stats r) = 0.
Proof.
  unfold MigrationService.migrate. intros H.
  apply bind_Ok_inv in H as (_ & w0 & _ & H).
  apply try_finally_Ok_inv in H as (w1 & H & _).
  apply try_catch_rethrow_Ok_inv in H.
  apply bind_Ok_inv in H as (_ & ? & _ & H).
  apply bind_Ok_inv in H as (_ & ? & _ & H).
  apply bind_Ok_inv in H as (cs & ? & _ & H).
  apply bind_Ok_inv in H as (_ & ? & _ & H).
  apply bind_Ok_inv in H as (_ & ? & _ & H).
  apply bind_Ok_inv in H as (s & ? & _ & H).
  apply bind_Ok_inv in H as (_ & ? & _ & H).
  injection H as <- _. simpl.
  rewrite andb_true_iff, !Nat.eqb_eq. tauto.
Qed.

Lemma success_iff_no_failure_witness :
  success (result_of Example.user1_fails
             (stats (Example.after Example.user1_fails Example.empty))) = true <->
  failedClients (stats (Example.after Example.user1_fails Example.empty)) = 0 /\
  failedUsers (stats (Example.after Example.user1_fails Example.empty)) = 0.
Proof.
  apply (success_iff_no_failure Example.user1_fails 8 Example.empty
           (result_of Example.user1_fails
              (stats (Example.after Example.user1_fails Example.empty)))
           (Example.after Example.user1_fails Example.empty)).
  vm_compute. reflexivity.
Defined.

(** *** The example satisfies the assumptions of the theorems *)

Lemma example_persons d :
  exists entries, Example.persons d = Done entries /\ length entries <= 8.
Proof.
  unfold Example.persons.
  destruct (String.eqb d _); [| destruct (String.eqb d _)];
    eexists; (split; [reflexivity | simpl; lia]).
Qed.

Lemma example_healthy : healthy Example.live.
Proof.
  split; simpl; try reflexivity.
  - eexists. reflexivity.
  - intros d. destruct (example_persons d) as (entries & E & _). eauto.
Qed.

Lemma example_batching : batching_ok Example.live 8.
Proof.
  split.
  - exists 100%Z. split; [reflexivity | lia].
  - intros d entries. simpl. intros E.
    destruct (example_persons d) as (entries' & E' & Hlen). congruence.
Qed.

Lemma example_distinct_keys : distinct_keys Example.live.
Proof.
  split.
  - apply (bool_decide_unpack _). vm_compute. exact I.
  - intros c. unfold users_of. simpl. unfold Example.persons.
    destruct (String.eqb _ _); [| destruct (String.eqb _ _)];
      apply (bool_decide_unpack _); vm_compute; exact I.
Qed.

Lemma example_well_formed : well_formed Example.empty.
Proof. split; simpl; intros *; rewrite lookup_empty; discriminate. Qed.

(** C3, as the specification states it, fails: the second run gives every
    user with a source credential a new target credential, so the store
    after two runs differs from the store after one. *)
Lemma rerun_replaces_credentials :
  let w1 := Example.after Example.live Example.empty in
  let w2 := Example.after Example.live w1 in
  users w1 !! (1, "user1") ≫= User.col_password_hash = Some "$2b$12$.AHOVcjqx4@AH" /\
  users w2 !! (1, "user1") ≫= User.col_password_hash = Some "$2b$12$ii.cjqx4@AHOVcj" /\
  users w2 <> users w1.
Proof.
  split; [vm_compute; reflexivity |]. split; [vm_compute; reflexivity |].
  intros E.
  apply (f_equal (fun m => m !! (1, "user1") ≫= User.col_password_hash)) in E.
  vm_compute in E. discriminate.
Qed.

(** C3, amended (idempotent re-run). In a healthy environment with a positive
    batch size, over a directory whose client names are pairwise different
    and whose usernames are pairwise different within a client, two runs in
    a row both return with every client and every user tallied as a success
    and none as a failure, whatever the order in which the promises of a
    batch take their turns. The second run creates no row and generates no
    client key: it leaves every column of the [clients] table but
    [updated_at], and every column of the [users] table but the target
    credential and [updated_at], as the first run left them, generated keys
    included. *)
Theorem rerun_creates_no_rows env fuel w :
  healthy env -> batching_ok env fuel -> distinct_keys env -> well_formed w ->
  exists r1 w1 r2 w2,
    MigrationService.migrate env fuel w = (Ok r1, w1) /\
    MigrationService.migrate env fuel w1 = (Ok r2, w2) /\
    all_succeeded (result_stats r1) /\ all_succeeded (result_stats r2) /\
    lasting_client <$> clients w2 = lasting_client <$> clients w1 /\
    lasting_user <$> users w2 = lasting_user <$> users w1 /\
    size (clients w2) = size (clients w1) /\
    size (users w2) = size (users w1) /\
    next_client_id w2 = next_client_id w1.
Proof.
  intros Henv Hb [Hcs Hus] Hwf.
  destruct (healthy_run env fuel w Henv Hb Hus)
    as (l1 & w1 & Hloop1 & Hrun1 & Hall1 & Hc1 & Hu1 & Hn1).
  destruct (healthy_run env fuel w1 Henv Hb Hus)
    as (l2 & w2 & Hloop2 & Hrun2 & Hall2 & Hc2 & Hu2 & Hn2).
  destruct (clients_become_settled env fuel (clients_of env) (started env w)
              Henv Hb Hus Hcs) as (l1' & Hloop1' & _ & _ & Hsettled & _);
    [apply (well_formed_ext w); [reflexivity.. | exact Hwf] | reflexivity |].
  rewrite Hloop1 in Hloop1'. injection Hloop1' as <-.
  destruct (settled_clients_stay env fuel (clients_of env) (started env w1)
              Henv Hb Hus eq_refl) as (l2' & Hloop2' & Hc & Hu & Hn).
  { intros c Hin. apply (settled_client_erased env l1);
      [simpl; rewrite Hc1; reflexivity | simpl; rewrite Hu1; reflexivity |].
    apply Hsettled, Hin. }
  rewrite Hloop2 in Hloop2'. injection Hloop2' as <-.
  simpl in Hc, Hu, Hn.
  assert (lasting_client <$> clients w2 = lasting_client <$> clients w1) as Ec
    by congruence.
  assert (lasting_user <$> users w2 = lasting_user <$> users w1) as Eu
    by congruence.
  exists (result_of env (stats l1)), w1, (result_of env (stats l2)), w2.
  repeat (split; [assumption |]).
  split; [| split; [| congruence]].
  - rewrite <- (map_size_fmap lasting_client (clients w2)), Ec. apply map_size_fmap.
  - rewrite <- (map_size_fmap lasting_user (users w2)), Eu. apply map_size_fmap.
Qed.

Lemma rerun_creates_no_rows_witness :
  exists r1 w1 r2 w2,
    MigrationService.migrate Example.live 8 Example.empty = (Ok r1, w1) /\
    MigrationService.migrate Example.live 8 w1 = (Ok r2, w2) /\
    all_succeeded (result_stats r1) /\ all_succeeded (result_stats r2) /\
    lasting_client <$> clients w2 = lasting_client <$> clients w1 /\
    lasting_user <$> users w2 = lasting_user <$> users w1 /\
    size (clients w2) = size (clients w1) /\
    size (users w2) = size (users w1) /\
    next_client_id w2 = next_client_id w1.
Proof.
  exact (rerun_creates_no_rows Example.live 8 Example.empty
           example_healthy example_batching example_distinct_keys example_well_formed).
Defined.

(** C8, as the specification states it, fails: the connection step goes
    through, the search of the client units raises, and [migrate] throws
    without a summary. *)
Lemma no_summary_when_enumeration_fails :
  connection_error Example.no_base = None /\
  fst (MigrationService.migrate Example.no_base 8 Example.empty) =
    Throw "LDAP client search failed: No Such Object" /\
  migration_log (Example.after Example.no_base Example.empty) = [].
Proof. repeat split; vm_compute; reflexivity. Qed.

Lemma migrate_Ok_inv env fuel w r w' :
  MigrationService.migrate env fuel w = (Ok r, w') ->
  migration_log w' =
    migration_log w ++
      match insert_log_error env with
      | None => [summary_row (result_stats r)]
      | Some _ => []
      end.
Proof.
  intros Hrun.
  destruct (connection_error env) as [msg |] eqn:Hc.
  { destruct (migrate_connection_fails env fuel w msg Hc) as (? & E & _). congruence. }
  destruct (search_units env (ldapBaseDn env)) as [entries | msg] eqn:Hs.
  2: { destruct (migrate_enumeration_fails env fuel w msg Hc Hs) as (? & E & _).
       congruence. }
  pose proof Hrun as Hrun'.
  rewrite (migrate_connected env fuel w Hc (ex_intro _ entries Hs)) in Hrun'.
  apply try_finally_Ok_inv in Hrun' as (? & Hbody & _).
  apply try_catch_rethrow_Ok_inv in Hbody.
  apply bind_Ok_inv in Hbody as ([] & w1 & Hloop & _).
  destruct (migrate_finishes env fuel w w1 Hc (ex_intro _ entries Hs) Hloop)
    as (w2 & E & _ & _ & _ & _ & _ & Hlog & _).
  rewrite E in Hrun. injection Hrun as <- <-. exact Hlog.
Qed.

(** C8, amended (run summary). A run that returns has inserted one summary
    row, holding the counters of its result, unless the insert itself raised,
    which is swallowed and leaves no row. With a positive batch size, a run
    returns whenever the connection step and the search of the client units
    go through. When the connection step raises, or the search of the client
    units does, [migrate] throws that error and writes no summary. *)
Theorem run_summary_is_persisted env fuel w :
  (forall r w',
     MigrationService.migrate env fuel w = (Ok r, w') ->
     migration_log w' =
       migration_log w ++
         match insert_log_error env with
         | None => [summary_row (result_stats r)]
         | Some _ => []
         end) /\
  (batching_ok env fuel -> connection_error env = None ->
   (exists entries, search_units env (ldapBaseDn env) = Done entries) ->
   exists r w', MigrationService.migrate env fuel w = (Ok r, w')) /\
  (forall msg, connection_error env = Some msg ->
     exists w',
       MigrationService.migrate env fuel w = (Throw msg, w') /\
       migration_log w' = migration_log w) /\
  (forall msg, connection_error env = None ->
     search_units env (ldapBaseDn env) = Fails msg ->
     exists w',
       MigrationService.migrate env fuel w =
         (Throw ("LDAP client search failed: " +:+ msg), w') /\
       migration_log w' = migration_log w).
Proof.
  split; [intros r w'; apply migrate_Ok_inv |].
  split; [| split].
  - intros Hb Hc Hs.
    destruct (each_client_returns env fuel (clients_of env) (started env w) Hb) as [w1 Hloop].
    destruct (migrate_finishes env fuel w w1 Hc Hs Hloop) as (w' & E & _).
    eauto.
  - intros msg Hc.
    destruct (migrate_connection_fails env fuel w msg Hc) as (w' & E & Hlog & _). eauto.
  - intros msg Hc Hs.
    destruct (migrate_enumeration_fails env fuel w msg Hc Hs) as (w' & E & Hlog & _). eauto.
Qed.

Lemma run_summary_is_persisted_witness :
  exists r w',
    MigrationService.migrate Example.live 8 Example.empty = (Ok r, w') /\
    migration_log w' = [summary_row (result_stats r)].
Proof.
  destruct (run_summary_is_persisted Example.live 8 Example.empty)
    as (Hlog & Hreturns & _).
  destruct Hreturns as (r & w' & E).
  - exact example_batching.
  - reflexivity.
  - eexists. reflexivity.
  - exists r, w'. split; [exact E |]. exact (Hlog r w' E).
Defined.

(** The data source is destroyed by [onModuleDestroy], which [migrate] does
    not call. *)
Lemma onModuleDestroy_destroys w :
  isInitialized (snd (DatabaseService.onModuleDestroy w)) = false.
Proof.
  unfold DatabaseService.onModuleDestroy, bind, get.
  destruct (isInitialized w) eqn:E; simpl; [reflexivity | exact E].
Qed.

(** C9, as the specification states it, fails: the data source of the store
    is initialized before the run and is still initialized after it, when the
    run returns and when it throws. *)
Lemma store_connection_stays_open :
  isInitialized Example.empty = true /\
  (exists r, fst (MigrationService.migrate Example.live 8 Example.empty) = Ok r) /\
  isInitialized (Example.after Example.live Example.empty) = true /\
  (exists msg, fst (MigrationService.migrate Example.no_base 8 Example.empty) = Throw msg) /\
  isInitialized (Example.after Example.no_base Example.empty) = true.
Proof. vm_compute. repeat split; eexists; reflexivity. Qed.

(** C9, amended (release of the connections). On every way out of [migrate],
    by return or by throw, the directory is disconnected: when the bind went
    through, the unbind is the last call the run makes, and unless the unbind
    itself fails the directory is no longer connected. The data source of the
    store is left as it was, initialized if it was. *)
Theorem migrate_releases_the_directory_only env fuel w r w' :
  MigrationService.migrate env fuel w = (r, w') ->
  r <> OutOfFuel ->
  (bind_error env = None -> last (trace w') = Some EvUnbind) /\
  (unbind_error env = None -> isConnected w' = false) /\
  isInitialized w' = isInitialized w.
Proof.
  intros Hrun Hr. split; [| split].
  - intros Hb. eapply migrate_unbinds_last; eassumption.
  - intros Hu. eapply migrate_disconnects; eassumption.
  - eapply migrate_isInitialized, Hrun.
Qed.

Lemma migrate_releases_the_directory_only_witness :
  (bind_error Example.no_base = None ->
   last (trace (Example.after Example.no_base Example.empty)) = Some EvUnbind) /\
  (unbind_error Example.no_base = None ->
   isConnected (Example.after Example.no_base Example.empty) = false) /\
  isInitialized (Example.after Example.no_base Example.empty) = isInitialized Example.empty.
Proof.
  apply (migrate_releases_the_directory_only Example.no_base 8 Example.empty
           (Throw "LDAP client search failed: No Such Object")).
  - vm_compute. reflexivity.
  - discriminate.
Defined.

(** C10 (tallies). With a batch size that is not a number the run of the
    example returns with three users enumerated and none tallied, neither as
    a success nor as a failure, and [success = true]; no user row is
    written. ([migrate_tally] above is the invariant for a positive batch
    size.) *)
Theorem nan_batch_size_tallies_no_user :
  batchSize Example.nan_batch = Js.NaN /\
  fst (MigrationService.migrate Example.nan_batch 8 Example.empty) =
    Ok {| success := true;
          result_stats :=
            {| totalClients := 2; totalUsers := 3;
               successfulClients := 2; successfulUsers := 0;
               failedClients := 0; failedUsers := 0; errors := [] |};
          result_dryRun := false |} /\
  size (users (Example.after Example.nan_batch Example.empty)) = 0.
Proof. repeat split; vm_compute; reflexivity. Qed.


(** * Further properties *)

(** ** Strings *)

Lemma strip_prefix_app p rest : Regex.strip_prefix p (p +:+ rest) = Some rest.
Proof.
  induction p as [| a p IH]; simpl; [reflexivity |].
  rewrite Ascii.eqb_refl. exact IH.
Qed.

Lemma strip_prefix_Some p s rest :
  Regex.strip_prefix p s = Some rest -> s = p +:+ rest.
Proof.
  revert s. induction p as [| a p IH]; intros s; simpl.
  - intros [= ->]. reflexivity.
  - destruct s as [| b s]; [discriminate |].
    destruct (Ascii.eqb_spec a b) as [-> |]; [| discriminate].
    intros H. rewrite (IH s H). reflexivity.
Qed.

Lemma test_prefix_true tag s :
  Regex.test_prefix tag s = true <-> exists rest, s = tag +:+ rest.
Proof.
  unfold Regex.test_prefix. split.
  - destruct (Regex.strip_prefix tag s) as [rest |] eqn:E; [| discriminate].
    intros _. exists rest. apply strip_prefix_Some, E.
  - intros [rest ->]. rewrite strip_prefix_app. reflexivity.
Qed.

Lemma length_append s t : String.length (s +:+ t) = String.length s + String.length t.
Proof. induction s as [| c s IH]; simpl; [reflexivity | rewrite IH; reflexivity]. Qed.

Lemma characters_append s t : characters (s +:+ t) = characters s ++ characters t.
Proof. induction s as [| c s IH]; simpl; [reflexivity | rewrite IH; reflexivity]. Qed.

Lemma charAt_in_range s i :
  i < String.length s ->
  exists c, Js.charAt s i = String c EmptyString /\ c ∈ characters s.
Proof.
  unfold Js.charAt. revert i. induction s as [| a s IH]; intros i Hi; simpl in *; [lia |].
  destruct i as [| i].
  - exists a. split; [reflexivity | left].
  - destruct (IH i) as (c & E & Hc); [lia |].
    exists c. split; [exact E | right; exact Hc].
Qed.

(** ** password.utils.ts *)

Lemma first_match_Some patterns p group :
  PasswordUtils.first_match patterns p = Some group ->
  exists tag, tag ∈ patterns /\ p = tag +:+ group /\
    Js.nonempty group = true /\ Regex.no_line_terminator group = true.
Proof.
  induction patterns as [| tag rest IH]; simpl; [discriminate |].
  unfold Regex.match_tagged.
  destruct (Regex.strip_prefix tag p) as [s |] eqn:E.
  2: { intros H. destruct (IH H) as (t & Ht & Hp). exists t. split; [right; exact Ht | exact Hp]. }
  destruct (Js.nonempty s) eqn:E1; simpl.
  2: { intros H. destruct (IH H) as (t & Ht & Hp). exists t. split; [right; exact Ht | exact Hp]. }
  destruct (Regex.no_line_terminator s) eqn:E2.
  2: { intros H. destruct (IH H) as (t & Ht & Hp). exists t. split; [right; exact Ht | exact Hp]. }
  intros [= <-]. exists tag. split; [left |].
  split; [apply strip_prefix_Some, E |]. split; assumption.
Qed.

(** [extractHashFromLdap] removes the tag of a tagged credential: for each of
    the five tags, the tag followed by one or more characters, none of them a
    line terminator, gives those characters. *)
Theorem tagged_credential_loses_its_tag tag rest :
  tag ∈ PasswordUtils.tags ->
  Js.nonempty rest = true -> Regex.no_line_terminator rest = true ->
  PasswordUtils.extractHashFromLdap (tag +:+ rest) = Some rest.
Proof.
  intros Htag Hne Hnl. unfold PasswordUtils.tags in Htag.
  unfold PasswordUtils.extractHashFromLdap, PasswordUtils.tags, PasswordUtils.first_match,
    Regex.match_tagged.
  repeat (apply elem_of_cons in Htag as [-> | Htag]);
    [.. | inversion Htag];
    cbv [String.append]; cbn -[Js.nonempty Regex.no_line_terminator];
    rewrite Hne, Hnl; reflexivity.
Qed.

Lemma tagged_credential_loses_its_tag_witness :
  PasswordUtils.extractHashFromLdap ("{SHA}" +:+ "W6ph5Mm5Pz8GgiULbPgzG37mj9g=") =
    Some "W6ph5Mm5Pz8GgiULbPgzG37mj9g=".
Proof.
  apply (tagged_credential_loses_its_tag "{SHA}" "W6ph5Mm5Pz8GgiULbPgzG37mj9g=").
  - right. left.
  - reflexivity.
  - reflexivity.
Defined.

(** [extractHashFromLdap] removes nothing else: its result is the input
    itself, or the input without one of the five tags at its start, and then
    it is neither empty nor holds a line terminator. *)
Theorem extractHashFromLdap_removes_a_tag_or_nothing p :
  PasswordUtils.extractHashFromLdap p = Some p \/
  exists tag group,
    tag ∈ PasswordUtils.tags /\ p = tag +:+ group /\
    Js.nonempty group = true /\ Regex.no_line_terminator group = true /\
    PasswordUtils.extractHashFromLdap p = Some group.
Proof.
  unfold PasswordUtils.extractHashFromLdap.
  destruct (PasswordUtils.first_match PasswordUtils.tags p) as [group |] eqn:E;
    [right | left; reflexivity].
  destruct (first_match_Some _ _ _ E) as (tag & Htag & Hp & Hne & Hnl).
  exists tag, group. repeat split; assumption.
Qed.

(** [isLdapHash] holds exactly of the strings that start with one of the five
    tags; the empty string is not one of them. *)
Theorem isLdapHash_iff_tagged p :
  PasswordUtils.isLdapHash p = true <->
  exists tag rest, tag ∈ PasswordUtils.tags /\ p = tag +:+ rest.
Proof.
  unfold PasswordUtils.isLdapHash. split.
  - destruct (Js.nonempty p); cbn [negb]; [| discriminate].
    intros H. apply existsb_exists in H as (tag & Hin & Ht).
    apply test_prefix_true in Ht as [rest ->].
    exists tag, rest. split; [apply list_elem_of_In, Hin | reflexivity].
  - intros (tag & rest & Htag & ->).
    assert (Js.nonempty (tag +:+ rest) = true) as ->.
    { unfold PasswordUtils.tags in Htag.
      repeat (apply elem_of_cons in Htag as [-> | Htag]); [.. | inversion Htag];
        reflexivity. }
    cbn [negb]. apply existsb_exists. exists tag.
    split; [apply list_elem_of_In, Htag |].
    apply test_prefix_true. exists rest. reflexivity.
Qed.

(** [getHashInfo] agrees with [isLdapHash]: it names one of the five LDAP
    formats exactly for the strings [isLdapHash] accepts. It reports the
    length of the string, data for every string but the empty one, and the
    format [empty] for the empty string only. *)
Theorem getHashInfo_agrees_with_isLdapHash p :
  let info := PasswordUtilsOther.getHashInfo p in
  (PasswordUtils.isLdapHash p = true <->
   HashInfo.format info ∈ ["SSHA"; "SHA"; "MD5"; "CRYPT"; "CLEARTEXT"]) /\
  HashInfo.length info = String.length p /\
  HashInfo.hasData info = Js.nonempty p /\
  (HashInfo.format info = "empty" <-> p = "").
Proof.
  unfold PasswordUtilsOther.getHashInfo, PasswordUtils.isLdapHash.
  destruct p as [| c p]; simpl.
  { repeat split; try discriminate; try reflexivity.
    intros H. repeat (apply elem_of_cons in H as [H | H]; [discriminate |]).
    inversion H. }
  set (s := String c p).
  destruct (Regex.test_prefix "{SSHA}" s); simpl.
  { repeat split; try discriminate; try reflexivity; intros _; set_solver. }
  destruct (Regex.test_prefix "{SHA}" s); simpl.
  { repeat split; try discriminate; try reflexivity; intros _; set_solver. }
  destruct (Regex.test_prefix "{MD5}" s); simpl.
  { repeat split; try discriminate; try reflexivity; intros _; set_solver. }
  destruct (Regex.test_prefix "{CRYPT}" s); simpl.
  { repeat split; try discriminate; try reflexivity; intros _; set_solver. }
  destruct (Regex.test_prefix "{CLEARTEXT}" s); simpl.
  { repeat split; try discriminate; try reflexivity; intros _; set_solver. }
  destruct (Regex.test_prefix "$2b$" s || Regex.test_prefix "$2a$" s); simpl;
    repeat split; try discriminate; try reflexivity;
    intros H; repeat (apply elem_of_cons in H as [H | H]; [discriminate |]);
    inversion H.
Qed.

Lemma random_chars_spec env n password w :
  exists pw w',
    PasswordUtils.random_chars env n password w = (Ok pw, w') /\
    String.length pw = String.length password + n /\
    (forall c, c ∈ characters pw ->
       c ∈ characters password \/ c ∈ characters PasswordUtils.chars) /\
    random_draws w' = random_draws w + n /\
    bcrypt_calls w' = bcrypt_calls w /\
    quiet w w'.
Proof.
  revert password w. induction n as [| n IH]; intros password w; simpl.
  - exists password, w. repeat split; try lia. intros c Hc. left. exact Hc.
  - unfold bind, PasswordUtils.random_char.
    set (k := random_index env (random_draws w) mod String.length PasswordUtils.chars).
    destruct (charAt_in_range PasswordUtils.chars k) as (c & Ec & Hc).
    { apply Nat.mod_upper_bound. discriminate. }
    rewrite Ec.
    destruct (IH (password +:+ String c EmptyString)
                 (set_random_draws (S (random_draws w)) w))
      as (pw & w' & E & Hlen & Hchars & Hdraws & Hcalls & Hq).
    exists pw, w'. split; [exact E |].
    split. { rewrite Hlen, length_append. simpl. lia. }
    split.
    { intros c' Hc'. destruct (Hchars c' Hc') as [H | H]; [| right; exact H].
      rewrite characters_append in H. apply elem_of_app in H as [H | H].
      - left. exact H.
      - right. simpl in H. apply elem_of_cons in H as [-> | H]; [exact Hc | inversion H]. }
    split. { rewrite Hdraws. simpl. lia. }
    split. { rewrite Hcalls. reflexivity. }
    exact Hq.
Qed.

(** [generateRandomPassword] always returns a password of exactly 12
    characters, each taken from the 70 characters of [chars], whatever the
    random source gives; it draws 12 random numbers and touches nothing
    else. *)
Theorem generateRandomPassword_has_12_known_characters env w :
  exists pw w',
    PasswordUtils.generateRandomPassword env w = (Ok pw, w') /\
    String.length pw = 12 /\
    Forall (fun c => c ∈ characters PasswordUtils.chars) (characters pw) /\
    random_draws w' = random_draws w + 12 /\
    bcrypt_calls w' = bcrypt_calls w /\
    quiet w w'.
Proof.
  unfold PasswordUtils.generateRandomPassword.
  destruct (random_chars_spec env 12 "" w)
    as (pw & w' & E & Hlen & Hchars & Hdraws & Hcalls & Hq).
  exists pw, w'. split; [exact E |]. split; [exact Hlen |].
  split; [| split; [exact Hdraws | split; [exact Hcalls | exact Hq]]].
  apply Forall_forall. intros c Hc.
  destruct (Hchars c Hc) as [H | H]; [inversion H | exact H].
Qed.

(** [convertLdapPassword] never rejects. For the empty credential it returns
    null without drawing a random number or calling bcrypt. For every other
    credential, whatever its format, it draws 12 random numbers and calls
    bcrypt once, on the generated password with 12 salt rounds, and returns
    the hash, or null when bcrypt raises. The tables, the counters and the
    connections are as before in every case. *)
Theorem convertLdapPassword_effects env p w :
  exists h w',
    PasswordUtils.convertLdapPassword env p w = (Ok h, w') /\
    quiet w w' /\
    match p with
    | "" =>
        h = None /\ random_draws w' = random_draws w /\
        bcrypt_calls w' = bcrypt_calls w
    | _ =>
        random_draws w' = random_draws w + 12 /\
        bcrypt_calls w' = S (bcrypt_calls w) /\
        exists pw w1,
          PasswordUtils.generateRandomPassword env w = (Ok pw, w1) /\
          h = match bcrypt_hash env (bcrypt_calls w) pw 12 with
              | Done x => Some x
              | Fails _ => None
              end
    end.
Proof.
  unfold PasswordUtils.convertLdapPassword, try_catch.
  destruct p as [| a p]; simpl.
  { exists None, w. split; [reflexivity |]. split; [apply quiet_refl |].
    repeat split. }
  rewrite (extractHashFromLdap_truthy (String a p) eq_refl). simpl.
  unfold bind.
  destruct (random_chars_spec env 12 "" w)
    as (pw & w1 & E & _ & _ & Hdraws & Hcalls & Hq).
  fold (PasswordUtils.generateRandomPassword env) in E.
  rewrite E. unfold PasswordUtils.bcrypt, PasswordUtils.SALT_ROUNDS.
  rewrite Hcalls.
  destruct (bcrypt_hash env (bcrypt_calls w) pw 12) as [x | msg] eqn:Eh; unfold ret.
  - exists (Some x), (set_bcrypt_calls (S (bcrypt_calls w)) w1).
    split; [reflexivity |]. split; [exact Hq |].
    split; [exact Hdraws |]. split; [reflexivity |].
    exists pw, w1. split; [reflexivity |]. rewrite Eh. reflexivity.
  - exists None, (set_bcrypt_calls (S (bcrypt_calls w)) w1).
    split; [reflexivity |]. split; [exact Hq |].
    split; [exact Hdraws |]. split; [reflexivity |].
    exists pw, w1. split; [reflexivity |]. rewrite Eh. reflexivity.
Qed.

(** ** ldap.service.ts *)

(** [searchClients] has three outcomes. Without a connection it rejects with
    [LDAP not connected] and asks the server nothing. When the search itself
    fails it rejects with that error, prefixed. Otherwise it returns, in the
    order of the entries, the units whose first [ou] value is neither empty
    nor [clients], each with the DN of its entry. *)
Theorem searchClients_outcomes env w :
  match LdapService.searchClients env w with
  | (Ok found, w') =>
      isConnected w = true /\
      w' = set_trace (trace w ++ [EvSearchClients]) w /\
      Forall (fun client => ou client <> "" /\ ou client <> "clients") found /\
      exists entries,
        search_units env (ldapBaseDn env) = Done entries /\
        length found <= length entries /\
        Forall (fun client =>
                  exists entry more,
                    entry ∈ entries /\ ou_dn client = entry_dn entry /\
                    attributes entry !! "ou" = Some (ou client :: more)) found
  | (Throw msg, w') =>
      (isConnected w = false /\ msg = "LDAP not connected" /\ w' = w) \/
      (isConnected w = true /\
       w' = set_trace (trace w ++ [EvSearchClients]) w /\
       exists error,
         search_units env (ldapBaseDn env) = Fails error /\
         msg = "LDAP client search failed: " +:+ error)
  | (OutOfFuel, _) => False
  end.
Proof.
  unfold LdapService.searchClients, bind, get, try_catch, emit, modify, throw, ret.
  destruct (isConnected w) eqn:Hc; simpl.
  2: { left. repeat split. }
  destruct (search_units env (ldapBaseDn env)) as [entries | error] eqn:Hs; simpl.
  2: { right. repeat split. exists error. split; reflexivity. }
  split; [reflexivity |]. split; [reflexivity |].
  split.
  { apply Forall_forall. intros client Hin.
    apply list_elem_of_filter in Hin as [[Hne Hnc] _].
    split; [| exact Hnc]. intros E. rewrite E in Hne. discriminate. }
  exists entries. split; [reflexivity |]. split.
  { etransitivity; [apply length_filter |]. rewrite length_map. reflexivity. }
  apply Forall_forall. intros client Hin.
  apply list_elem_of_filter in Hin as [[Hne _] Hin].
  apply list_elem_of_fmap in Hin as (entry & -> & Hentry). simpl in *.
  destruct (attributes entry !! "ou") as [[| v more] |] eqn:E; simpl in Hne;
    try discriminate.
  exists entry, more. repeat split; assumption.
Qed.

(** [searchUsers] has three outcomes. Without a connection it rejects with
    [LDAP not connected] and asks the server nothing. When the search itself
    fails it rejects with that error, prefixed by the name of the client.
    Otherwise it returns, in the order of the entries, the persons whose
    first [uid] value is not empty; a missing attribute is the empty
    string. *)
Theorem searchUsers_outcomes env clientOU w :
  let searchDN := "ou=" +:+ clientOU +:+ "," +:+ ldapBaseDn env in
  match LdapService.searchUsers env clientOU w with
  | (Ok found, w') =>
      isConnected w = true /\
      w' = set_trace (trace w ++ [EvSearchUsers clientOU]) w /\
      Forall (fun user => uid user <> "") found /\
      exists entries,
        search_persons env searchDN = Done entries /\
        length found <= length entries /\
        Forall (fun user =>
                  exists entry,
                    entry ∈ entries /\ dn user = entry_dn entry /\
                    uid user = Js.first_or_empty (attributes entry !! "uid") /\
                    givenName user = Js.first_or_empty (attributes entry !! "givenName") /\
                    sn user = Js.first_or_empty (attributes entry !! "sn") /\
                    mail user = Js.first_or_empty (attributes entry !! "mail") /\
                    userPassword user =
                      Js.first_or_empty (attributes entry !! "userPassword")) found
  | (Throw msg, w') =>
      (isConnected w = false /\ msg = "LDAP not connected" /\ w' = w) \/
      (isConnected w = true /\
       w' = set_trace (trace w ++ [EvSearchUsers clientOU]) w /\
       exists error,
         search_persons env searchDN = Fails error /\
         msg = "LDAP user search failed for " +:+ clientOU +:+ ": " +:+ error)
  | (OutOfFuel, _) => False
  end.
Proof.
  unfold LdapService.searchUsers, bind, get, try_catch, emit, modify, throw, ret.
  destruct (isConnected w) eqn:Hc; simpl.
  2: { left. repeat split. }
  destruct (search_persons env _) as [entries | error] eqn:Hs; simpl.
  2: { right. repeat split. exists error. split; reflexivity. }
  split; [reflexivity |]. split; [reflexivity |].
  split.
  { apply Forall_forall. intros user Hin.
    apply list_elem_of_filter in Hin as [Hne _].
    intros E. rewrite E in Hne. discriminate. }
  exists entries. split; [reflexivity |]. split.
  { etransitivity; [apply length_filter |]. rewrite length_map. reflexivity. }
  apply Forall_forall. intros user Hin.
  apply list_elem_of_filter in Hin as [_ Hin].
  apply list_elem_of_fmap in Hin as (entry & -> & Hentry). simpl.
  exists entry. repeat split. exact Hentry.
Qed.

(** [testConnection] of the directory never rejects: it returns true exactly
    when the bind succeeds. It leaves the tables and the counters alone. After
    a failed bind the connection flag is as before; after a successful bind
    the directory is released again, unless the unbind fails: then the test
    still returns true and the connection stays open. *)
Theorem ldap_testConnection_never_rejects env w :
  exists w',
    LdapServiceOther.testConnection env w =
      (Ok (bool_decide (bind_error env = None)), w') /\
    isConnected w' =
      match bind_error env, unbind_error env with
      | Some _, _ => isConnected w
      | None, None => false
      | None, Some _ => true
      end /\
    stats w' = stats w /\ clients w' = clients w /\ users w' = users w /\
    migration_log w' = migration_log w /\ isInitialized w' = isInitialized w.
Proof.
  unfold LdapServiceOther.testConnection, LdapService.connect, LdapService.disconnect,
    try_catch, bind, get, emit, modify, raise_if, throw, ret.
  destruct (bind_error env) as [e |]; simpl.
  { eexists. split; [reflexivity |]. repeat split. }
  destruct (unbind_error env) as [e |]; simpl;
    (eexists; split; [reflexivity |]; repeat split).
Qed.

(** ** database.service.ts *)

(** The row [upsertClient] writes under [clientId]. *)
Lemma upsertClient_writes env c name w :
  find_client_error env c = None -> save_client_error env c = None ->
  let stamp := now env (clock_reads w) in
  let row := match clients w !! c with
             | Some stored =>
                 Client.cols (Client.col_id stored) (Js.or name (Client.col_name stored))
                   (Client.col_created_at stored) stamp
             | None => Client.cols (next_client_id w) name stamp stamp
             end in
  DatabaseService.upsertClient env c name w =
    (Ok (Client.read c row),
     set_clock_reads (S (clock_reads w))
       (set_clients (<[c := row]> (clients w))
          (match clients w !! c with
           | Some _ => next_client_id w
           | None => S (next_client_id w)
           end)
          (set_trace (trace w ++ [EvUpsertClient c]) w))).
Proof.
  intros Hf Hs.
  unfold DatabaseService.upsertClient, DatabaseService.findOneClient,
    DatabaseService.saveClient, DatabaseService.saveNewClient,
    try_catch, bind, emit, modify, raise_if, get, ret.
  simpl. rewrite Hf. simpl.
  destruct (clients w !! c) as [[key stored] |] eqn:E; simpl.
  - rewrite Hs. simpl. reflexivity.
  - rewrite Hs. simpl. rewrite E. reflexivity.
Qed.

Lemma upsertClient_cases env c name w :
  (find_client_error env c = None /\ save_client_error env c = None) \/
  exists msg,
    DatabaseService.upsertClient env c name w =
      (Throw ("Client upsert failed for " +:+ c +:+ ": " +:+ msg),
       set_trace (trace w ++ [EvUpsertClient c]) w).
Proof.
  destruct (find_client_error env c) eqn:Hf.
  { right. apply upsertClient_fails. left. rewrite Hf. discriminate. }
  destruct (save_client_error env c) eqn:Hs.
  { right. apply upsertClient_fails. right. rewrite Hs. discriminate. }
  left. split; reflexivity.
Qed.

Lemma upsertClient_Ok_inv env c name w client w' :
  DatabaseService.upsertClient env c name w = (Ok client, w') ->
  find_client_error env c = None /\ save_client_error env c = None.
Proof.
  intros H. destruct (upsertClient_cases env c name w) as [Hok | [msg E]];
    [exact Hok | congruence].
Qed.

Lemma upsertUser_cases env d c w :
  user_upsert_fails env c (Incoming.uid d) = false \/
  exists msg,
    DatabaseService.upsertUser env d c w =
      (Throw ("User upsert failed for " +:+ Incoming.uid d +:+ ": " +:+ msg),
       set_trace (trace w ++ [EvUpsertUser c (Incoming.uid d)]) w).
Proof.
  destruct (user_upsert_fails env c (Incoming.uid d)) eqn:E;
    [right; apply upsertUser_fails, E | left; reflexivity].
Qed.

(** What [upsertClient] returns is what [getClientByOU] finds afterwards
    under the same name. *)
Theorem upserted_client_is_found env clientId name w client w' :
  DatabaseService.upsertClient env clientId name w = (Ok client, w') ->
  DatabaseServiceOther.getClientByOU env clientId w' = (Ok (Some client), w').
Proof.
  intros H. destruct (upsertClient_Ok_inv _ _ _ _ _ _ H) as [Hf Hs].
  rewrite (upsertClient_writes env clientId name w Hf Hs) in H.
  injection H as <- <-.
  unfold DatabaseServiceOther.getClientByOU, DatabaseService.findOneClient,
    try_catch, bind, raise_if, get, ret.
  rewrite Hf. simpl. rewrite lookup_insert_eq. reflexivity.
Qed.

Lemma upserted_client_is_found_witness :
  exists client w',
    DatabaseService.upsertClient Example.live "clientA" (Some "Client A") Example.empty =
      (Ok client, w') /\
    DatabaseServiceOther.getClientByOU Example.live "clientA" w' = (Ok (Some client), w').
Proof.
  eexists _, _. split; [vm_compute; reflexivity |].
  apply (upserted_client_is_found Example.live "clientA" (Some "Client A") Example.empty).
  vm_compute. reflexivity.
Defined.

(** A successful [upsertClient] writes the row of its own name and no other,
    and no user row. A client that has a row keeps its generated identifier
    and its time of creation, and its display name unless a non-empty one is
    given; the number of rows is as before. A client that has none gets the
    next identifier and the given name, and the number of rows grows by
    one. *)
Theorem upsertClient_writes_one_row env clientId name w client w' :
  DatabaseService.upsertClient env clientId name w = (Ok client, w') ->
  Client.client_id client = clientId /\
  clients w' !! clientId = Some (Client.write client) /\
  delete clientId (clients w') = delete clientId (clients w) /\
  users w' = users w /\
  match clients w !! clientId with
  | Some stored =>
      Client.id client = Client.col_id stored /\
      Client.created_at client = Client.col_created_at stored /\
      Client.name client = Js.or name (Client.col_name stored) /\
      next_client_id w' = next_client_id w /\
      size (clients w') = size (clients w)
  | None =>
      Client.id client = next_client_id w /\
      Client.name client = name /\
      next_client_id w' = S (next_client_id w) /\
      size (clients w') = S (size (clients w))
  end.
Proof.
  intros H. destruct (upsertClient_Ok_inv _ _ _ _ _ _ H) as [Hf Hs].
  rewrite (upsertClient_writes env clientId name w Hf Hs) in H.
  destruct (clients w !! clientId) as [stored |] eqn:E;
    injection H as <- <-; simpl;
    (split; [reflexivity |]); (split; [apply lookup_insert_eq |]);
    (split; [apply delete_insert_eq |]); (split; [reflexivity |]).
  - repeat split. rewrite map_size_insert_Some; [reflexivity | eauto].
  - repeat split. rewrite map_size_insert_None; [reflexivity | exact E].
Qed.

Lemma upsertClient_writes_one_row_witness :
  exists client w',
    DatabaseService.upsertClient Example.live "clientA" (Some "Client A") Example.empty =
      (Ok client, w') /\
    Client.client_id client = "clientA" /\
    clients w' !! "clientA" = Some (Client.write client).
Proof.
  assert (exists client w',
            DatabaseService.upsertClient Example.live "clientA" (Some "Client A")
              Example.empty = (Ok client, w')) as (client & w' & H).
  { eexists _, _. vm_compute. reflexivity. }
  exists client, w'. split; [exact H |].
  destruct (upsertClient_writes_one_row _ _ _ _ _ _ H) as (Hid & Hrow & _).
  split; [exact Hid | exact Hrow].
Defined.

(** [upsertUser], awaited alone, writes at most the row of its own key, and
    that only when it returns. When it returns, the row is the user it
    returns, under the given client and the given username; a row that was
    there keeps its generated identifier and its time of creation, and the
    number of rows is as before; a row that was not there gets the next
    identifier, and the number of rows grows by one. When it throws, the
    table is as before, and the message is the message of the error of the
    lookup or of the save, prefixed. *)
Theorem upsertUser_writes_one_row env (userData : Incoming.t) clientId w :
  let key := (clientId, Incoming.uid userData) in
  match DatabaseService.upsertUser env userData clientId w with
  | (Ok user, w') =>
      User.client_id user = clientId /\
      User.username user = Incoming.uid userData /\
      users w' !! key = Some (User.write user) /\
      delete key (users w') = delete key (users w) /\
      clients w' = clients w /\
      match users w !! key with
      | Some stored =>
          User.id user = User.col_id stored /\
          User.created_at user = User.col_created_at stored /\
          next_user_id w' = next_user_id w /\
          size (users w') = size (users w)
      | None =>
          User.id user = next_user_id w /\
          next_user_id w' = S (next_user_id w) /\
          size (users w') = S (size (users w))
      end
  | (Throw msg, w') =>
      users w' = users w /\ next_user_id w' = next_user_id w /\
      clients w' = clients w /\
      exists error,
        (find_user_error env clientId (Incoming.uid userData) = Some error \/
         save_user_error env clientId (Incoming.uid userData) = Some error) /\
        msg = "User upsert failed for " +:+ Incoming.uid userData +:+ ": " +:+ error
  | (OutOfFuel, _) => False
  end.
Proof.
  intros key.
  unfold DatabaseService.upsertUser, DatabaseService.findOneUser,
    DatabaseService.updateOrCreateUser, DatabaseService.saveUser,
    DatabaseService.saveNewUser, try_catch, bind, emit, modify, raise_if, get, throw, ret.
  simpl.
  destruct (find_user_error env clientId (Incoming.uid userData)) as [e |] eqn:Hf; simpl.
  { repeat split. exists e. split; [left |]; reflexivity. }
  fold key.
  destruct (users w !! key) as [stored |] eqn:E; simpl;
    (destruct (save_user_error env clientId (Incoming.uid userData)) as [e |] eqn:Hs;
     simpl; [repeat split; exists e; split; [right |]; reflexivity |]).
  - split; [reflexivity |]. split; [reflexivity |].
    split; [apply lookup_insert_eq |]. split; [apply delete_insert_eq |].
    split; [reflexivity |]. repeat split.
    rewrite map_size_insert_Some; [reflexivity | eauto].
  - fold key. rewrite E. simpl.
    split; [reflexivity |]. split; [reflexivity |].
    split; [apply lookup_insert_eq |]. split; [apply delete_insert_eq |].
    split; [reflexivity |]. repeat split.
    rewrite map_size_insert_None; [reflexivity | exact E].
Qed.

(** [logMigrationRun] never rejects, and it only appends: the rows of the log
    stay, one row is added, or none when the insert raises; the two tables
    and the statistics are as before. *)
Theorem logMigrationRun_only_appends env stats0 w :
  exists w' added,
    DatabaseService.logMigrationRun env stats0 w = (Ok tt, w') /\
    migration_log w' = migration_log w ++ added /\
    length added = match insert_log_error env with Some _ => 0 | None => 1 end /\
    clients w' = clients w /\ users w' = users w /\ stats w' = stats w.
Proof.
  unfold DatabaseService.logMigrationRun, try_catch, bind, emit, modify, raise_if,
    throw, ret.
  destruct (insert_log_error env) as [e |]; simpl.
  - exists (set_trace (trace w ++ [EvLogMigrationRun]) w), [].
    rewrite app_nil_r. repeat split.
  - eexists _, [_]. repeat split.
Qed.

Lemma well_formed_insert w w1 name row :
  well_formed w ->
  clients w1 = <[name := row]> (clients w) ->
  Client.col_id row = match clients w !! name with
                      | Some stored => Client.col_id stored
                      | None => next_client_id w
                      end ->
  next_client_id w1 = match clients w !! name with
                      | Some _ => next_client_id w
                      | None => S (next_client_id w)
                      end ->
  well_formed w1.
Proof.
  intros [Hfresh Hinj] Hc Hid Hn.
  destruct (clients w !! name) as [stored |] eqn:E.
  - split; rewrite Hc, ?Hn.
    + intros k r. rewrite lookup_insert. case_decide.
      * intros [= <-]. rewrite Hid. eapply Hfresh, E.
      * apply Hfresh.
    + intros k1 k2 c1 c2. rewrite !lookup_insert.
      repeat case_decide; subst.
      * reflexivity.
      * intros [= <-] H2. rewrite Hid. apply (Hinj _ _ _ _ E H2).
      * intros H1 [= <-]. rewrite Hid. apply (Hinj _ _ _ _ H1 E).
      * apply Hinj.
  - split; rewrite Hc, ?Hn.
    + intros k r. rewrite lookup_insert. case_decide.
      * intros [= <-]. rewrite Hid. lia.
      * intros Hk. apply Hfresh in Hk. lia.
    + intros k1 k2 c1 c2. rewrite !lookup_insert.
      repeat case_decide; subst.
      * reflexivity.
      * intros [= <-] H2 Heq. apply Hfresh in H2. rewrite Hid in Heq. lia.
      * intros H1 [= <-] Heq. apply Hfresh in H1. rewrite Hid in Heq. lia.
      * apply Hinj.
Qed.

(** [upsertClient] keeps the primary key of [clients] sound, whatever name
    it is given and whether it returns or throws: the generated identifiers
    stay pairwise different and smaller than the next one, and no stored
    client changes its identifier. *)
Theorem upsertClient_keeps_the_primary_key env clientId name w :
  well_formed w ->
  let w' := snd (DatabaseService.upsertClient env clientId name w) in
  well_formed w' /\
  Client.col_id <$> clients w ⊆ Client.col_id <$> clients w'.
Proof.
  intros Hwf w'. subst w'.
  destruct (upsertClient_cases env clientId name w) as [[Hf Hs] | [msg E]].
  2: { rewrite E. simpl. split; [| reflexivity].
       apply (well_formed_ext w); [reflexivity.. | exact Hwf]. }
  rewrite (upsertClient_writes env clientId name w Hf Hs). simpl.
  split.
  - eapply (well_formed_insert w); [exact Hwf | reflexivity | |];
      simpl; destruct (clients w !! clientId); reflexivity.
  - rewrite fmap_insert.
    destruct (clients w !! clientId) as [stored |] eqn:E; simpl.
    + rewrite insert_id; [reflexivity |]. rewrite lookup_fmap, E. reflexivity.
    + apply insert_subseteq. rewrite lookup_fmap, E. reflexivity.
Qed.

Lemma upsertClient_keeps_the_primary_key_witness :
  well_formed (snd (DatabaseService.upsertClient Example.live "clientA" (Some "A")
                      Example.empty)).
Proof.
  apply (upsertClient_keeps_the_primary_key Example.live "clientA" (Some "A")
           Example.empty).
  split; simpl; intros *; rewrite lookup_empty; discriminate.
Defined.

(** ** migration.service.ts *)

(** Awaiting alone what is left of a method that awaits [p] and goes on with
    [k]: [p] alone, then what [k] makes of its outcome. *)
Lemma alone_then {A B} (p : Promise A) (k : outcome A -> Promise B) w :
  alone (then_ p k) w = alone (k (fst (alone p w))) (snd (alone p w)).
Proof.
  revert w. induction p as [r | rest IH effect]; intros w; simpl; [reflexivity |].
  apply IH.
Qed.

(** A user without a source credential: the call of [processUser] draws no
    random number and does not call bcrypt, and it leaves the state as it
    is. When the user has a row and the database refuses neither the lookup
    nor the save, the promise, awaited alone, counts one success and leaves
    the row its target credential. *)
Theorem user_without_credential_keeps_its_own env u clientId w stored :
  userPassword u = "" ->
  users w !! (clientId, uid u) = Some stored ->
  user_upsert_fails env clientId (uid u) = false ->
  exists p w',
    MigrationService.processUser env u clientId w = (Ok p, w) /\
    alone p w = (Ok tt, w') /\
    successfulUsers (stats w') = S (successfulUsers (stats w)) /\
    failedUsers (stats w') = failedUsers (stats w) /\
    users w' !! (clientId, uid u) ≫= User.col_password_hash =
      User.col_password_hash stored /\
    random_draws w' = random_draws w /\ bcrypt_calls w' = bcrypt_calls w.
Proof.
  intros Hp Hrow F.
  unfold MigrationService.processUser, try_catch, bind, ret. rewrite Hp. simpl.
  eexists _, _. split; [reflexivity |].
  unfold MigrationService.counted, rescue, after.
  rewrite !alone_then.
  change (alone (DatabaseService.upsertUser_async env
                   (MigrationService.dbUserData u None) clientId) w)
    with (alone (DatabaseService.upsertUser_async env
                   (MigrationService.dbUserData u None) clientId) w).
  rewrite (upsertUser_alone env clientId (MigrationService.dbUserData u None) w).
  rewrite (upsertUser_ok env (MigrationService.dbUserData u None) clientId w F).
  simpl. rewrite Hrow. simpl.
  split; [reflexivity |]. simpl.
  rewrite lookup_insert_eq. repeat split.
Qed.

Lemma user_without_credential_keeps_its_own_witness :
  exists p w',
    MigrationService.processUser Example.live
      {| uid := "user2"; givenName := ""; sn := ""; mail := "";
         userPassword := ""; dn := "uid=user2,ou=clientA" |} 1
      (Example.after Example.live Example.empty) =
      (Ok p, Example.after Example.live Example.empty) /\
    alone p (Example.after Example.live Example.empty) = (Ok tt, w') /\
    users w' !! (1, "user2") ≫= User.col_password_hash = None.
Proof.
  destruct (user_without_credential_keeps_its_own Example.live
              {| uid := "user2"; givenName := ""; sn := ""; mail := "";
                 userPassword := ""; dn := "uid=user2,ou=clientA" |} 1
              (Example.after Example.live Example.empty)
              (User.cols 1 (Some "") (Some "") (Some "") None
                 "uid=user2,ou=clientA,ou=clients,dc=example,dc=com" 101 101))
    as (p & w' & E & F & _ & _ & H & _).
  - reflexivity.
  - vm_compute. reflexivity.
  - reflexivity.
  - exists p, w'. split; [exact E |]. split; [exact F | exact H].
Defined.

(** [migrate] throws only what stopped it before the client loop: the error
    of the connection step, or that of the search of the client units. What
    a client or a user raises, and what the insert of the summary raises, is
    never thrown by the run. *)
Theorem migrate_throws_only_at_the_start env fuel w msg w' :
  MigrationService.migrate env fuel w = (Throw msg, w') ->
  (connection_error env = Some msg \/
   connection_error env = None /\
   exists e, search_units env (ldapBaseDn env) = Fails e /\
             msg = "LDAP client search failed: " +:+ e) /\
  clients w' = clients w /\ users w' = users w /\
  migration_log w' = migration_log w.
Proof.
  intros Hrun.
  destruct (connection_error env) as [m |] eqn:Hc.
  { destruct (migrate_connection_fails env fuel w m Hc) as (w2 & E & Hl & Hcs & Hus & _).
    rewrite E in Hrun. injection Hrun as <- <-. auto. }
  destruct (search_units env (ldapBaseDn env)) as [entries | e] eqn:Hs.
  2: { destruct (migrate_enumeration_fails env fuel w e Hc Hs)
         as (w2 & E & Hl & Hcs & Hus & _).
       rewrite E in Hrun. injection Hrun as <- <-.
       split; [right; split; [reflexivity | exists e; split; reflexivity] | auto]. }
  exfalso.
  destruct (MigrationService.each_client env fuel (clients_of env) (started env w))
    as [[[] | m |] w1] eqn:Hloop.
  - destruct (migrate_finishes env fuel w w1 Hc (ex_intro _ entries Hs) Hloop)
      as (w2 & E & _).
    rewrite E in Hrun. discriminate.
  - destruct (each_client_never_throws env fuel _ _ _ _ Hloop).
  - rewrite (migrate_connected env fuel w Hc (ex_intro _ entries Hs)) in Hrun.
    unfold try_finally, try_catch, bind in Hrun. rewrite Hloop in Hrun.
    discriminate.
Qed.

Lemma migrate_throws_only_at_the_start_witness :
  (connection_error Example.no_base = Some "LDAP client search failed: No Such Object" \/
   connection_error Example.no_base = None /\
   exists e, search_units Example.no_base (ldapBaseDn Example.no_base) = Fails e /\
             "LDAP client search failed: No Such Object" =
               "LDAP client search failed: " +:+ e) /\
  clients (Example.after Example.no_base Example.empty) = clients Example.empty /\
  users (Example.after Example.no_base Example.empty) = users Example.empty /\
  migration_log (Example.after Example.no_base Example.empty) =
    migration_log Example.empty.
Proof.
  apply (migrate_throws_only_at_the_start Example.no_base 8 Example.empty
           "LDAP client search failed: No Such Object").
  vm_compute. reflexivity.
Defined.

(** A client whose users the directory does not list: its row is written
    before the search, and yet the client is tallied as a failure, with one
    message; no user is counted or upserted for it, and the loop goes on
    with the next client. *)
Theorem client_without_user_list_is_stored_and_failed env fuel client rest w e :
  isConnected w = true ->
  find_client_error env (ou client) = None ->
  save_client_error env (ou client) = None ->
  search_persons env ("ou=" +:+ ou client +:+ "," +:+ ldapBaseDn env) = Fails e ->
  exists w1,
    MigrationService.each_client env fuel (client :: rest) w =
      MigrationService.each_client env fuel rest w1 /\
    is_Some (clients w1 !! ou client) /\
    users w1 = users w /\
    failedClients (stats w1) = S (failedClients (stats w)) /\
    successfulClients (stats w1) = successfulClients (stats w) /\
    totalUsers (stats w1) = totalUsers (stats w) /\
    errors (stats w1) =
      errors (stats w) ++
        ["Client " +:+ ou client +:+ ": LDAP user search failed for " +:+
         ou client +:+ ": " +:+ e] /\
    trace w1 = trace w ++ [EvUpsertClient (ou client); EvSearchUsers (ou client)].
Proof.
  intros Hcon Hf Hs Hsearch. simpl.
  unfold bind at 1. unfold try_catch at 1. unfold bind at 1.
  unfold MigrationService.processClient. unfold bind at 1.
  rewrite (upsertClient_writes env (ou client) None w Hf Hs). cbv zeta.
  unfold bind at 1.
  unfold LdapService.searchUsers, try_catch, bind, get, emit, modify, throw.
  simpl. rewrite Hcon. simpl. rewrite Hsearch. simpl.
  eexists. split; [reflexivity |]. simpl.
  rewrite lookup_insert_eq. rewrite <- app_assoc.
  repeat split; eauto.
Qed.

Lemma client_without_user_list_is_stored_and_failed_witness :
  exists w1,
    MigrationService.each_client clientA_unlisted 8
      [ {| ou := "clientA"; ou_dn := "ou=clientA" |};
        {| ou := "clientB"; ou_dn := "ou=clientB" |} ]
      (started clientA_unlisted Example.empty) =
      MigrationService.each_client clientA_unlisted 8
        [ {| ou := "clientB"; ou_dn := "ou=clientB" |} ] w1 /\
    is_Some (clients w1 !! "clientA") /\
    failedClients (stats w1) = 1 /\
    errors (stats w1) =
      ["Client clientA: LDAP user search failed for clientA: " +:+
       "Insufficient access rights"].
Proof.
  destruct (client_without_user_list_is_stored_and_failed clientA_unlisted 8
              {| ou := "clientA"; ou_dn := "ou=clientA" |}
              [ {| ou := "clientB"; ou_dn := "ou=clientB" |} ]
              (started clientA_unlisted Example.empty) "Insufficient access rights")
    as (w1 & E & Hrow & _ & Hfailed & _ & _ & Herrors & _);
    [reflexivity | reflexivity | reflexivity | reflexivity |].
  exists w1. repeat split; assumption.
Defined.

(** With a batch size of zero or less the batch loop of a client that has
    users never ends: whatever the fuel, the loop uses it up. *)
Theorem batch_loop_needs_a_positive_size env clientId users b w :
  batchSize env = Some b -> (b <= 0)%Z -> users <> [] ->
  forall fuel,
    exists w',
      MigrationService.batches env fuel users clientId (Some 0%Z) w = (OutOfFuel, w').
Proof.
  intros Hsize Hb Hne fuel.
  apply (batches_never_end env clientId users b Hsize Hb Hne fuel 0%Z w). lia.
Qed.

Lemma batch_loop_needs_a_positive_size_witness :
  exists w',
    MigrationService.batches
      (Example.env false (Some 0%Z) None Example.no_client_error Example.no_user_error)
      5
      [ {| uid := "user2"; givenName := ""; sn := ""; mail := "";
           userPassword := ""; dn := "uid=user2,ou=clientA" |} ]
      1 (Some 0%Z) Example.empty = (OutOfFuel, w').
Proof.
  apply (batch_loop_needs_a_positive_size
           (Example.env false (Some 0%Z) None Example.no_client_error Example.no_user_error)
           1
           [ {| uid := "user2"; givenName := ""; sn := ""; mail := "";
                userPassword := ""; dn := "uid=user2,ou=clientA" |} ]
           0%Z Example.empty).
  - reflexivity.
  - lia.
  - discriminate.
Defined.

(** [validateSetup] never rejects. It answers [true] exactly when the
    configuration is valid, the directory accepts the bind and the database
    answers [SELECT 1]; with an invalid configuration it contacts neither
    server. *)
Theorem validateSetup_answers processEnv selectError env w :
  exists answer w',
    MigrationServiceOther.validateSetup processEnv selectError env w = (Ok answer, w') /\
    (answer = true <->
     ConfigurationService.validate processEnv = true /\
     bind_error env = None /\ selectError = None) /\
    (ConfigurationService.validate processEnv = false -> w' = w).
Proof.
  unfold MigrationServiceOther.validateSetup, LdapServiceOther.testConnection,
    DatabaseServiceOther.testConnection, LdapService.connect, LdapService.disconnect.
  unfold try_catch, bind, emit, modify, get, raise_if, throw, ret.
  destruct (ConfigurationService.validate processEnv); simpl.
  2: { eexists _, _. split; [reflexivity |]. split; [| reflexivity].
       split; [discriminate | intros [[=] _]]. }
  destruct (bind_error env) as [e |]; simpl.
  { eexists _, _. split; [reflexivity |]. split; [| discriminate].
    split; [discriminate | intros (_ & [=] & _)]. }
  destruct (unbind_error env); simpl;
    destruct selectError; simpl;
    eexists _, _; (split; [reflexivity |]); (split; [| discriminate]);
    split; try discriminate; try (intros (_ & _ & [=])); auto.
Qed.

(** ** configuration.ts *)

Lemma or_default_nonempty value fallback :
  Js.nonempty fallback = true ->
  Js.nonempty (ConfigurationService.or_default value fallback) = true.
Proof.
  intros H. unfold ConfigurationService.or_default.
  destruct value as [s |]; [| exact H].
  destruct (Js.nonempty s) eqn:E; [exact E | exact H].
Qed.

(** Of the eight required settings only the bind password has no default:
    [validate] answers [true] exactly when [LDAP_BIND_PASSWORD] is set and
    not empty. *)
Theorem validate_iff_bind_password (processEnv : gmap string string) :
  ConfigurationService.validate processEnv = true <->
  exists s, processEnv !! "LDAP_BIND_PASSWORD" = Some s /\ s <> "".
Proof.
  unfold ConfigurationService.validate, ConfigurationService.missingFields,
    ConfigurationService.requiredFields.
  unfold ConfigurationService.ldapUrl, ConfigurationService.ldapBindDn,
    ConfigurationService.ldapBaseDn, ConfigurationService.dbHost,
    ConfigurationService.dbUser, ConfigurationService.dbPassword,
    ConfigurationService.dbName, ConfigurationService.ldapBindPassword.
  cbn [List.filter snd].
  repeat match goal with
         | |- context [Js.nonempty (ConfigurationService.or_default ?v (String ?c ?f))] =>
             rewrite (or_default_nonempty v (String c f) eq_refl)
         end.
  cbn [negb].
  unfold ConfigurationService.or_default.
  destruct (processEnv !! "LDAP_BIND_PASSWORD") as [[| c s] |]; simpl; split;
    intros H; try discriminate; try reflexivity;
    try (eexists; split; [reflexivity | discriminate]);
    destruct H as (s0 & Hs0 & Hne); try discriminate;
    injection Hs0 as <-; contradiction.
Qed.

(** [validate] does not look at [BATCH_SIZE]: whatever that setting is
    changed to, the answer is the same. *)
Theorem validate_ignores_batch_size (processEnv : gmap string string) (s : string) :
  ConfigurationService.validate (<["BATCH_SIZE" := s]> processEnv) =
  ConfigurationService.validate processEnv.
Proof.
  unfold ConfigurationService.validate, ConfigurationService.missingFields,
    ConfigurationService.requiredFields.
  unfold ConfigurationService.ldapUrl, ConfigurationService.ldapBindDn,
    ConfigurationService.ldapBaseDn, ConfigurationService.dbHost,
    ConfigurationService.dbUser, ConfigurationService.dbPassword,
    ConfigurationService.dbName, ConfigurationService.ldapBindPassword.
  rewrite !lookup_insert_ne by discriminate. reflexivity.
Qed.

Lemma leading_digits_Some s a :
  exists n, ConfigurationService.leading_digits s (Some a) = Some n.
Proof.
  revert a. induction s as [| c s IH]; intros a; simpl; [eauto |].
  destruct (ConfigurationService.digit_value c); [apply IH | eauto].
Qed.

Lemma leading_digits_NaN s :
  ConfigurationService.leading_digits s None = None <-> starts_with_digit s = false.
Proof.
  destruct s as [| c s]; simpl; [split; reflexivity |].
  destruct (ConfigurationService.digit_value c) as [d |]; [| split; reflexivity].
  destruct (leading_digits_Some s (10 * 0 + d)%Z) as [n ->]. split; discriminate.
Qed.

(** [parseInt] answers [NaN] exactly when, after the white space and the
    sign, the text does not start with a digit. *)
Lemma parseInt_NaN s :
  ConfigurationService.parseInt s = Js.NaN <->
  starts_with_digit (unsigned (ConfigurationService.trim_start s)) = false.
Proof.
  unfold ConfigurationService.parseInt, Js.NaN.
  destruct (ConfigurationService.trim_start s) as [| c rest] eqn:E;
    [split; reflexivity |].
  destruct (ascii_dec c "-") as [-> | Hm].
  { cbn [unsigned]. rewrite <- leading_digits_NaN.
    destruct (ConfigurationService.leading_digits rest None); split;
      (discriminate || reflexivity). }
  destruct (ascii_dec c "+") as [-> | Hp].
  { cbn [unsigned]. apply leading_digits_NaN. }
  assert (unsigned (String c rest) = String c rest) as ->.
  { unfold unsigned.
    destruct c as [[] [] [] [] [] [] [] []]; try reflexivity; congruence. }
  rewrite <- leading_digits_NaN.
  destruct c as [[] [] [] [] [] [] [] []]; try reflexivity; congruence.
Qed.

(** The batch size is [NaN] exactly when [BATCH_SIZE] is set to a text that
    is not empty and that, after its white space and its sign, does not
    start with a digit. Unset or empty, it is 100. *)
Theorem batchSize_NaN_iff (processEnv : gmap string string) :
  (ConfigurationService.batchSize processEnv = Js.NaN <->
   exists s, processEnv !! "BATCH_SIZE" = Some s /\ s <> "" /\
             starts_with_digit (unsigned (ConfigurationService.trim_start s)) = false) /\
  (processEnv !! "BATCH_SIZE" = None \/ processEnv !! "BATCH_SIZE" = Some "" ->
   ConfigurationService.batchSize processEnv = Some 100%Z).
Proof.
  unfold ConfigurationService.batchSize, ConfigurationService.or_default.
  split.
  - destruct (processEnv !! "BATCH_SIZE") as [[| c s] |]; cbn [Js.nonempty].
    + split; [discriminate | intros (s & [= <-] & H & _); contradiction].
    + rewrite parseInt_NaN. split.
      * intros H. exists (String c s). repeat split; [discriminate | exact H].
      * intros (s0 & [= <-] & _ & H). exact H.
    + split; [discriminate | intros (s & [=] & _)].
  - intros [-> | ->]; reflexivity.
Qed.

(** ** user.entity.ts *)

(** The full name of a user with a username is never empty, and it is the
    username exactly when the user has neither a first nor a last name. *)
Theorem getFullName_is_not_empty (user : User.t) :
  User.username user <> "" ->
  UserEntity.getFullName user <> "" /\
  (Js.truthy (User.first_name user) = false ->
   Js.truthy (User.last_name user) = false ->
   UserEntity.getFullName user = User.username user).
Proof.
  intros Hname. unfold UserEntity.getFullName, UserEntity.text, Js.truthy.
  destruct (User.first_name user) as [[| c1 s1] |];
    destruct (User.last_name user) as [[| c2 s2] |]; simpl;
    (split; [try exact Hname; discriminate | try discriminate; reflexivity]).
Qed.

Lemma getFullName_is_not_empty_witness :
  UserEntity.getFullName
    (User.mk 1 1 "user1" (Some "Ada") (Some "Lovelace") None None "uid=user1" 100 100)
    <> "" /\
  UserEntity.getFullName
    (User.mk 1 1 "user1" (Some "Ada") (Some "Lovelace") None None "uid=user1" 100 100)
    = "Ada Lovelace".
Proof.
  split; [| reflexivity].
  apply (getFullName_is_not_empty
           (User.mk 1 1 "user1" (Some "Ada") (Some "Lovelace") None None "uid=user1" 100 100)).
  simpl. discriminate.
Defined.
